(** * A shallow embedding of the EdgeDB compiler core

    Four pieces of the repository are embedded and verified here:

    - [edb/edgeql/compiler/inference/types.py]: the type inference engine
      ([infer_type], [_infer_common_type], [_infer_binop_args], ...),
      as a state-and-exception monad over the compiler environment;
    - [edb/server/compiler/errormech.py]: the translation of backend errors
      ([static_interpret_backend_error], [interpret_backend_error]);
    - [edb/pgsql/delta.py]: the enum branch of [AlterScalarType._alter_begin],
      the inheritance-view methods of [CompositeMetaCommand] (in a batch and
      outside of one) and the commands it shares ([_get_multicommand],
      [get_alter_table]);
    - [edb/ir/ast.py]: [BasePointerRef.descendants] and the equality of
      type references.

    Definitions come first (Part I), theorems second (Part II). *)

From Stdlib Require Import Ascii String ZArith.
From stdpp Require Import base option list strings pretty gmap.

Set Warnings "-register-all,-clear-no-such-hyp".

(** * Part I: the embedding *)

(** ** Python exceptions and the result of a call *)

Module Py.

(** [context=] of a [QueryError]: the parser context of an IR node
    ([Base.context], ``Optional[ParserContext]``). *)
Definition ParserContext := nat.

Inductive Exn :=
| QueryError (msg : string) (context : option ParserContext)
| ValueError (msg : string)
| TypeError (msg : string)
| AttributeError (msg : string)
| AssertionError (msg : string)
| IndexError
| KeyError
| LookupError.

(** Outcome of running a Python function on a state [S]: it returns a value
    and leaves a state, or an exception propagates. *)
Inductive Res (S A : Type) :=
| Ok (a : A) (s : S)
| Raise (e : Exn).
Global Arguments Ok {S A} a s.
Global Arguments Raise {S A} e.

Definition M (S A : Type) := S -> Res S A.

Definition ret {S A} (a : A) : M S A := fun s => Ok a s.
Definition raise {S A} (e : Exn) : M S A := fun _ => Raise e.
Definition bind {S A B} (m : M S A) (k : A -> M S B) : M S B :=
  fun s => match m s with
           | Ok a s' => k a s'
           | Raise e => Raise e
           end.
Definition modify {S} (f : S -> S) : M S unit := fun s => Ok tt (f s).

(** ``for x in xs: body(x)`` *)
Fixpoint for_each {S A} (xs : list A) (body : A -> M S unit) : M S unit :=
  match xs with
  | [] => ret tt
  | x :: xs' => bind (body x) (fun _ => for_each xs' body)
  end.

(** ``repr`` of a ``str`` (no quote inside): the text between single quotes. *)
Definition repr (s : string) : string := "'" +:+ s +:+ "'".

End Py.

Declare Scope py_scope.
Delimit Scope py_scope with py.
Notation "x <- m ;; k" := (Py.bind m (fun x => k))
  (at level 100, m at next level, right associativity) : py_scope.
Notation "m ;;; k" := (Py.bind m (fun _ => k))
  (at level 100, right associativity) : py_scope.

(** ** [edb/ir/ast.py] and the schema types the inference engine sees *)

(** Qualified names ([sn.QualName]). *)
Record QualName := mkQualName {
  module : string;
  name : string;
}.

Global Instance QualName_eq_dec : EqDecision QualName.
Proof. solve_decision. Defined.

Module s_types.

(** Modelled from the spec: the schema types ([edb/schema/types.py],
    [scalars.py] and [pseudo.py] are not among the sources).  Spec 3.2:
    scalar types, object types, the collections ``Array<T>`` and
    ``Tuple<...>``, and the pseudo-types ``anytype`` and ``anytuple``.  A
    type is identified by its name, a collection by its element types, so
    [Array.create] and [Tuple.create] return the collection of the element
    types they are given and ``get_subtypes`` of an array gives its element
    type. *)
Inductive Type_ :=
| ScalarType (name : string)
| ObjectType (name : string)
| Array (element_type : Type_)
| Tuple (named : bool) (element_types : list (string * Type_))
| PseudoType (name : string).

(** ``isinstance(t, s_abc.Collection)`` *)
Definition is_collection (t : Type_) : bool :=
  match t with
  | Array _ | Tuple _ _ => true
  | _ => false
  end.

(** ``isinstance(t, s_scalars.ScalarType)``, also [Type.is_scalar]. *)
Definition is_scalar (t : Type_) : bool :=
  match t with
  | ScalarType _ => true
  | _ => false
  end.

(** Modelled from the spec: [PseudoType.is_any], true of the pseudo-type
    ``anytype`` (spec 3.2). *)
Definition is_any (t : Type_) : bool :=
  match t with
  | PseudoType n => bool_decide (n = "anytype")
  | _ => false
  end.

(** ``str(t.get_name(schema)) == 'std::anyscalar'`` for a scalar [t]. *)
Definition is_anyscalar (t : Type_) : bool :=
  match t with
  | ScalarType n => bool_decide (n = "std::anyscalar")
  | _ => false
  end.

End s_types.

Abbreviation Ty := s_types.Type_.

Module irast.

(** Identity of an IR node as a dictionary key.  AST nodes hash by object
    identity; [TypeRef] nodes hash by the id of the type they refer to and
    compare by class and id, so type references of one class to one type
    carry one key. *)
Definition Key := nat.

(** What every [Base] node carries: its identity and ``context``. *)
Record Node := mkNode {
  key : Key;
  context : option Py.ParserContext;
}.

Inductive TypeRefClass := PlainTypeRef | AnyTypeRef | AnyTupleRef.

(** [TypeRef] with the fields inference reads. *)
Inductive TypeRef :=
| mkTypeRef (cls : TypeRefClass) (node : Node) (id : nat)
    (element_name : option string) (collection : option string)
    (subtypes : list TypeRef).

Definition typeref_cls (t : TypeRef) : TypeRefClass :=
  let 'mkTypeRef c _ _ _ _ _ := t in c.
Definition typeref_node (t : TypeRef) : Node :=
  let 'mkTypeRef _ n _ _ _ _ := t in n.
Definition typeref_id (t : TypeRef) : nat :=
  let 'mkTypeRef _ _ i _ _ _ := t in i.
Definition element_name (t : TypeRef) : option string :=
  let 'mkTypeRef _ _ _ e _ _ := t in e.
Definition collection (t : TypeRef) : option string :=
  let 'mkTypeRef _ _ _ _ c _ := t in c.
Definition subtypes (t : TypeRef) : list TypeRef :=
  let 'mkTypeRef _ _ _ _ _ s := t in s.

(** The IR nodes [infer_type] can be called on, by the rule that
    [functools.singledispatch] selects for them.  [NoneNode] is Python's
    ``None``; [Unregistered] is a node of a class with no rule of its own
    ([Pointer], [SortExpr], [SessionStateCmd], ...); [Set_] is a [Set] that is
    not an [EmptySet]; [Stmt] is any statement other than [InsertStmt];
    [BaseConstant] is any of the constant classes; [Parameter_] is
    [irast.Parameter]. *)
Inductive Base :=
| NoneNode
| Unregistered (n : Node)
| Statement (n : Node) (expr : Base)
| Set_ (n : Node)
| EmptySet (n : Node)
| TypeIntrospection (n : Node) (typeref : TypeRef)
| FunctionCall (n : Node) (typeref : TypeRef)
| OperatorCall (n : Node) (typeref : TypeRef)
| BaseConstant (n : Node) (typeref : TypeRef)
| ConstantSet (n : Node) (typeref : TypeRef)
| Parameter_ (n : Node) (typeref : TypeRef)
| TypeCheckOp (n : Node) (left right : Base)
| TypeRefNode (t : TypeRef)
| TypeCast (n : Node) (to_type : TypeRef)
| Stmt (n : Node) (result : Base)
| InsertStmt (n : Node) (result : Base)
    (** ``on_conflict``, and inside it ``else_ir`` *)
    (on_conflict : option (option Base))
| ConfigInsert (n : Node) (expr : Base)
| ConfigSet (n : Node) (expr : Base)
| ConfigReset (n : Node)
| SliceIndirection (n : Node) (expr : Base) (start stop : option Base)
| IndexIndirection (n : Node) (expr index : Base)
| Array (n : Node) (typeref : option TypeRef) (elements : list Base)
| Tuple (n : Node) (named : bool) (elements : list (string * Base)).

(** The node data of an IR node; ``None`` has none. *)
Definition node_of (ir : Base) : option Node :=
  match ir with
  | NoneNode => None
  | TypeRefNode t => Some (typeref_node t)
  | Unregistered n | Statement n _ | Set_ n | EmptySet n
  | TypeIntrospection n _ | FunctionCall n _ | OperatorCall n _
  | BaseConstant n _ | ConstantSet n _ | Parameter_ n _ | TypeCheckOp n _ _
  | TypeCast n _ | Stmt n _ | InsertStmt n _ _ | ConfigInsert n _
  | ConfigSet n _ | ConfigReset n | SliceIndirection n _ _ _
  | IndexIndirection n _ _ | Array n _ _ | Tuple n _ _ => Some n
  end.

(** ``isinstance(ir, irast.Set)`` *)
Definition is_Set (ir : Base) : bool :=
  match ir with
  | Set_ _ | EmptySet _ => true
  | _ => false
  end.

(** ``isinstance(ir, irast.EmptySet)`` *)
Definition is_EmptySet (ir : Base) : bool :=
  match ir with
  | EmptySet _ => true
  | _ => false
  end.

(** Modelled from the spec: [PathId] ([edb/ir/pathid.py] is not among the
    sources).  Spec 3.3: a symbolic identity of a set's result stream with
    structural equality; of it the inference engine reads the name hint of
    the target and the namespace. *)
Record PathId := mkPathId {
  target : Ty;
  target_name_hint : QualName;
  namespace : list string;
}.

(** Modelled from the spec: [PathId.from_type] ([edb/ir/pathid.py] is not
    among the sources).  Spec 4.2: the path id of an amended empty set is
    re-derived from the new type under the given type name, in the given
    namespace. *)
Definition PathId_from_type (t : Ty) (typename : QualName)
    (namespace : list string) : PathId :=
  mkPathId t typename namespace.

End irast.

(** ** [edb/edgeql/compiler/inference/types.py] *)

Module Inference.
Import Py irast.

(** The schema and the schema-level helpers inference calls; their modules
    ([edb/schema/types.py], [edb/schema/utils.py], [edb/ir/typeutils.py], ...)
    are not among the sources, so they are parameters of the development.
    A helper that takes ``env.schema`` and returns a new schema returns it
    here too. *)
Class SchemaOps (Schema : Type) := {
  (** [Type.find_common_implicitly_castable_type] *)
  find_common_implicitly_castable_type :
    Ty -> Ty -> Schema -> Schema * option Ty;
  (** [s_utils.get_class_nearest_common_ancestors] *)
  get_class_nearest_common_ancestors : Schema -> list Ty -> list Ty;
  (** [irtyputils.ir_typeref_to_type] *)
  ir_typeref_to_type : Schema -> TypeRef -> Schema * Ty;
  (** [irtyputils.is_scalar], [is_object], [is_array], [is_tuple] *)
  typeref_is_scalar : TypeRef -> bool;
  typeref_is_object : TypeRef -> bool;
  typeref_is_array : TypeRef -> bool;
  typeref_is_tuple : TypeRef -> bool;
  (** ``schema.get(name)`` and ``schema.get_by_id(id)`` followed by the
      ``isinstance(t, s_types.Type)`` assertion *)
  schema_get : Schema -> string -> Exn + Ty;
  schema_get_by_id : Schema -> nat -> Exn + Ty;
  (** [Type.issubclass], [Type.implicitly_castable_to],
      [Type.is_polymorphic] *)
  issubclass : Ty -> Schema -> Ty -> bool;
  implicitly_castable_to : Ty -> Ty -> Schema -> bool;
  is_polymorphic : Ty -> Schema -> bool;
  get_displayname : Ty -> Schema -> string;
  get_verbosename : Ty -> Schema -> string;
  (** [s_types.Collection.get_class]: whether the class of that name is a
      subclass of [s_types.Tuple] *)
  Collection_get_class : string -> Exn + bool;
  (** ``coll.from_subtypes(schema, subtypes)`` for the collection class of
      that name *)
  Collection_from_subtypes :
    string -> Schema -> list Ty -> Exn + (Schema * Ty);
  (** The schema that [Array.create] and [Tuple.create] return along with
      the collection type *)
  Array_create_schema : Schema -> Ty -> Schema;
  Tuple_create_schema : Schema -> bool -> list (string * Ty) -> Schema;
}.

Section Engine.
Context {Schema : Type} `{SchemaOps Schema}.

(** [context.Environment], as far as inference uses it. *)
Record Environment := mkEnvironment {
  schema : Schema;
  inferred_types : gmap Key Ty;
  set_types : gmap Key (option Ty);
}.

(** The mutable state inference runs on: the environment, and the
    ``path_id`` attribute of the [Set] nodes, by node. *)
Record State := mkState {
  env : Environment;
  path_id : gmap Key PathId;
}.

Definition M := Py.M State.

(** *** Primitive accesses *)

Definition get_env : M Environment := fun st => Ok (env st) st.

(** ``env.schema`` *)
Definition get_schema : M Schema :=
  (e <- get_env;; ret (schema e))%py.
(** ``env.schema = s`` *)
Definition set_schema (s : Schema) : M unit :=
  fun st =>
    let e := env st in
    Ok tt
      (mkState (mkEnvironment s (inferred_types e) (set_types e))
         (path_id st)).
(** ``env.inferred_types[ir] = t`` *)
Definition set_inferred_type (k : Key) (t : Ty) : M unit :=
  fun st =>
    let e := env st in
    Ok tt
      (mkState
         (mkEnvironment (schema e) (<[k := t]> (inferred_types e))
            (set_types e))
         (path_id st)).
(** ``env.schema, t = f(env.schema)`` *)
Definition with_schema {A} (f : Schema -> Schema * A) : M A :=
  (s <- get_schema;;
   let '(s', a) := f s in
   set_schema s';;; ret a)%py.
(** A call that can raise. *)
Definition lift {A} (r : Exn + A) : M A :=
  match r with
  | inl e => raise e
  | inr a => ret a
  end.
(** ``env.schema.get(name)`` *)
Definition env_schema_get (n : string) : M Ty :=
  (s <- get_schema;; lift (schema_get s n))%py.
(** ``env.set_types[ir]`` *)
Definition set_types_getitem (k : Key) : M (option Ty) :=
  (e <- get_env;;
   match set_types e !! k with
   | Some v => ret v
   | None => raise KeyError
   end)%py.
(** ``s_pseudo.PseudoType.get(env.schema, name)`` *)
Definition PseudoType_get (n : string) : Ty := s_types.PseudoType n.
(** ``ir.context`` *)
Definition context_of (ir : Base) : option ParserContext :=
  n ← node_of ir; context n.

(** [amend_empty_set_type], lines 43-54. *)
Definition amend_empty_set_type (es : Node) (t : Ty) : M unit :=
  fun st =>
    let e := env st in
    let e' :=
      mkEnvironment (schema e) (inferred_types e)
        (<[key es := Some t]> (set_types e)) in
    match path_id st !! key es with
    | None => Raise (AttributeError "path_id")
    | Some pid =>
        let alias := name (target_name_hint pid) in
        let typename := mkQualName "__derived__" alias in
        Ok tt
          (mkState e'
             (<[key es :=
                  PathId_from_type t typename (namespace pid)]>
                (path_id st)))
    end.

(** [infer_type], lines 542-563, around the rule [_infer_type] selects
    for the node.  Every [Ty] is a schema object, so the ``isinstance``
    test of lines 549-554 passes. *)
Definition infer_type_memo (n : Node) (_infer_type : M (option Ty))
    : M Ty :=
  (e <- get_env;;
   match inferred_types e !! key n with
   | Some result => ret result
   | None =>
       result <- _infer_type;;
       match result with
       | None =>
           raise (QueryError "could not determine expression type"
                    (context n))
       | Some t => set_inferred_type (key n) t;;; ret t
       end
   end)%py.

(** ``d[k] = v`` on a dictionary kept in insertion order. *)
Fixpoint dict_set {V} (k : string) (v : V) (d : list (string * V))
    : list (string * V) :=
  match d with
  | [] => [(k, v)]
  | (k', v') :: d' =>
      if decide (k = k') then (k, v) :: d'
      else (k', v') :: dict_set k v d'
  end.

(** Truth value of an ``Optional[str]``. *)
Definition str_truthy (o : option string) : bool :=
  match o with
  | Some s => negb (bool_decide (s = ""))
  | None => false
  end.

(** ``[f(x) for x in xs]`` *)
Fixpoint map_m {A B} (f : A -> M B) (xs : list A) : M (list B) :=
  match xs with
  | [] => ret []
  | x :: xs' => (y <- f x;; ys <- map_m f xs';; ret (y :: ys))%py
  end.

(** *** Type references *)

Section TypeRefRules.
Variable infer_type : TypeRef -> M Ty.

(** ``{not_none(st.element_name): infer_type(st, env) for st in
    ir.subtypes}``; [not_none] raises on ``None``. *)
Fixpoint named_eltypes (subtypes : list TypeRef)
    (eltypes : list (string * Ty)) : M (list (string * Ty)) :=
  match subtypes with
  | [] => ret eltypes
  | st :: rest =>
      match element_name st with
      | None => raise (TypeError "not_none")
      | Some n =>
          (t <- infer_type st;;
           named_eltypes rest (dict_set n t eltypes))%py
      end
  end.

(** ``{str(i): infer_type(st, env) for i, st in
    enumerate(ir.subtypes)}`` *)
Fixpoint indexed_eltypes (i : nat) (subtypes : list TypeRef)
    (eltypes : list (string * Ty)) : M (list (string * Ty)) :=
  match subtypes with
  | [] => ret eltypes
  | st :: rest =>
      (t <- infer_type st;;
       indexed_eltypes (S i) rest (dict_set (pretty i) t eltypes))%py
  end.

(** [__infer_typeref], lines 288-319. *)
Definition __infer_typeref (id : nat) (collection : option string)
    (subtypes : list TypeRef) : M (option Ty) :=
  match collection with
  | Some c =>
      if bool_decide (c = "") then
        (s <- get_schema;;
         t <- lift (schema_get_by_id s id);;
         ret (Some t))%py
      else
        (is_tuple <- lift (Collection_get_class c);;
         if is_tuple : bool then
           let named :=
             existsb (fun t => str_truthy (element_name t)) subtypes in
           eltypes <- (if named then named_eltypes subtypes []
                       else indexed_eltypes 0 subtypes []);;
           s <- get_schema;;
           set_schema (Tuple_create_schema s named eltypes);;;
           ret (Some (s_types.Tuple named eltypes))
         else
           s <- get_schema;;
           ts <- map_m infer_type subtypes;;
           r <- lift (Collection_from_subtypes c s ts);;
           set_schema (fst r);;;
           ret (Some (snd r)))%py
  | None =>
      (s <- get_schema;;
       t <- lift (schema_get_by_id s id);;
       ret (Some t))%py
  end.
End TypeRefRules.

(** [infer_type] on a [TypeRef], [AnyTypeRef] or [AnyTupleRef] node. *)
Fixpoint infer_typeref (ir : TypeRef) : M Ty :=
  match ir with
  | mkTypeRef cls n id _ collection subtypes =>
      infer_type_memo n
        match cls with
        | AnyTypeRef => ret (Some (PseudoType_get "anytype"))
        | AnyTupleRef => ret (Some (PseudoType_get "anytuple"))
        | PlainTypeRef =>
            __infer_typeref infer_typeref id collection subtypes
        end
  end.

(** *** The rules on expression nodes *)

(** State of the first loop of [_infer_common_type]. *)
Record Partition := mkPartition {
  types : list Ty;
  empties : list nat;
  seen_object : bool;
  seen_scalar : bool;
  seen_coll : bool;
}.

Definition add_empty (i : nat) (p : Partition) : Partition :=
  mkPartition (types p) (empties p ++ [i])
    (seen_object p) (seen_scalar p) (seen_coll p).

Definition add_type (t : Ty) (p : Partition) : Partition :=
  if s_types.is_collection t then
    mkPartition (types p ++ [t]) (empties p)
      (seen_object p) (seen_scalar p) true
  else if s_types.is_scalar t then
    mkPartition (types p ++ [t]) (empties p)
      (seen_object p) true (seen_coll p)
  else
    mkPartition (types p ++ [t]) (empties p)
      true (seen_scalar p) (seen_coll p).

(** ``seen_coll + seen_scalar + seen_object`` *)
Definition seen_count (p : Partition) : nat :=
  Nat.b2n (seen_coll p) + Nat.b2n (seen_scalar p)
  + Nat.b2n (seen_object p).

Section Rules.
Variable infer_type : Base -> M Ty.

(** ``isinstance(arg, irast.EmptySet) and env.set_types[arg] is None`` *)
Definition is_untyped_empty (arg : Base) : M bool :=
  match arg with
  | EmptySet n =>
      (t <- set_types_getitem (key n);;
       ret (bool_decide (t = None)))%py
  | _ => ret false
  end.

(** The loop of lines 73-85, from index [i] on. *)
Fixpoint collect_types (i : nat) (irs : list Base) (p : Partition)
    : M Partition :=
  match irs with
  | [] => ret p
  | arg :: rest =>
      (untyped <- is_untyped_empty arg;;
       if untyped : bool then collect_types (S i) rest (add_empty i p)
       else
         t <- infer_type arg;;
         collect_types (S i) rest (add_type t p))%py
  end.

(** The ``while True`` loop of lines 101-112. *)
Fixpoint fold_common_type (common_type : Ty) (it : list Ty)
    : M (option Ty) :=
  match it with
  | [] => ret (Some common_type)
  | next_type :: it' =>
      (common <- with_schema (fun s =>
         find_common_implicitly_castable_type common_type next_type s);;
       match common with
       | None => ret None
       | Some c => fold_common_type c it'
       end)%py
  end.

(** The loop of lines 124-126. *)
Definition amend_empties (irs : list Base) (empties : list nat)
    (common_type : Ty) : M unit :=
  for_each empties (fun i =>
    match irs !! i with
    | None => raise IndexError
    | Some ir =>
        match node_of ir with
        | Some es => amend_empty_set_type es common_type
        | None => raise (AttributeError "path_id")
        end
    end).

(** [_infer_common_type], lines 57-128.  On the empty list the
    ``context=irs[0].context`` argument of the first ``raise`` is
    evaluated before [QueryError] is built. *)
Definition _infer_common_type (irs : list Base) : M (option Ty) :=
  match irs with
  | [] => raise IndexError
  | first :: _ =>
      (p <- collect_types 0 irs (mkPartition [] [] false false false);;
       if decide (1 < seen_count p) then
         raise (QueryError "cannot determine common type"
                  (context_of first))
       else
         match types p with
         | [] =>
             raise (QueryError
                      "cannot determine common type of an empty set"
                      (context_of first))
         | t0 :: it =>
             common_type <-
               (if seen_scalar p || seen_coll p
                then fold_common_type t0 it
                else
                  s <- get_schema;;
                  ret (head (get_class_nearest_common_ancestors s
                               (types p))));;
             match common_type with
             | None => ret None
             | Some c =>
                 amend_empties irs (empties p) c;;;
                 ret (Some c)
             end
         end)%py
  end.

(** [__infer_type_introspection], lines 164-183. *)
Definition __infer_type_introspection (n : Node) (typeref : TypeRef)
    : M (option Ty) :=
  if typeref_is_scalar typeref then
    (t <- env_schema_get "schema::ScalarType";; ret (Some t))%py
  else if typeref_is_object typeref then
    (t <- env_schema_get "schema::ObjectType";; ret (Some t))%py
  else if typeref_is_array typeref then
    (t <- env_schema_get "schema::Array";; ret (Some t))%py
  else if typeref_is_tuple typeref then
    (t <- env_schema_get "schema::Tuple";; ret (Some t))%py
  else
    raise (QueryError "unexpected type in INTROSPECT" (context n)).

(** [__infer_func_call], [__infer_oper_call], [__infer_const],
    [__infer_const_set], [__infer_param], lines 186-228. *)
Definition __infer_from_typeref (typeref : TypeRef) : M (option Ty) :=
  (t <- with_schema (fun s => ir_typeref_to_type s typeref);;
   ret (Some t))%py.

(** [_infer_binop_args], lines 231-260. *)
Definition _infer_binop_args (left right : Base) : M (Ty * Ty) :=
  (inferred_left_type <-
     (if is_EmptySet left then ret None
      else t <- infer_type left;; ret (Some t));;
   inferred_right_type <-
     (if is_EmptySet right then ret None
      else t <- infer_type right;; ret (Some t));;
   match inferred_right_type with
   | Some r =>
       match left with
       | EmptySet es => amend_empty_set_type es r
       | _ => ret tt
       end;;;
       ret (r, r)
   | None =>
       match inferred_left_type with
       | Some l =>
           match right with
           | EmptySet es => amend_empty_set_type es l
           | _ => ret tt
           end;;;
           ret (l, l)
       | None =>
           raise (QueryError "cannot determine the type of an empty set"
                    (context_of left))
       end
   end)%py.

(** [__infer_typecheckop], lines 263-269. *)
Definition __infer_typecheckop (left right : Base) : M (option Ty) :=
  (_ <- _infer_binop_args left right;;
   t <- env_schema_get "std::bool";;
   ret (Some t))%py.

(** [__infer_insert_stmt], lines 347-359, from the list [irs] built
    in lines 352-354 on. *)
Definition __infer_insert_stmt (n : Node) (irs : list Base)
    : M (option Ty) :=
  (typ <- _infer_common_type irs;;
   match typ with
   | None =>
       raise (QueryError "could not determine INSERT type" (context n))
   | Some t => ret (Some t)
   end)%py.

(** The ``for index in [ir.start, ir.stop]`` loop of [__infer_slice]. *)
Definition check_slice_index (base_name : string) (int_t : Ty)
    (index : option Base) : M unit :=
  match index with
  | None => ret tt
  | Some ix =>
      (index_type <- infer_type ix;;
       s <- get_schema;;
       if negb (implicitly_castable_to index_type int_t s) then
         raise (QueryError
                  ("cannot slice " +:+ base_name +:+ " by "
                   +:+ get_displayname index_type s +:+ ", "
                   +:+ get_displayname int_t s +:+ " was expected")
                  (context_of ix))
       else ret tt)%py
  end.

(** [__infer_slice], lines 387-426. *)
Definition __infer_slice (expr : Base) (start stop : option Base)
    : M (option Ty) :=
  (node_type <- infer_type expr;;
   str_t <- env_schema_get "std::str";;
   int_t <- env_schema_get "std::int64";;
   json_t <- env_schema_get "std::json";;
   bytes_t <- env_schema_get "std::bytes";;
   s <- get_schema;;
   base_name <-
     (if issubclass node_type s str_t then ret "string"
      else if issubclass node_type s json_t then ret "json array"
      else if issubclass node_type s bytes_t then ret "bytes"
      else
        match node_type with
        | s_types.Array _ => ret "array"
        | _ =>
            if s_types.is_any node_type then ret "anytype"
            else
              raise (QueryError
                       (get_verbosename node_type s
                        +:+ " cannot be sliced")
                       (context_of expr))
        end);;
   check_slice_index base_name int_t start;;;
   check_slice_index base_name int_t stop;;;
   ret (Some node_type))%py.

(** The message of the ``cannot index X by Y`` errors. *)
Definition cannot_index (what : string) (index_type : Ty)
    (expected : list Ty) (s : Schema) : string :=
  "cannot index " +:+ what +:+ " by "
  +:+ get_displayname index_type s +:+ ", "
  +:+ String.concat " or " ((fun t => get_displayname t s) <$> expected)
  +:+ " was expected".

(** [__infer_index], lines 429-504. *)
Definition __infer_index (expr index : Base) : M (option Ty) :=
  (node_type <- infer_type expr;;
   index_type <- infer_type index;;
   str_t <- env_schema_get "std::str";;
   bytes_t <- env_schema_get "std::bytes";;
   int_t <- env_schema_get "std::int64";;
   json_t <- env_schema_get "std::json";;
   s <- get_schema;;
   if issubclass node_type s str_t then
     if negb (implicitly_castable_to index_type int_t s) then
       raise (QueryError (cannot_index "string" index_type [int_t] s)
                (context_of index))
     else ret (Some str_t)
   else if issubclass node_type s bytes_t then
     if negb (implicitly_castable_to index_type int_t s) then
       raise (QueryError (cannot_index "bytes" index_type [int_t] s)
                (context_of index))
     else ret (Some bytes_t)
   else if issubclass node_type s json_t then
     if negb (implicitly_castable_to index_type int_t s
              || implicitly_castable_to index_type str_t s) then
       raise (QueryError
                (cannot_index "json" index_type [int_t; str_t] s)
                (context_of index))
     else ret (Some json_t)
   else
     match node_type with
     | s_types.Array element_type =>
         if negb (implicitly_castable_to index_type int_t s) then
           raise (QueryError
                    (cannot_index "array" index_type [int_t] s)
                    (context_of index))
         else ret (Some element_type)
     | _ =>
         if s_types.is_any node_type
            || (s_types.is_scalar node_type
                && s_types.is_anyscalar node_type)
               && (implicitly_castable_to index_type int_t s
                   || implicitly_castable_to index_type str_t s)
         then ret (Some (PseudoType_get "anytype"))
         else
           raise (QueryError
                    ("index indirection cannot be applied to "
                     +:+ get_verbosename node_type s)
                    (context_of expr))
     end)%py.

(** [__infer_array], lines 507-528. *)
Definition __infer_array (n : Node) (typeref : option TypeRef)
    (elements : list Base) : M (option Ty) :=
  match typeref with
  | Some tr => __infer_from_typeref tr
  | None =>
      (element_type <-
         match elements with
         | [] => ret (PseudoType_get "anytype")
         | _ :: _ =>
             et <- _infer_common_type elements;;
             match et with
             | None =>
                 raise (QueryError "could not determine array type"
                          (context n))
             | Some t => ret t
             end
         end;;
       s <- get_schema;;
       set_schema (Array_create_schema s element_type);;;
       ret (Some (s_types.Array element_type)))%py
  end.

(** ``{el.name: infer_type(el.val, env) for el in ir.elements}`` *)
Fixpoint tuple_element_types (elements : list (string * Base))
    (element_types : list (string * Ty)) : M (list (string * Ty)) :=
  match elements with
  | [] => ret element_types
  | el :: rest =>
      (t <- infer_type (snd el);;
       tuple_element_types rest (dict_set (fst el) t element_types))%py
  end.

(** [__infer_tuple], lines 531-539. *)
Definition __infer_tuple (named : bool)
    (elements : list (string * Base)) : M (option Ty) :=
  (element_types <- tuple_element_types elements [];;
   s <- get_schema;;
   set_schema (Tuple_create_schema s named element_types);;;
   ret (Some (s_types.Tuple named element_types)))%py.

(** [__infer_typecast], lines 322-336. *)
Definition __infer_typecast (n : Node) (to_type : TypeRef)
    : M (option Ty) :=
  (stype <- infer_typeref to_type;;
   s <- get_schema;;
   if is_polymorphic stype s then
     raise (QueryError
              ("cannot cast into generic type "
               +:+ repr (get_displayname stype s))
              (context n))
   else ret (Some stype))%py.

(** A rule that returns the type of a child node: [__infer_statement],
    [__infer_stmt], [__infer_config_insert], [__infer_config_set]. *)
Definition __infer_child (child : Base) : M (option Ty) :=
  (t <- infer_type child;; ret (Some t))%py.

(** [__infer_set], lines 156-161. *)
Definition __infer_set (n : Node) : M (option Ty) :=
  set_types_getitem (key n).
End Rules.

(** [infer_type], lines 542-563: look the node up in
    ``env.inferred_types``, otherwise run the rule of its class and
    record the result. *)
Fixpoint infer_type (ir : Base) : M Ty :=
  match ir with
  | NoneNode => raise (ValueError "invalid infer_type(None, env) call")
  | Unregistered n =>
      infer_type_memo n (raise (ValueError "infer_type: cannot handle"))
  | Statement n expr => infer_type_memo n (__infer_child infer_type expr)
  | Set_ n | EmptySet n => infer_type_memo n (__infer_set n)
  | TypeIntrospection n typeref =>
      infer_type_memo n (__infer_type_introspection n typeref)
  | FunctionCall n typeref | OperatorCall n typeref
  | BaseConstant n typeref | ConstantSet n typeref
  | Parameter_ n typeref =>
      infer_type_memo n (__infer_from_typeref typeref)
  | TypeCheckOp n left_ right_ =>
      infer_type_memo n (__infer_typecheckop infer_type left_ right_)
  | TypeRefNode t => infer_typeref t
  | TypeCast n to_type => infer_type_memo n (__infer_typecast n to_type)
  | Stmt n result => infer_type_memo n (__infer_child infer_type result)
  | InsertStmt n result on_conflict =>
      infer_type_memo n
        match on_conflict with
        | Some (Some else_ir) =>
            (* ``ir.on_conflict and ir.on_conflict.else_ir`` *)
            __infer_insert_stmt infer_type n [result; else_ir]
        | _ => __infer_insert_stmt infer_type n [result]
        end
  | ConfigInsert n expr | ConfigSet n expr =>
      infer_type_memo n (__infer_child infer_type expr)
  | ConfigReset n => infer_type_memo n (ret (Some (PseudoType_get "anytype")))
  | SliceIndirection n expr start stop =>
      infer_type_memo n (__infer_slice infer_type expr start stop)
  | IndexIndirection n expr index =>
      infer_type_memo n (__infer_index infer_type expr index)
  | Array n typeref elements =>
      infer_type_memo n (__infer_array infer_type n typeref elements)
  | Tuple n named elements =>
      infer_type_memo n (__infer_tuple infer_type named elements)
  end.

End Engine.

(** The sub-nodes [infer_type] visits from a node. *)
Definition children (ir : Base) : list Base :=
  match ir with
  | Statement _ e | Stmt _ e | ConfigInsert _ e | ConfigSet _ e => [e]
  | TypeCheckOp _ l r => [l; r]
  | InsertStmt _ r (Some (Some e)) => [r; e]
  | InsertStmt _ r _ => [r]
  | SliceIndirection _ e a b => e :: option_list a ++ option_list b
  | IndexIndirection _ e i => [e; i]
  | Array _ _ els => els
  | Tuple _ _ els => els.*2
  | _ => []
  end.

(** *** Relations between states that the statements use *)

Section Relations.
Context {Schema : Type}.
Implicit Types st : State (Schema:=Schema).

(** [st'] is a later state than [st]: a set that had a type recorded
    still has one, and every path id is still there with the name of its
    name hint and its namespace unchanged. *)
Definition later st st' : Prop :=
  (forall k t,
      set_types (env st) !! k = Some (Some t) ->
      exists t', set_types (env st') !! k = Some (Some t'))
  /\ (forall k p,
         path_id st !! k = Some p ->
         exists p',
           path_id st' !! k = Some p'
           /\ name (target_name_hint p') = name (target_name_hint p)
           /\ namespace p' = namespace p)
  /\ (forall k, is_Some (path_id st' !! k) -> is_Some (path_id st !! k)).

(** Position [j] of [irs] held an [EmptySet] with no type recorded at
    some state between [st] and [st']. *)
Definition examined_untyped (irs : list Base) st st' (j : nat) : Prop :=
  exists n st_j,
    irs !! j = Some (EmptySet n)
    /\ later st st_j /\ later st_j st'
    /\ set_types (env st_j) !! key n = Some None.

(** Two states with the same environment whose nodes may carry different
    path ids. *)
Definition same_env st1 st2 : Prop :=
  env st1 = env st2 /\ dom (path_id st1) = dom (path_id st2).

(** Two runs with the same outcome: the same value in states with the same
    environment, or the same exception. *)
Definition same_outcome {A} (r1 r2 : Res (State (Schema:=Schema)) A)
    : Prop :=
  match r1, r2 with
  | Ok a1 st1, Ok a2 st2 => a1 = a2 /\ same_env st1 st2
  | Raise e1, Raise e2 => e1 = e2
  | _, _ => False
  end.

(** The path id of node [k] has been re-derived from [p] in module
    ``__derived__`` for type [t]. *)
Definition rederived (t : Ty) (p : PathId) st (k : Key) : Prop :=
  exists p',
    path_id st !! k = Some p'
    /\ target p' = t
    /\ module (target_name_hint p') = "__derived__"
    /\ name (target_name_hint p') = name (target_name_hint p)
    /\ namespace p' = namespace p.

(** A computation that leaves ``set_types[k]`` alone when it returns. *)
Definition keeps_set_type (k : Key) (A : Type) (m : M (Schema:=Schema) A)
    : Prop :=
  forall st a st',
    m st = Ok a st' -> set_types (env st') !! k = set_types (env st) !! k.
End Relations.

(** *** The common type and the empty sets of an expression *)

Section CommonType.
Context {Schema : Type} `{SchemaOps Schema}.

(** The left fold of [find_common_implicitly_castable_type] over the
    types, from the schema [s] on: the common type, [None] as soon as two
    types have none, and the schema the last step returned. *)
Fixpoint left_fold_common_type (s : Schema) (common_type : Ty)
    (it : list Ty) : Schema * option Ty :=
  match it with
  | [] => (s, Some common_type)
  | next_type :: it' =>
      let '(s', common) :=
        find_common_implicitly_castable_type common_type next_type s in
      match common with
      | None => (s', None)
      | Some c => left_fold_common_type s' c it'
      end
  end.

(** The common type of the types the partition loop has collected: for
    scalars, and for collections, the left fold of
    [find_common_implicitly_castable_type] over them; for object types the
    first of their nearest common ancestors. *)
Definition common_type_of (s : Schema) (p : Partition) : option Ty :=
  match types p with
  | [] => None
  | t0 :: it =>
      if seen_scalar p || seen_coll p
      then (left_fold_common_type s t0 it).2
      else head (get_class_nearest_common_ancestors s (types p))
  end.
End CommonType.

(** The [EmptySet] nodes in the tree of sub-nodes [infer_type] visits from
    a node, the node itself included, by their keys. *)
Fixpoint empty_sets_in (ir : Base) : list Key :=
  match ir with
  | EmptySet n => [key n]
  | Statement _ e | Stmt _ e | ConfigInsert _ e | ConfigSet _ e =>
      empty_sets_in e
  | TypeCheckOp _ l r => empty_sets_in l ++ empty_sets_in r
  | InsertStmt _ r (Some (Some e)) => empty_sets_in r ++ empty_sets_in e
  | InsertStmt _ r _ => empty_sets_in r
  | SliceIndirection _ e a b =>
      empty_sets_in e
      ++ from_option empty_sets_in [] a ++ from_option empty_sets_in [] b
  | IndexIndirection _ e i => empty_sets_in e ++ empty_sets_in i
  | Array _ _ els => mjoin (empty_sets_in <$> els)
  | Tuple _ _ els => mjoin ((fun el => empty_sets_in el.2) <$> els)
  | _ => []
  end.

(** *** A schema for the examples

    The scalars ``std::int32``, ``std::int64``, ``std::str``, ``std::bytes``
    and ``std::json``, with the implicit cast from ``int32`` to ``int64``,
    the array of ``int32`` and the object type ``std::BaseObject``, under the
    ids 1 to 7; the schema itself carries no data. *)

Definition scalar_name (t : Ty) : option string :=
  match t with
  | s_types.ScalarType n => Some n
  | _ => None
  end.

Definition example_castable (a b : Ty) : bool :=
  match scalar_name a, scalar_name b with
  | Some x, Some y =>
      bool_decide (x = y)
      || bool_decide (x = "std::int32") && bool_decide (y = "std::int64")
  | _, _ => false
  end.

Definition example_typeref_type (t : TypeRef) : Ty :=
  match typeref_id t with
  | 1 => s_types.ScalarType "std::int32"
  | 2 => s_types.ScalarType "std::int64"
  | 3 => s_types.ScalarType "std::str"
  | 4 => s_types.ScalarType "std::bytes"
  | 5 => s_types.ScalarType "std::json"
  | 6 => s_types.Array (s_types.ScalarType "std::int32")
  | _ => s_types.ObjectType "std::BaseObject"
  end.

(** ``schema.get_by_id(id)`` *)
Definition example_get_by_id (id : nat) : Exn + Ty :=
  match id with
  | 1 => inr (s_types.ScalarType "std::int32")
  | 2 => inr (s_types.ScalarType "std::int64")
  | 3 => inr (s_types.ScalarType "std::str")
  | 4 => inr (s_types.ScalarType "std::bytes")
  | 5 => inr (s_types.ScalarType "std::json")
  | 6 => inr (s_types.Array (s_types.ScalarType "std::int32"))
  | 7 => inr (s_types.ObjectType "std::BaseObject")
  | _ => inl LookupError
  end.

(** The polymorphic types: the pseudo-types, the abstract scalar
    ``std::anyscalar``, and the collections of a polymorphic type. *)
Fixpoint example_is_polymorphic (t : Ty) : bool :=
  match t with
  | s_types.PseudoType _ => true
  | s_types.ScalarType n => bool_decide (n = "std::anyscalar")
  | s_types.ObjectType _ => false
  | s_types.Array element_type => example_is_polymorphic element_type
  | s_types.Tuple _ element_types =>
      existsb (fun el => example_is_polymorphic el.2) element_types
  end.

(** The display name of a scalar, object or pseudo-type is its name. *)
Definition example_displayname (t : Ty) : string :=
  match t with
  | s_types.ScalarType n | s_types.ObjectType n | s_types.PseudoType n => n
  | _ => ""
  end.

Global Instance example_schema : SchemaOps unit := {|
  find_common_implicitly_castable_type a b s :=
    (s, if example_castable a b then Some b
        else if example_castable b a then Some a
        else None);
  get_class_nearest_common_ancestors _ ts := take 1 ts;
  ir_typeref_to_type s t := (s, example_typeref_type t);
  typeref_is_scalar t := bool_decide (typeref_id t ≤ 5);
  typeref_is_object t := bool_decide (6 < typeref_id t);
  typeref_is_array t := bool_decide (typeref_id t = 6);
  typeref_is_tuple _ := false;
  schema_get _ n :=
    if String.prefix "std::" n then inr (s_types.ScalarType n)
    else inr (s_types.ObjectType n);
  schema_get_by_id _ id := example_get_by_id id;
  issubclass a _ b :=
    match scalar_name a, scalar_name b with
    | Some x, Some y => bool_decide (x = y)
    | _, _ => false
    end;
  implicitly_castable_to a b _ := example_castable a b;
  is_polymorphic t _ := example_is_polymorphic t;
  get_displayname t _ := example_displayname t;
  get_verbosename t _ := default "" (scalar_name t);
  Collection_get_class c := inr (bool_decide (c = "tuple"));
  Collection_from_subtypes _ _ _ := inl LookupError;
  Array_create_schema s _ := s;
  Tuple_create_schema s _ _ := s;
|}.

(** Nodes of the examples: keys 1 to 5, no parser context. *)
Definition example_node (k : Key) : Node := mkNode k None.
Definition example_typeref (k id : nat) : TypeRef :=
  mkTypeRef PlainTypeRef (example_node k) id None None [].
Definition example_path_id : PathId :=
  mkPathId (s_types.PseudoType "anytype")
    (mkQualName "default" "expr") ["ns"].

(** An environment where node 1 is an [EmptySet] with no type yet, node 2
    an [EmptySet] already typed as ``int32``, and node 3 a set of type
    ``json``. *)
Definition example_state : State (Schema:=unit) :=
  mkState
    (mkEnvironment tt ∅
       (<[1 := None]>
          (<[2 := Some (s_types.ScalarType "std::int32")]>
             (<[3 := Some (s_types.ScalarType "std::json")]> ∅))))
    (<[1 := example_path_id]> (<[2 := example_path_id]> ∅)).

Abbreviation int32_t := (s_types.ScalarType "std::int32").
Abbreviation int64_t := (s_types.ScalarType "std::int64").
Abbreviation json_t := (s_types.ScalarType "std::json").

(** The integer constant ``<int64>1`` as node 4 and the string constant
    ``'k'`` as node 5. *)
Definition example_int64 : Base :=
  BaseConstant (example_node 4) (example_typeref 10 2).
Definition example_str : Base :=
  BaseConstant (example_node 5) (example_typeref 11 3).

(** The same environment once the path ids of nodes 1 and 2 have been
    re-derived by an earlier run. *)
Definition example_state_rederived : State (Schema:=unit) :=
  mkState (env example_state)
    (<[1 := PathId_from_type (s_types.ScalarType "std::str")
              (mkQualName "__derived__" "expr") ["ns"]]>
       (<[2 := example_path_id]> ∅)).

(** The three kinds of types the partition loop of [_infer_common_type]
    tells apart, lines 79-84. *)
Inductive Kind := KCollection | KScalar | KObject.

Global Instance Kind_eq_dec : EqDecision Kind.
Proof. solve_decision. Defined.

Definition kind_of (t : Ty) : Kind :=
  if s_types.is_collection t then KCollection
  else if s_types.is_scalar t then KScalar
  else KObject.

Section Settled.
Context {Schema : Type}.

(** The type of [ir] is memoized as [t], and [ir] is not an [EmptySet]
    that still lacks a type. *)
Definition settled (st : State (Schema:=Schema)) (ir : Base) (t : Ty)
    : Prop :=
  (exists n, node_of ir = Some n
             /\ inferred_types (env st) !! key n = Some t)
  /\ (forall n, ir = EmptySet n ->
        exists t', set_types (env st) !! key n = Some (Some t')).
End Settled.

(** The type reference ``anytype``, as node 8. *)
Definition example_anytype_ref : TypeRef :=
  mkTypeRef AnyTypeRef (example_node 8) 0 None None [].

(** An environment where the sets 3 (``json``), 7 (``std::BaseObject``,
    an object type), 20 (``int32``) and 21 (``int64``) have their types
    memoized. *)
Definition example_memoized_types : gmap Key Ty :=
  <[3 := s_types.ScalarType "std::json"]>
    (<[7 := s_types.ObjectType "std::BaseObject"]>
       (<[20 := s_types.ScalarType "std::int32"]>
          (<[21 := s_types.ScalarType "std::int64"]> ∅))).

Definition example_state_memoized : State (Schema:=unit) :=
  mkState
    (mkEnvironment tt example_memoized_types (Some <$> example_memoized_types))
    ∅.

End Inference.

(** ** [edb/server/compiler/errormech.py] *)

Module ErrorMech.
Import Py.

(** Modelled from the spec: the SQLSTATE codes of [edb/server/pgcon/errors.py],
    which is not among the sources.  Spec 6.2 lists 23502, 23505, 40001,
    40P01, 22P02, 22003, 3D000, 42P04 and 21000; the others are PostgreSQL's
    codes for the conditions the constants are named after. *)
Definition ERROR_INTEGRITY_CONSTRAINT_VIOLATION : string := "23000".
Definition ERROR_RESTRICT_VIOLATION : string := "23001".
Definition ERROR_NOT_NULL_VIOLATION : string := "23502".
Definition ERROR_FOREIGN_KEY_VIOLATION : string := "23503".
Definition ERROR_UNIQUE_VIOLATION : string := "23505".
Definition ERROR_CHECK_VIOLATION : string := "23514".
Definition ERROR_EXCLUSION_VIOLATION : string := "23P01".
Definition ERROR_INVALID_TEXT_REPRESENTATION : string := "22P02".
Definition ERROR_NUMERIC_VALUE_OUT_OF_RANGE : string := "22003".
Definition ERROR_INVALID_DATETIME_FORMAT : string := "22007".
Definition ERROR_DATETIME_FIELD_OVERFLOW : string := "22008".
Definition ERROR_INVALID_PARAMETER_VALUE : string := "22023".
Definition ERROR_WRONG_OBJECT_TYPE : string := "42809".
Definition ERROR_DIVISION_BY_ZERO : string := "22012".
Definition ERROR_INTERVAL_FIELD_OVERFLOW : string := "22015".
Definition ERROR_READ_ONLY_SQL_TRANSACTION : string := "25006".
Definition ERROR_SERIALIZATION_FAILURE : string := "40001".
Definition ERROR_DEADLOCK_DETECTED : string := "40P01".
Definition ERROR_INVALID_CATALOG_NAME : string := "3D000".
Definition ERROR_OBJECT_IN_USE : string := "55006".
Definition ERROR_DUPLICATE_DATABASE : string := "42P04".
Definition ERROR_CARDINALITY_VIOLATION : string := "21000".

(** [SCHEMA_CODES], lines 46-51. *)
Definition SCHEMA_CODES : list string :=
  [ERROR_INVALID_TEXT_REPRESENTATION; ERROR_NUMERIC_VALUE_OUT_OF_RANGE;
   ERROR_INVALID_DATETIME_FORMAT; ERROR_DATETIME_FIELD_OVERFLOW].

(** [constraint_errors], lines 66-74. *)
Definition constraint_errors : list string :=
  [ERROR_INTEGRITY_CONSTRAINT_VIOLATION; ERROR_RESTRICT_VIOLATION;
   ERROR_NOT_NULL_VIOLATION; ERROR_FOREIGN_KEY_VIOLATION;
   ERROR_UNIQUE_VIOLATION; ERROR_CHECK_VIOLATION;
   ERROR_EXCLUSION_VIOLATION].

(** The keys of [constraint_res], lines 77-87, in the order of the
    dictionary. *)
Inductive ConstraintKind :=
| cardinality | link_target | constraint | newconstraint | id
| link_target_del | scalar.

Definition constraint_res : list ConstraintKind :=
  [cardinality; link_target; constraint; newconstraint; id;
   link_target_del; scalar].

(** [range_constraints], lines 90-94. *)
Definition range_constraints : list string :=
  ["timestamptz_t_check"; "timestamp_t_check"; "date_t_check"].

(** A value decoded from JSON (numbers are integers here). *)
Inductive JSON :=
| JNull
| JBool (b : bool)
| JInt (z : Z)
| JStr (s : string)
| JArr (items : list JSON)
| JObj (items : list (string * JSON)).

(** Truth value of a decoded value. *)
Definition json_truthy (v : option JSON) : bool :=
  match v with
  | None | Some JNull => false
  | Some (JBool b) => b
  | Some (JInt z) => negb (bool_decide (z = 0%Z))
  | Some (JStr s) => negb (bool_decide (s = ""))
  | Some (JArr l) => negb (bool_decide (l = []))
  | Some (JObj l) => negb (bool_decide (length l = 0))
  end.

(** Truth value of an ``Optional[str]``. *)
Definition str_truthy (o : option string) : bool :=
  match o with
  | Some s => negb (bool_decide (s = ""))
  | None => false
  end.

(** The error classes of [edb.errors] that the translator builds;
    [RegisteredError] is a class that [get_error_class_from_code] found. *)
Inductive ErrorClass :=
| InternalServerError
| CardinalityViolationError
| UnknownLinkError
| ConstraintViolationError
| InvalidValueError
| DivisionByZeroError
| NumericOutOfRangeError
| TransactionError
| TransactionSerializationError
| TransactionDeadlockError
| UnknownDatabaseError
| ExecutionError
| DuplicateDatabaseDefinitionError
| MissingRequiredError
| InvalidLinkTargetError
| RegisteredError (code : nat).

Global Instance ErrorClass_eq_dec : EqDecision ErrorClass.
Proof. solve_decision. Defined.

(** An [EdgeDBError] instance: its class, the message it was built with,
    and the ``details``, ``hint`` and line/column it carries. *)
Record EdgeDBError := mkError {
  errclass : ErrorClass;
  errmsg : option string;
  details : option string;
  hint : option JSON;
  linecol : option (JSON * JSON);
}.

Definition new_error (c : ErrorClass) (msg : option string) : EdgeDBError :=
  mkError c msg None None None.

(** What the two translators return: the [SchemaRequired] sentinel or an
    error object. *)
Inductive Interpreted :=
| SchemaRequired
| Error (e : EdgeDBError).

(** [ErrorDetails], lines 54-63. *)
Record ErrorDetails := mkErrorDetails {
  message : option string;
  detail : option string;
  detail_json : option (gmap string JSON);
  code : option string;
  schema_name : option string;
  table_name : option string;
  column_name : option string;
  constraint_name : option string;
  errcls : option ErrorClass;
}.

(** Truth value of ``detail_json``. *)
Definition dict_truthy (d : option (gmap string JSON)) : bool :=
  match d with
  | Some m => negb (bool_decide (m = ∅))
  | None => false
  end.

(** ``s.rpartition(';')[0]`` *)
Fixpoint rpartition_found (s : string) : option string :=
  match s with
  | EmptyString => None
  | String c r =>
      match rpartition_found r with
      | Some h => Some (String c h)
      | None => if bool_decide (c = ";"%char) then Some EmptyString else None
      end
  end.
Definition rpartition_head (s : string) : string :=
  default EmptyString (rpartition_found s).

(** ``s.partition('_')[0]`` *)
Fixpoint partition_head (s : string) : string :=
  match s with
  | EmptyString => EmptyString
  | String c r =>
      if bool_decide (c = "_"%char) then EmptyString
      else String c (partition_head r)
  end.

(** ``s[2:]`` *)
Definition drop2 (s : string) : string :=
  match s with
  | String _ (String _ r) => r
  | _ => EmptyString
  end.

(** A match of [enum_re], lines 99-100: its groups ``p``, ``v`` and
    ``id``. *)
Record EnumMatch := mkEnumMatch {
  group_p : string;
  group_v : string;
  group_id : string;
}.

(** Library and schema functions the translator calls: [json], [re],
    [uuidgen], [edb.errors], [edb.pgsql.types] and the schema are not among
    the sources, so they are parameters of the development. *)
Class Library := {
  (** ``json.loads``; [None] when it raises [JSONDecodeError], a
      [ValueError] *)
  json_loads : string -> option (gmap string JSON);
  (** ``repr(v)`` and ``str(v)`` of a decoded value *)
  json_repr : JSON -> string;
  json_str : JSON -> string;
  (** ``type(errors.EdgeDBError).get_error_class_from_code``; [None] when
      it raises [LookupError] *)
  get_error_class_from_code : JSON -> option ErrorClass;
  (** ``constraint_res[kind].match(message)``: the groups of the match *)
  re_match : ConstraintKind -> string -> option (list string);
  (** ``str(sn.QualName.from_string(v))`` and
      ``sn.QualName.from_string(v).name`` *)
  QualName_from_string : JSON -> Exn + (string * string);
  (** ``uuidgen.UUID(s)``; [None] when it raises [ValueError] *)
  UUID : string -> option nat;
  (** ``common.get_object_from_backend_name(schema, s_pointers.Pointer,
      ptr_id).get_verbosename(schema, with_parent=True)`` *)
  pointer_verbosename : string -> Exn + string;
  (** ``schema.get_by_id(constraint_id).format_error_message(schema)`` *)
  constraint_error_message : nat -> Exn + string;
  (** ``get_object_from_backend_name(schema, s_objtypes.ObjectType,
      tabname).get_displayname(schema)`` *)
  source_displayname : option string * option string -> Exn + string;
  (** ``get_object_from_backend_name(schema, s_pointers.Pointer,
      column_name).get_shortname(schema).name`` *)
  pointer_shortname : option string -> Exn + string;
  (** ``types.base_type_name_map_r.get(domain_name)``, as a string *)
  base_type_name : string -> option string;
  (** ``pgtype_re.sub(lambda r: str(types.base_type_name_map_r.get(
      r.group(0), r.group(0))), msg)``, lines 104-107 *)
  pgtype_re_sub : string -> string;
  (** The scan ``enum_re.sub`` makes of a message: the matches of [enum_re]
      from left to right, with the text between them *)
  enum_re_split : string -> list (string + EnumMatch);
  (** ``schema.get_by_id(type_id, None)`` and, when the type is there,
      ``stype.get_displayname(schema)`` *)
  type_displayname : nat -> option string;
  (** The message of the covariance error, lines 435-442, from
      ``column_name`` and ``table_name`` *)
  covariance_message : option string -> option string -> Exn + string;
}.

Section Translator.
Context `{Library}.

(** [get_error_details], lines 125-158. *)
Definition get_error_details (fields : gmap string string)
    : Exn + ErrorDetails :=
  let message := fields !! "M" in
  let detail := fields !! "D" in
  let parsed : Exn + (option (gmap string JSON) * option string) :=
    match detail with
    | Some d =>
        if String.prefix "{" d then
          match json_loads d with
          | Some j => inr (Some j, None)
          | None => inl (ValueError "JSONDecodeError")
          end
        else inr (None, detail)
    | None => inr (None, None)
    end in
  match parsed with
  | inl e => inl e
  | inr (detail_json, detail) =>
      let found : option ErrorClass :=
        if dict_truthy detail_json then
          let errcode := j ← detail_json; j !! "code" in
          if json_truthy errcode
          then c ← errcode; get_error_class_from_code c
          else None
        else None in
      match found with
      | Some cls =>
          inr (mkErrorDetails message None detail_json None None None
                 None None (Some cls))
      | None =>
          match fields !! "C" with
          | None => inl KeyError
          | Some code =>
              inr (mkErrorDetails message detail detail_json (Some code)
                     (fields !! "s") (fields !! "t") (fields !! "c")
                     (fields !! "n") None)
          end
      end
  end.

(** ``detail_json.get(k, default)`` *)
Definition json_get_default (j : gmap string JSON) (k : string)
    (d : JSON) : JSON :=
  default d (j !! k).

(** [get_generic_exception_from_err_details], lines 161-169. *)
Definition get_generic_exception_from_err_details
    (err_details : ErrorDetails) : Exn + option EdgeDBError :=
  match errcls err_details with
  | None => inr None
  | Some cls =>
      if decide (cls <> InternalServerError) then
        match detail_json err_details with
        | None => inl (AttributeError "get")
        | Some j =>
            inr (Some (mkError cls (message err_details) None None
                         (Some (json_get_default j "line" (JInt (-1)),
                                json_get_default j "column" (JInt (-1))))))
        end
      else inr (Some (new_error cls (message err_details)))
  end.

(** The ``for errtype, ere in constraint_res.items()`` loop: the first
    pattern that matches, with the groups of the match.  Matching against
    a message that is ``None`` raises. *)
Definition first_match (msg : option string)
    : Exn + option (ConstraintKind * list string) :=
  match msg with
  | None => inl (TypeError "expected string or bytes-like object")
  | Some m =>
      inr (list_find (fun k => is_Some (re_match k m)) constraint_res
             ≫= fun '(_, k) => g ← re_match k m; Some (k, g))
  end.

(** ``s.startswith(p)`` on a message that may be ``None``. *)
Definition message_startswith (msg : option string) (p : string)
    : Exn + bool :=
  match msg with
  | None => inl (AttributeError "startswith")
  | Some m => inr (String.prefix p m)
  end.

(** ``details=err_details.detail if err_details.detail else None`` *)
Definition detail_or_none (d : option string) : option string :=
  if str_truthy d then d else None.

(** The message of the ``link_target`` branch, lines 203-222. *)
Definition link_target_message (err_details : ErrorDetails)
    : Exn + string :=
  if dict_truthy (detail_json err_details) then
    let get k := j ← detail_json err_details; j !! k in
    let srcname := get "source" in
    let ptrname := get "pointer" in
    let target := get "target" in
    let expected := get "expected" in
    let repr_opt v := json_repr (default JNull v) in
    let finish (lname : string) : string :=
      "invalid target for link " +:+ repr lname +:+ ": "
      +:+ repr_opt target +:+ " (expecting " +:+ repr_opt expected
      +:+ ")" in
    if json_truthy srcname && json_truthy ptrname then
      match QualName_from_string (default JNull srcname) with
      | inl e => inl e
      | inr (src, _) =>
          match QualName_from_string (default JNull ptrname) with
          | inl e => inl e
          | inr (_, ptr_name) => inr (finish (src +:+ "." +:+ ptr_name))
          end
      end
    else inr (finish "")
  else inr "invalid target for link".

(** [static_interpret_backend_error] from line 179 on: the error was not
    a generic one. *)
Definition static_interpret_details (err_details : ErrorDetails)
    : Exn + Interpreted :=
  let msg := message err_details in
  let internal := inr (Error (new_error InternalServerError msg)) in
  let code_is c := bool_decide (code err_details = Some c) in
  let code_in l :=
    match code err_details with
    | Some c => bool_decide (c ∈ l)
    | None => false
    end in
  if code_is ERROR_NOT_NULL_VIOLATION then
    if str_truthy (table_name err_details)
       || str_truthy (column_name err_details)
    then inr SchemaRequired
    else internal
  else if code_in constraint_errors then
    match first_match msg with
    | inl e => inl e
    | inr None => internal
    | inr (Some (cardinality, _)) =>
        inr (Error (new_error CardinalityViolationError
                      (Some "cardinality violation")))
    | inr (Some (link_target, _)) =>
        match link_target_message err_details with
        | inl e => inl e
        | inr m => inr (Error (new_error UnknownLinkError (Some m)))
        end
    | inr (Some (link_target_del, _)) =>
        inr (Error (mkError ConstraintViolationError msg
                      (detail err_details) None None))
    | inr (Some (constraint, _)) =>
        match constraint_name err_details with
        | None => internal
        | Some cn =>
            match UUID (rpartition_head cn) with
            | None => internal
            | Some _ => inr SchemaRequired
            end
        end
    | inr (Some (newconstraint, _)) =>
        if str_truthy (schema_name err_details)
           && str_truthy (table_name err_details)
           && str_truthy (column_name err_details)
        then inr SchemaRequired
        else internal
    | inr (Some (scalar, _)) => inr SchemaRequired
    | inr (Some (id, _)) =>
        inr (Error (new_error ConstraintViolationError
                      (Some "unique link constraint violation")))
    end
  else if code_in SCHEMA_CODES then
    if code_is ERROR_INVALID_DATETIME_FORMAT then
      let hint :=
        if dict_truthy (detail_json err_details)
        then j ← detail_json err_details; j !! "hint"
        else None in
      let invalid :=
        inr (Error (mkError InvalidValueError msg None hint None)) in
      match message_startswith msg "missing required time zone" with
      | inl e => inl e
      | inr true => invalid
      | inr false =>
          match message_startswith msg "unexpected time zone" with
          | inl e => inl e
          | inr true => invalid
          | inr false => inr SchemaRequired
          end
      end
    else inr SchemaRequired
  else if code_is ERROR_INVALID_PARAMETER_VALUE then
    inr (Error (mkError InvalidValueError msg
                  (detail_or_none (detail err_details)) None None))
  else if code_is ERROR_WRONG_OBJECT_TYPE then
    if str_truthy (column_name err_details) then inr SchemaRequired
    else
      inr (Error (mkError InvalidValueError msg
                    (detail_or_none (detail err_details)) None None))
  else if code_is ERROR_DIVISION_BY_ZERO then
    inr (Error (new_error DivisionByZeroError msg))
  else if code_is ERROR_INTERVAL_FIELD_OVERFLOW then
    inr (Error (new_error NumericOutOfRangeError msg))
  else if code_is ERROR_READ_ONLY_SQL_TRANSACTION then
    inr (Error (new_error TransactionError
                  (Some "cannot execute query in a read-only transaction")))
  else if code_is ERROR_SERIALIZATION_FAILURE then
    inr (Error (new_error TransactionSerializationError msg))
  else if code_is ERROR_DEADLOCK_DETECTED then
    inr (Error (new_error TransactionDeadlockError msg))
  else if code_is ERROR_INVALID_CATALOG_NAME then
    inr (Error (new_error UnknownDatabaseError msg))
  else if code_is ERROR_OBJECT_IN_USE then
    inr (Error (new_error ExecutionError msg))
  else if code_is ERROR_DUPLICATE_DATABASE then
    inr (Error (new_error DuplicateDatabaseDefinitionError msg))
  else if code_is ERROR_CARDINALITY_VIOLATION
          && (bool_decide
                (constraint_name err_details = Some "std::assert_single")
              || bool_decide
                   (constraint_name err_details
                    = Some "std::assert_exists"))
  then inr (Error (new_error CardinalityViolationError msg))
  else if code_is ERROR_CARDINALITY_VIOLATION
          && bool_decide
               (constraint_name err_details = Some "std::assert_distinct")
  then inr (Error (new_error ConstraintViolationError msg))
  else internal.

(** [static_interpret_backend_error], lines 172-330. *)
Definition static_interpret_backend_error (fields : gmap string string)
    : Exn + Interpreted :=
  match get_error_details fields with
  | inl e => inl e
  | inr err_details =>
      match get_generic_exception_from_err_details err_details with
      | inl e => inl e
      | inr (Some err) => inr (Error err)
      | inr None => static_interpret_details err_details
      end
  end.

(** ``ptr_id`` of lines 345-348. *)
Definition pointer_id_of_column (colname : string) : string :=
  if String.prefix "??" colname then partition_head (drop2 colname)
  else colname.

(** The not-null branch of [interpret_backend_error], lines 342-367. *)
Definition interpret_not_null (err_details : ErrorDetails)
    (hint : option JSON) : Exn + Interpreted :=
  let colname := column_name err_details in
  let pname : Exn + option string :=
    match colname with
    | Some c =>
        if bool_decide (c = "") then inr None
        else
          match pointer_verbosename (pointer_id_of_column c) with
          | inl e => inl e
          | inr n => inr (Some n)
          end
    | None => inr None
    end in
  match pname with
  | inl e => inl e
  | inr (Some pname) =>
      let details :=
        if dict_truthy (detail_json err_details) then
          object_id ← (j ← detail_json err_details; j !! "object_id");
          match object_id with
          | JNull => None
          | _ =>
              Some ("Failing object id is "
                    +:+ repr (json_str object_id) +:+ ".")
          end
        else None in
      inr (Error (mkError MissingRequiredError
                    (Some ("missing value for required " +:+ pname))
                    details hint None))
  | inr None =>
      inr (Error (new_error InternalServerError (message err_details)))
  end.

(** ``replace(r)``, lines 112-118. *)
Definition replace (r : EnumMatch) : Exn + string :=
  match UUID (group_id r) with
  | None => inl (ValueError "badly formed hexadecimal UUID string")
  | Some type_id =>
      match type_displayname type_id with
      | Some displayname => inr (group_p r +:+ " " +:+ repr displayname)
      | None => inr (group_p r +:+ " " +:+ group_v r)
      end
  end.

(** ``enum_re.sub(replace, msg)``, line 120, on the scan of the message:
    [replace] is called on the matches from left to right. *)
Fixpoint enum_re_sub (pieces : list (string + EnumMatch)) : Exn + string :=
  match pieces with
  | [] => inr EmptyString
  | inl text :: rest =>
      match enum_re_sub rest with
      | inl e => inl e
      | inr s => inr (text +:+ s)
      end
  | inr r :: rest =>
      match replace r with
      | inl e => inl e
      | inr replacement =>
          match enum_re_sub rest with
          | inl e => inl e
          | inr s => inr (replacement +:+ s)
          end
      end
  end.

(** [translate_pgtype], lines 103-122. *)
Definition translate_pgtype (msg : string) : Exn + string :=
  let translated := pgtype_re_sub msg in
  if negb (bool_decide (translated = msg)) then inr translated
  else enum_re_sub (enum_re_split msg).

(** ``translate_pgtype(schema, err_details.message)`` *)
Definition translate_message (msg : option string) : Exn + string :=
  match msg with
  | None => inl (TypeError "expected string or bytes-like object")
  | Some m => translate_pgtype m
  end.

(** The constraint branch of [interpret_backend_error], lines 369-415;
    [None] when control leaves the branch without returning. *)
Definition interpret_constraint (err_details : ErrorDetails)
    : Exn + option Interpreted :=
  let violation m :=
    inr (Some (Error (new_error ConstraintViolationError (Some m)))) in
  match first_match (message err_details) with
  | inl e => inl e
  | inr (Some (constraint, _)) =>
      match constraint_name err_details with
      | None => inl (AttributeError "rpartition")
      | Some cn =>
          match UUID (rpartition_head cn) with
          | None => inl (ValueError "badly formed hexadecimal UUID string")
          | Some constraint_id =>
              match constraint_error_message constraint_id with
              | inl e => inl e
              | inr m => violation m
              end
          end
      end
  | inr (Some (newconstraint, _)) =>
      match source_displayname
              (schema_name err_details, table_name err_details) with
      | inl e => inl e
      | inr source_name =>
          match pointer_shortname (column_name err_details) with
          | inl e => inl e
          | inr pointer_name =>
              violation ("Existing " +:+ source_name +:+ "."
                         +:+ pointer_name
                         +:+ " values violate the new constraint")
          end
      end
  | inr (Some (scalar, groups)) =>
      let domain_name := default "" (groups !! 0) in
      let invalid m :=
        inr (Some (Error (new_error InvalidValueError (Some m)))) in
      match base_type_name domain_name with
      | Some stype_name =>
          if bool_decide (default "" (groups !! 1) ∈ range_constraints)
          then invalid (repr stype_name +:+ " value out of range")
          else invalid ("invalid value for scalar type "
                        +:+ repr stype_name)
      | None =>
          match translate_message (message err_details) with
          | inl e => inl e
          | inr m => invalid m
          end
      end
  | inr _ => inr None
  end.

(** [interpret_backend_error], lines 333-444. *)
Definition interpret_backend_error (fields : gmap string string)
    : Exn + Interpreted :=
  match get_error_details fields with
  | inl e => inl e
  | inr err_details =>
      let msg := message err_details in
      let internal := inr (Error (new_error InternalServerError msg)) in
      let hint :=
        if dict_truthy (detail_json err_details)
        then j ← detail_json err_details; j !! "hint"
        else None in
      let code_is c := bool_decide (code err_details = Some c) in
      let translated (cls : ErrorClass) (hint : option JSON) :=
        match translate_message msg with
        | inl e => inl e
        | inr m => inr (Error (mkError cls (Some m) None hint None))
        end in
      if code_is ERROR_NOT_NULL_VIOLATION then
        interpret_not_null err_details hint
      else if match code err_details with
              | Some c => bool_decide (c ∈ constraint_errors)
              | None => false
              end then
        match interpret_constraint err_details with
        | inl e => inl e
        | inr (Some r) => inr r
        | inr None => internal
        end
      else if code_is ERROR_INVALID_TEXT_REPRESENTATION then
        translated InvalidValueError None
      else if code_is ERROR_NUMERIC_VALUE_OUT_OF_RANGE then
        translated NumericOutOfRangeError None
      else if code_is ERROR_INVALID_DATETIME_FORMAT
              || code_is ERROR_DATETIME_FIELD_OVERFLOW then
        translated InvalidValueError hint
      else if code_is ERROR_WRONG_OBJECT_TYPE
              && bool_decide (msg = Some "covariance error") then
        match covariance_message (column_name err_details)
                (table_name err_details) with
        | inl e => inl e
        | inr m => inr (Error (new_error InvalidLinkTargetError (Some m)))
        end
      else internal
  end.

End Translator.

(** The field maps [static_interpret_backend_error] returns on: they have
    a code and a message, a detail that starts with a brace parses as JSON,
    and the ``source`` and ``pointer`` entries of a parsed detail are
    qualified names. *)
Definition well_formed `{Library} (fields : gmap string string) : Prop :=
  is_Some (fields !! "C")
  /\ is_Some (fields !! "M")
  /\ (forall d,
        fields !! "D" = Some d -> String.prefix "{" d = true ->
        exists j,
          json_loads d = Some j
          /\ forall v,
               j !! "source" = Some v \/ j !! "pointer" = Some v ->
               exists q, QualName_from_string v = inr q).

(** The codes [static_interpret_details] has a branch for. *)
Definition recognized_codes : list string :=
  constraint_errors ++ SCHEMA_CODES
  ++ [ERROR_INVALID_PARAMETER_VALUE; ERROR_WRONG_OBJECT_TYPE;
      ERROR_DIVISION_BY_ZERO; ERROR_INTERVAL_FIELD_OVERFLOW;
      ERROR_READ_ONLY_SQL_TRANSACTION; ERROR_SERIALIZATION_FAILURE;
      ERROR_DEADLOCK_DETECTED; ERROR_INVALID_CATALOG_NAME;
      ERROR_OBJECT_IN_USE; ERROR_DUPLICATE_DATABASE;
      ERROR_CARDINALITY_VIOLATION].

(** Library functions for the examples: no detail parses as JSON, no
    pattern matches (the map of backend type names is empty, and no message
    of the examples mentions an enum), and the pointer of a column is named
    after it. *)
Global Instance example_library : Library := {|
  json_loads _ := None;
  json_repr _ := "";
  json_str _ := "";
  get_error_class_from_code _ := None;
  re_match _ _ := None;
  QualName_from_string _ := inl (ValueError "name");
  UUID _ := None;
  pointer_verbosename c := inr ("property '" +:+ c +:+ "'");
  constraint_error_message _ := inl LookupError;
  source_displayname _ := inl LookupError;
  pointer_shortname _ := inl LookupError;
  base_type_name _ := None;
  pgtype_re_sub m := m;
  enum_re_split m := [inl m];
  type_displayname _ := None;
  covariance_message _ _ := inl LookupError;
|}.

(** A not-null violation that names only the table, one that names the
    column, and a unique violation without a message. *)
Definition example_not_null_table : gmap string string :=
  <["C" := "23502"]> (<["M" := "null value"]> (<["t" := "tbl"]> ∅)).

Definition example_not_null_column : gmap string string :=
  <["C" := "23502"]> (<["M" := "null value"]> (<["c" := "col"]> ∅)).

Definition example_no_message : gmap string string :=
  <["C" := "23505"]> ∅.

(** An error with a code the translator has no branch for. *)
Definition example_unknown_code : gmap string string :=
  <["C" := "XX000"]> (<["M" := "internal error"]> ∅).

(** The codes whose translation can depend on the schema: the constraint
    violations, [SCHEMA_CODES] and ``wrong_object_type``. *)
Definition schema_dependent_codes : list string :=
  constraint_errors ++ SCHEMA_CODES ++ [ERROR_WRONG_OBJECT_TYPE].

(** The double-quote character, and a text between double quotes. *)
Definition dquote : string := String "034"%char EmptyString.
Definition quoted (s : string) : string := dquote +:+ s +:+ dquote.

(** The JSON text of an object whose only member is the code 0x05010000,
    that of [InvalidValueError] in [edb.errors]. *)
Definition example_detail : string :=
  "{" +:+ quoted "code" +:+ ": 83951616}".

(** The text of a UUID, and two backend messages about a value that is
    not in an enum: one names the domain of the type with this id, the
    other a domain whose name holds no UUID. *)
Definition example_uuid : string := "12345678-1234-5678-1234-567812345678".

Definition example_enum_message : string :=
  "invalid input value for enum edgedbpub."
  +:+ quoted (example_uuid +:+ "_domain") +:+ ": " +:+ quoted "x".

Definition example_bad_enum_message : string :=
  "invalid input value for enum edgedbpub."
  +:+ quoted "zz_domain" +:+ ": " +:+ quoted "x".

(** Library functions for the examples over a schema that resolves every
    name.  Of the JSON texts it decodes [example_detail], whose code is that
    of a registered error class; the only message a constraint pattern
    matches is that of a new constraint that existing values violate; the
    only text it reads as a UUID is [example_uuid], the id of the enum type
    ``default::Color``; the map of backend type names is empty, and the
    messages in which [enum_re] finds a match are the two above. *)
Definition example_resolving_library : Library := {|
  json_loads s :=
    if bool_decide (s = example_detail)
    then Some {["code" := JInt 83951616]} else None;
  json_repr _ := "";
  json_str _ := "";
  get_error_class_from_code c :=
    match c with
    | JInt 83951616 => Some InvalidValueError
    | _ => None
    end;
  re_match k m :=
    match k with
    | newconstraint =>
        if bool_decide (m = "values violate the new constraint")
        then Some [] else None
    | _ => None
    end;
  QualName_from_string _ := inl (ValueError "name");
  UUID s := if bool_decide (s = example_uuid) then Some 1 else None;
  pointer_verbosename c := inr ("property '" +:+ c +:+ "'");
  constraint_error_message _ := inr "constraint violated";
  source_displayname _ := inr "default::User";
  pointer_shortname _ := inr "name";
  base_type_name _ := None;
  pgtype_re_sub m := m;
  enum_re_split m :=
    let before := "invalid input value for " in
    let after := ": " +:+ quoted "x" in
    let found id :=
      [inl before;
       inr (mkEnumMatch "enum"
              ("edgedbpub." +:+ quoted (id +:+ "_domain")) id);
       inl after] in
    if bool_decide (m = example_enum_message) then found example_uuid
    else if bool_decide (m = example_bad_enum_message) then found "zz"
    else [inl m];
  type_displayname type_id :=
    if bool_decide (type_id = 1) then Some "default::Color" else None;
  covariance_message _ _ := inr "invalid target";
|}.


(** A division by zero, and an error without SQLSTATE. *)
Definition example_division_by_zero : gmap string string :=
  <["C" := "22012"]> (<["M" := "division by zero"]> ∅).

Definition example_no_code : gmap string string :=
  <["M" := "internal error"]> ∅.

(** An error raised by EdgeDB's own SQL code. *)
Definition example_generic_error : gmap string string :=
  <["D" := example_detail]> (<["M" := "invalid input"]> ∅).

(** A floating-point overflow, whose message names no backend type, and
    the two messages about enum values as invalid text representations. *)
Definition example_overflow : gmap string string :=
  <["C" := "22003"]> (<["M" := "value out of range: overflow"]> ∅).

Definition example_invalid_enum_value : gmap string string :=
  <["C" := "22P02"]> (<["M" := example_enum_message]> ∅).

Definition example_invalid_enum_domain : gmap string string :=
  <["C" := "22P02"]> (<["M" := example_bad_enum_message]> ∅).

End ErrorMech.

(** ** [edb/pgsql/delta.py] *)

Module Delta.

(** Backend names are (schema, name) pairs ([common.get_backend_name] with
    ``catenate=False``). *)
Definition BackendName := (string * string)%type.

(** Identity of a schema object (its 128-bit id). *)
Definition ObjId := nat.

(** A view as produced by [get_inhview]: the object whose inheritance view it
    is and the excluded children and pointers.  The SQL text of the view is
    rendered from these by code outside of the embedding. *)
Record View := mkView {
  view_obj : ObjId;
  exclude_children : list ObjId;
  exclude_ptrs : list ObjId;
}.

Global Instance View_eq_dec : EqDecision View.
Proof. solve_decision. Defined.

(** A literal default, or an expression default (``s_expr.Expression``). *)
Inductive DefaultValue :=
| DefaultExpression
| DefaultLiteral (v : string).

(** The [dbops] commands that the embedded code adds to [self.pgops]. *)
Inductive PgOp :=
| DropEnum (name : BackendName)
| CreateEnum (name : BackendName) (values : list string)
| AlterEnumAddValue (name : BackendName) (value : string)
    (before : option string)
| AlterDomainAlterDefault (name : BackendName) (default : option string)
| DropView (obj : ObjId) (conditional : bool)
| CreateView (view : View) (or_replace : bool)
| Comment (view : View)
| Adapted (tag : nat).
(* [Adapted] stands for a schema command adapted by [CommandMeta.adapt], as
   [_undo_everything] adds them. *)

Global Instance PgOp_eq_dec : EqDecision PgOp.
Proof. solve_decision. Defined.

(** ``list.insert(i, v)`` *)
Definition py_insert {A} (i : nat) (v : A) (l : list A) : list A :=
  take i l ++ v :: drop i l.

(** The ``for v in new_enum_values`` loop of [_alter_begin], lines 2175-2192:
    [old_idx] and the local copy of [old_enum_values] are loop state, the
    result is the list of operations added to [pgops]. *)
Fixpoint add_enum_values (type_name : BackendName) (old_idx : nat)
    (old_enum_values : list string) (new_enum_values : list string)
    : list PgOp :=
  match new_enum_values with
  | [] => []
  | v :: rest =>
      match old_enum_values !! old_idx with
      | None =>
          (* ``old_idx >= len(old_enum_values)`` *)
          AlterEnumAddValue type_name v None
            :: add_enum_values type_name old_idx old_enum_values rest
      | Some o =>
          if decide (v <> o) then
            AlterEnumAddValue type_name v (Some o)
              :: add_enum_values type_name old_idx
                   (py_insert old_idx v old_enum_values) rest
          else
            add_enum_values type_name (S old_idx) old_enum_values rest
      end
  end.

(** ``needs_recreate``, lines 2152-2154. *)
Definition needs_recreate (old_enum_values new_enum_values : list string)
    : bool :=
  bool_decide (old_enum_values <> new_enum_values)
  && bool_decide
       (old_enum_values <> take (length old_enum_values) new_enum_values).

Section AlterScalarType.
(** What [_alter_begin] reads from the command and from the schemas. *)
Context {Refs : Type}.
(** [_get_problematic_refs(schema, context, composite_only=...)] *)
Variable _get_problematic_refs : bool -> option Refs.
(** The operations [_undo_everything] adds to [pgops]. *)
Variable _undo_everything : Refs -> list PgOp.

Record AlterScalar := mkAlterScalar {
  (** ``new_scalar.get_enum_values(orig_schema)`` *)
  enum_values_orig : option (list string);
  (** ``new_scalar.get_enum_values(rebased_schema)`` *)
  enum_values_rebased : option (list string);
  has_create_constraint : bool;
  has_rebase : bool;
  (** ``common.get_backend_name(schema, new_scalar, catenate=False)`` *)
  type_name : BackendName;
  (** ``self.get_resolved_attribute_value('default', ...)`` when it is
      true, [None] otherwise *)
  default_delta : option DefaultValue;
}.

(** ``x or []`` *)
Definition or_empty (x : option (list string)) : list string :=
  default [] x.

(** [AlterScalarType._alter_begin], lines 2121-2212: the operations added
    to [self.pgops], in order. *)
Definition _alter_begin (cmd : AlterScalar) : list PgOp :=
  let old_enum_values := or_empty (enum_values_orig cmd) in
  let new_enum_values :=
    if has_rebase cmd && negb (bool_decide (old_enum_values = []))
    then or_empty (enum_values_rebased cmd)
    else old_enum_values in
  let recreate := needs_recreate old_enum_values new_enum_values in
  let undo_ops :=
    if recreate || has_create_constraint cmd then
      match _get_problematic_refs (negb recreate) with
      | Some refs => _undo_everything refs
      | None => []
      end
    else [] in
  let enum_ops :=
    if negb (bool_decide (new_enum_values = [])) then
      if recreate then
        [DropEnum (type_name cmd);
         CreateEnum (type_name cmd) new_enum_values]
      else if bool_decide (old_enum_values <> new_enum_values) then
        add_enum_values (type_name cmd) 0 old_enum_values new_enum_values
      else []
    else [] in
  let default_ops :=
    match default_delta cmd with
    | Some d =>
        let new_default :=
          match d with
          | DefaultExpression => None
          | DefaultLiteral v => Some v
          end in
        [AlterDomainAlterDefault (type_name cmd) new_default]
    | None => []
    end in
  undo_ops ++ enum_ops ++ default_ops.

End AlterScalarType.

(** *** Inheritance views *)

(** What [has_table] reads of a schema object through the schema: an object
    type, or a pointer (link or property) together with its source. *)
Inductive SchemaObject :=
| ObjectType (is_compound_type get_is_derived is_view : bool)
| Pointer (is_property : bool)
    (is_pure_computable get_is_derived generic : bool)
    (name : string)
    (is_link_property singular : bool)
    (get_source : SchemaObject)
    (** ``table_type`` of ``types.get_pointer_storage_info(obj,
        resolve_type=False, link_bias=True)``, [None] when there is no
        storage info. *)
    (storage_table_type : option string).

(** [has_table], lines 90-115. *)
Fixpoint has_table (obj : SchemaObject) : bool :=
  match obj with
  | ObjectType is_compound_type get_is_derived is_view =>
      negb (is_compound_type || get_is_derived || is_view)
  | Pointer is_property is_pure_computable get_is_derived generic name
      is_link_property singular get_source storage_table_type =>
      if is_pure_computable || get_is_derived then false
      else if generic then
        negb is_property && negb (bool_decide (name = "std::link"))
      else if is_link_property then negb singular
      else if negb (has_table get_source) then false
      else
        match storage_table_type with
        | Some table_type => bool_decide (table_type = "link")
        | None => false
        end
  end.

Section CompositeMetaCommand.
(** The schema, as far as the inheritance-view code consults it. *)
Variable resolve : ObjId -> SchemaObject.
(** ``obj.get_ancestors(schema).objects(schema)`` *)
Variable get_ancestors : ObjId -> list ObjId.

(** The methods run on [self.pgops]; every operation added is a freshly
    built command object, so [OrderedSet.add] appends. *)
Definition Cmd := Py.M (list PgOp).

Definition pgops_add (op : PgOp) : Cmd unit :=
  Py.modify (fun pgops => pgops ++ [op]).

Definition assert_has_table (obj : ObjId) : Cmd unit :=
  if has_table (resolve obj) then Py.ret tt
  else Py.raise (Py.AssertionError "has_table(obj, schema)").

(** [get_inhview] *)
Definition get_inhview (obj : ObjId)
    (exclude_children exclude_ptrs : list ObjId) : View :=
  mkView obj exclude_children exclude_ptrs.

(** [alter_inhview] with ``alter_ancestors=False``, lines 2541-2555. *)
Definition alter_inhview_only (obj : ObjId)
    (exclude_children : list ObjId) : Cmd unit :=
  (assert_has_table obj;;;
   let inhview := get_inhview obj exclude_children [] in
   pgops_add (CreateView inhview true);;;
   pgops_add (Comment inhview))%py.

(** [alter_ancestor_inhviews], lines 2492-2508. *)
Definition alter_ancestor_inhviews (obj : ObjId)
    (exclude_children : list ObjId) : Cmd unit :=
  Py.for_each (get_ancestors obj) (fun base =>
    if has_table (resolve base)
    then alter_inhview_only base exclude_children
    else Py.ret tt).

(** [alter_inhview], lines 2532-2558. *)
Definition alter_inhview (obj : ObjId) (exclude_children : list ObjId)
    (alter_ancestors : bool) : Cmd unit :=
  (alter_inhview_only obj exclude_children;;;
   if alter_ancestors
   then alter_ancestor_inhviews obj exclude_children
   else Py.ret tt)%py.

(** [create_inhview], lines 2510-2530. *)
Definition create_inhview (obj : ObjId) (exclude_ptrs : list ObjId)
    (alter_ancestors : bool) : Cmd unit :=
  (assert_has_table obj;;;
   let inhview := get_inhview obj [] exclude_ptrs in
   pgops_add (CreateView inhview false);;;
   pgops_add (Comment inhview);;;
   if alter_ancestors
   then alter_ancestor_inhviews obj []
   else Py.ret tt)%py.

(** [drop_inhview], lines 2581-2593. *)
Definition drop_inhview (obj : ObjId) (conditional : bool) : Cmd unit :=
  pgops_add (DropView obj conditional).

(** [recreate_inhview], lines 2560-2579. *)
Definition recreate_inhview (obj : ObjId) (exclude_ptrs : list ObjId)
    (alter_ancestors : bool) : Cmd unit :=
  (drop_inhview obj true;;;
   create_inhview obj exclude_ptrs alter_ancestors)%py.

(** ``to_alter``, lines 2602-2605. *)
Definition to_alter (inhview_updates : gset ObjId) : gset ObjId :=
  list_to_set (elements inhview_updates ≫= get_ancestors)
    ∖ inhview_updates.

(** [apply_scheduled_inhview_updates], lines 2595-2614.  Iterating over a
    Python set visits every member once, in the order [elements] fixes. *)
Definition apply_scheduled_inhview_updates
    (inhview_updates : gset ObjId) : Cmd unit :=
  if decide (inhview_updates = ∅) then Py.ret tt
  else
    (Py.for_each (elements inhview_updates) (fun s =>
       recreate_inhview s [] false);;;
     Py.for_each (elements (to_alter inhview_updates)) (fun s =>
       if has_table (resolve s)
       then alter_inhview s [] false
       else Py.ret tt))%py.

(** The operations [recreate_inhview] and [alter_inhview] add for one
    object when they are called as the batch calls them. *)
Definition recreate_ops (obj : ObjId) : list PgOp :=
  [DropView obj true; CreateView (get_inhview obj [] []) false;
   Comment (get_inhview obj [] [])].

Definition alter_ops (obj : ObjId) : list PgOp :=
  if has_table (resolve obj)
  then [CreateView (get_inhview obj [] []) true;
        Comment (get_inhview obj [] [])]
  else [].

(** The operations of a whole batch. *)
Definition batch_ops (inhview_updates : gset ObjId) : list PgOp :=
  (elements inhview_updates ≫= recreate_ops)
  ++ (elements (to_alter inhview_updates) ≫= alter_ops).

End CompositeMetaCommand.

(** [op] creates (or replaces) the inheritance view of [obj]. *)
Definition creates_view_of (obj : ObjId) (op : PgOp) : bool :=
  match op with
  | CreateView view _ => bool_decide (view_obj view = obj)
  | _ => false
  end.

(** How many operations of [ops] create the inheritance view of [obj]. *)
Definition views_created (obj : ObjId) (ops : list PgOp) : nat :=
  length (filter (fun op => creates_view_of obj op = true) ops).

(** A schema for the examples: object 1 is a concrete link ``friends`` of an
    object type, stored in a link table; its only ancestor, object 2, is the
    abstract link ``std::link``. *)
Definition example_objtype : SchemaObject := ObjectType false false false.

Definition example_resolve (obj : ObjId) : SchemaObject :=
  match obj with
  | 1 => Pointer false false false false "default::friends" false false
           example_objtype (Some "link")
  | 2 => Pointer false false false true "std::link" false false
           example_objtype None
  | _ => example_objtype
  end.

Definition example_ancestors (obj : ObjId) : list ObjId :=
  match obj with
  | 1 => [2]
  | _ => []
  end.

Section Rebase.
Variable resolve : ObjId -> SchemaObject.
Variable get_ancestors : ObjId -> list ObjId.

(** [update_base_inhviews_on_rebase], lines 2472-2490; [bases] and
    [orig_bases] are the sets of bases of [obj] in the schema and in the
    original schema. *)
Definition update_base_inhviews_on_rebase (bases orig_bases : gset ObjId)
    (obj : ObjId) : Cmd unit :=
  (Py.for_each (elements (bases ∖ orig_bases)) (fun new_base =>
     if has_table (resolve new_base)
     then alter_inhview resolve get_ancestors new_base [] true
     else Py.ret tt);;;
   Py.for_each (elements (orig_bases ∖ bases)) (fun old_base =>
     if has_table (resolve old_base)
     then alter_inhview resolve get_ancestors old_base [obj] true
     else Py.ret tt))%py.

(** The operations that replace the inheritance view of [obj], if it has a
    table, and those that replace the views of its ancestors. *)
Definition replace_ops (exclude_children : list ObjId) (obj : ObjId)
    : list PgOp :=
  if has_table (resolve obj)
  then [CreateView (get_inhview obj exclude_children []) true;
        Comment (get_inhview obj exclude_children [])]
  else [].

Definition ancestors_ops (exclude_children : list ObjId) (obj : ObjId)
    : list PgOp :=
  get_ancestors obj ≫= replace_ops exclude_children.

(** The operations [update_base_inhviews_on_rebase] adds for one base. *)
Definition rebase_ops_of (exclude_children : list ObjId) (b : ObjId)
    : list PgOp :=
  if has_table (resolve b)
  then replace_ops exclude_children b ++ ancestors_ops exclude_children b
  else [].

(** [a] is in [objs], or an ancestor of one of them that has a table. *)
Definition touches (objs : gset ObjId) (a : ObjId) : Prop :=
  a ∈ objs
  \/ exists b, b ∈ objs /\ has_table (resolve b) = true
               /\ a ∈ get_ancestors b.
End Rebase.

(** Objects 3 and 4 are object types with the ancestor 5. *)
Definition example_type_ancestors (obj : ObjId) : list ObjId :=
  match obj with
  | 3 | 4 => [5]
  | _ => []
  end.

(** *** The effect of the enum operations on the backend *)

(** Modelled from the spec: the enum types of the backend (spec 6.1, enums
    with ``ADD VALUE BEFORE``), as PostgreSQL treats the operations on the
    enum type [name].  The state is the list of the values of the type,
    [None] when there is no such type, and the result is [None] when an
    operation fails: ``DROP TYPE`` needs the type, ``CREATE TYPE`` needs it
    absent, and ``ALTER TYPE ... ADD VALUE v [BEFORE b]`` needs a new value
    [v] and an existing value [b].  Operations on other objects leave the
    type alone. *)
Definition pg_enum_step (name : BackendName) (op : PgOp)
    (enum : option (list string)) : option (option (list string)) :=
  match op with
  | DropEnum n =>
      if decide (n = name) then
        match enum with
        | Some _ => Some None
        | None => None
        end
      else Some enum
  | CreateEnum n values =>
      if decide (n = name) then
        match enum with
        | Some _ => None
        | None => Some (Some values)
        end
      else Some enum
  | AlterEnumAddValue n v before =>
      if decide (n = name) then
        match enum with
        | Some l =>
            if decide (v ∈ l) then None
            else
              match before with
              | None => Some (Some (l ++ [v]))
              | Some b =>
                  match list_find (fun x => x = b) l with
                  | Some (i, _) => Some (Some (py_insert i v l))
                  | None => None
                  end
              end
        | None => None
        end
      else Some enum
  | _ => Some enum
  end.

Fixpoint pg_enum_run (name : BackendName) (ops : list PgOp)
    (enum : option (list string)) : option (option (list string)) :=
  match ops with
  | [] => Some enum
  | op :: ops' =>
      match pg_enum_step name op enum with
      | Some enum' => pg_enum_run name ops' enum'
      | None => None
      end
  end.

(** The enum type a scalar with the values [values] has in the backend:
    none when it has no values. *)
Definition backend_enum (values : list string) : option (list string) :=
  if bool_decide (values = []) then None else Some values.

End Delta.

(** *** Shared commands of a composite command *)

Module Multicommand.
Import Py.
Import Delta (BackendName).

(** The class of a [dbops] command, by name, and the keyword arguments it
    is built with. *)
Definition CmdType := string.
Definition KwArgs := gmap string bool.

(** A command object built by ``cmdtype(object_name, **cmdkwargs)``; two
    objects are the same object when they have the same identity. *)
Record Command := mkCommand {
  cmd_id : nat;
  cmd_type : CmdType;
  cmd_object_name : BackendName;
  cmd_kwargs : KwArgs;
}.

Global Instance Command_eq_dec : EqDecision Command.
Proof. solve_decision. Defined.

(** ``(object_name, frozenset(cmdkwargs.items()))`` *)
Definition MultiKey := (BackendName * KwArgs)%type.

(** A dictionary in insertion order: ``d.get(k)`` and ``d[k] = v``. *)
Fixpoint odict_get {K V} `{EqDecision K} (k : K) (d : list (K * V))
    : option V :=
  match d with
  | [] => None
  | (k', v) :: d' => if decide (k = k') then Some v else odict_get k d'
  end.

Fixpoint odict_set {K V} `{EqDecision K} (k : K) (v : V) (d : list (K * V))
    : list (K * V) :=
  match d with
  | [] => [(k, v)]
  | (k', v') :: d' =>
      if decide (k = k') then (k, v) :: d'
      else (k', v') :: odict_set k v d'
  end.

(** What the embedded methods use of a [CompositeMetaCommand]: its
    attributes ``table_name``, ``_multicommands`` and ``pgops`` (an
    [OrderedSet]), and the identity the next new object gets. *)
Record Composite := mkComposite {
  table_name : option BackendName;
  _multicommands : gmap CmdType (list (MultiKey * list Command));
  pgops : list Command;
  next_id : nat;
}.

Definition M := Py.M Composite.

Definition get_self : M Composite := fun s => Ok s s.

(** ``self._multicommands[cmdtype] = typecommands`` *)
Definition set_typecommands (cmdtype : CmdType)
    (typecommands : list (MultiKey * list Command)) : M unit :=
  modify (fun s =>
    mkComposite (table_name s)
      (<[cmdtype := typecommands]> (_multicommands s)) (pgops s)
      (next_id s)).

(** ``cmdtype(object_name, **cmdkwargs)``: the [dbops] classes are not among
    the sources; building a command yields a new object. *)
Definition new_command (cmdtype : CmdType) (object_name : BackendName)
    (cmdkwargs : KwArgs) : M Command :=
  fun s =>
    Ok (mkCommand (next_id s) cmdtype object_name cmdkwargs)
      (mkComposite (table_name s) (_multicommands s) (pgops s)
         (S (next_id s))).

(** [_get_multicommand], lines 2278-2305.  The dictionary and the lists it
    holds are shared with ``self._multicommands``, so what the method
    changes in them is written back. *)
Definition _get_multicommand (cmdtype : CmdType) (object_name : BackendName)
    (force_new manual : bool) (cmdkwargs : option KwArgs) : M Command :=
  (let cmdkwargs := default ∅ cmdkwargs in
   let key := (object_name, cmdkwargs) in
   self <- get_self;;
   typecommands <-
     match _multicommands self !! cmdtype with
     | Some typecommands => ret typecommands
     | None => set_typecommands cmdtype [];;; ret []
     end;;
   let commands := odict_get key typecommands in
   if bool_decide (commands = None) || force_new || manual then
     command <- new_command cmdtype object_name cmdkwargs;;
     (if negb manual then
        let commands := default [] (odict_get key typecommands) in
        set_typecommands cmdtype
          (odict_set key (commands ++ [command]) typecommands)
      else ret tt);;;
     ret command
   else
     match commands ≫= last with
     | Some command => ret command
     | None => raise IndexError
     end)%py.

(** Modelled from the spec: ``pgops`` is the ordered output buffer of spec
    4.5, an [ordered.OrderedSet] (line 125) whose class is not among the
    sources; its ``update`` adds the elements that are not yet in the set
    at its end, in order. *)
Definition ordered_update {A} `{EqDecision A} (ops commands : list A)
    : list A :=
  foldl (fun ops c => if decide (c ∈ ops) then ops else ops ++ [c])
    ops commands.

(** ``self.pgops.update(commands)`` *)
Definition pgops_update (commands : list Command) : M unit :=
  modify (fun s =>
    mkComposite (table_name s) (_multicommands s)
      (ordered_update (pgops s) commands) (next_id s)).

(** [_attach_multicommand], lines 2307-2317. *)
Definition _attach_multicommand (cmdtype : CmdType) : M unit :=
  (self <- get_self;;
   match _multicommands self !! cmdtype with
   | None => ret tt
   | Some typecommands =>
       let commands := mjoin (typecommands.*2) in
       if negb (bool_decide (commands = [])) then pgops_update commands
       else ret tt
   end)%py.

(** [get_alter_table], lines 2319-2335; [ctx_tabname] is the backend name of
    ``context.get(self.__class__).scls``, [None] when the context has no
    such entry. *)
Definition get_alter_table (ctx_tabname : option BackendName)
    (force_new contained manual : bool) (table_name_arg : option BackendName)
    : M Command :=
  (self <- get_self;;
   tabname <-
     match table_name_arg with
     | Some t => ret t
     | None =>
         match table_name self with
         | Some t => ret t
         | None =>
             match ctx_tabname with
             | None => raise (AssertionError "ctx")
             | Some t =>
                 modify (fun s =>
                   mkComposite (Some t) (_multicommands s) (pgops s)
                     (next_id s));;;
                 ret t
             end
         end
     end;;
   _get_multicommand "AlterTable" tabname force_new manual
     (Some {["contained" := contained]}))%py.

(** ``tabname`` of lines 2323-2328: the ``table_name`` argument, else the
    name kept in ``self.table_name``, else the name from the context. *)
Definition resolved_table_name (s : Composite)
    (ctx_tabname table_name_arg : option BackendName)
    : option BackendName :=
  match table_name_arg with
  | Some t => Some t
  | None =>
      match table_name s with
      | Some t => Some t
      | None => ctx_tabname
      end
  end.

(** [attach_alter_table], lines 2337-2338. *)
Definition attach_alter_table : M unit := _attach_multicommand "AlterTable".

(** The commands recorded for a class, in the order [_attach_multicommand]
    adds them. *)
Definition recorded (s : Composite) (cmdtype : CmdType) : list Command :=
  mjoin ((default [] (_multicommands s !! cmdtype)).*2).

(** The state [_get_multicommand] keeps: a dictionary holds a key once, no
    list of commands is empty, and every command recorded or attached is
    older than the next new object. *)
Definition well_formed (s : Composite) : Prop :=
  (forall cmdtype typecommands,
      _multicommands s !! cmdtype = Some typecommands ->
      NoDup (typecommands.*1)
      /\ Forall (fun entry =>
                   entry.2 <> []
                   /\ Forall (fun c => cmd_id c < next_id s) entry.2)
           typecommands)
  /\ Forall (fun c => cmd_id c < next_id s) (pgops s).

(** A composite command as [__init__] leaves it, lines 2271-2276. *)
Definition init : Composite := mkComposite None ∅ [] 0.

End Multicommand.

(** ** [edb/ir/ast.py]: pointer and type references *)

Module PointerRefs.
Import irast.

(** [BasePointerRef], lines 188-254, as far as [descendants] reads it: the
    identity of the node and its ``children``. *)
Inductive BasePointerRef :=
| mkPointerRef (ptr_key : Key) (children : list BasePointerRef).

Definition ptr_key (p : BasePointerRef) : Key :=
  match p with mkPointerRef k _ => k end.
Definition children (p : BasePointerRef) : list BasePointerRef :=
  match p with mkPointerRef _ cs => cs end.

(** [BasePointerRef.descendants], lines 247-251; the nodes of the result
    are given by their identities. *)
Fixpoint descendants (p : BasePointerRef) : gset Key :=
  match p with
  | mkPointerRef _ children =>
      foldl (fun res child => res ∪ descendants child)
        (list_to_set (ptr_key <$> children)) children
  end.

(** [q] is a child of [p], or a child of a node below [p]. *)
Inductive below : BasePointerRef -> BasePointerRef -> Prop :=
| below_child q p : q ∈ children p -> below q p
| below_step q c p : c ∈ children p -> below q c -> below q p.

(** ``isinstance(other, self.__class__)`` for two type references:
    [AnyTypeRef] and [AnyTupleRef] are subclasses of [TypeRef], lines
    180-185. *)
Definition isinstance_of_class (other self : TypeRef) : bool :=
  match typeref_cls self, typeref_cls other with
  | PlainTypeRef, _ => true
  | AnyTypeRef, AnyTypeRef => true
  | AnyTupleRef, AnyTupleRef => true
  | _, _ => false
  end.

(** The method [TypeRef.__eq__], lines 170-174, called on another type
    reference, and [TypeRef.__hash__], lines 176-177, for a hash function
    on ids. *)
Definition TypeRef___eq__ (self other : TypeRef) : bool :=
  if negb (isinstance_of_class other self) then false
  else bool_decide (typeref_id self = typeref_id other).

(** ``type(other) is not type(self) and isinstance(other, type(self))`` *)
Definition is_proper_subclass_instance (other self : TypeRef) : bool :=
  match typeref_cls self, typeref_cls other with
  | PlainTypeRef, (AnyTypeRef | AnyTupleRef) => true
  | _, _ => false
  end.

(** ``a == b`` on two type references, which is also the comparison that
    dictionaries and sets make between keys of equal hash.  When the class
    of the right operand is a proper subclass of the class of the left one,
    Python calls the ``__eq__`` of the right operand first; the method
    always answers (it never returns ``NotImplemented``), so its answer is
    the result. *)
Definition TypeRef_eq (a b : TypeRef) : bool :=
  if is_proper_subclass_instance b a then TypeRef___eq__ b a
  else TypeRef___eq__ a b.

Definition TypeRef___hash__ (hash : nat -> Z) (self : TypeRef) : Z :=
  hash (typeref_id self).
End PointerRefs.

(** * Part II: theorems *)

Module InferenceFacts.
Import Py irast Inference.

(** ** Induction over the IR *)

Lemma TypeRef_subtypes_ind (Q : TypeRef -> Prop) :
  (forall cls n id en coll subs,
      Forall Q subs -> Q (mkTypeRef cls n id en coll subs)) ->
  forall t, Q t.
Proof.
  intros step. fix IH 1. intros [cls n id en coll subs].
  apply step. induction subs as [|t subs IHsubs]; constructor.
  - apply IH.
  - exact IHsubs.
Qed.

Lemma Base_children_ind (Q : Base -> Prop) :
  (forall ir, Forall Q (children ir) -> Q ir) -> forall ir, Q ir.
Proof.
  intros step. fix IH 1. intros ir. apply step.
  destruct ir as [| | |n|n| | | | | | | | | | |n r oc| | | |n e a b| |n tr els|n nm els];
    simpl; repeat (constructor; try apply IH).
  - destruct oc as [[e|]|]; repeat (constructor; try apply IH).
  - destruct a, b; simpl; repeat (constructor; try apply IH).
  - induction els as [|x els IHels]; constructor; [apply IH | exact IHels].
  - induction els as [|[k x] els IHels]; constructor; [apply IH | exact IHels].
Qed.

(** ** Properties shared by every computation of the engine

    A property [P] of computations that holds of the primitive accesses and
    is kept by sequencing holds of [infer_type] on every node, whatever the
    schema helpers do. *)

Section Parametric.
Context {Schema : Type} `{SchemaOps Schema}.
Variable P : forall A, M (Schema:=Schema) A -> Prop.
Hypothesis P_ret : forall A (a : A), P A (ret a).
Hypothesis P_raise : forall A e, P A (raise e).
Hypothesis P_bind : forall A B (m : M A) (k : A -> M B),
    P A m -> (forall a, P B (k a)) -> P B (bind m k).
Hypothesis P_get_env : P _ get_env.
Hypothesis P_set_schema : forall s, P _ (set_schema s).
Hypothesis P_set_inferred_type : forall k t, P _ (set_inferred_type k t).
Hypothesis P_amend : forall es t, P _ (amend_empty_set_type es t).

Ltac pstep :=
  first
    [ assumption
    | apply P_ret | apply P_raise | apply P_get_env | apply P_set_schema
    | apply P_set_inferred_type | apply P_amend
    | apply P_bind; [|intros ?]
    | match goal with
      | |- P _ (match ?x with _ => _ end) => destruct x
      end ].
Ltac psolve := repeat pstep.

Lemma P_get_schema : P _ get_schema.
Proof. unfold get_schema. psolve. Qed.

Lemma P_with_schema A (f : Schema -> Schema * A) : P _ (with_schema f).
Proof. unfold with_schema. pose proof P_get_schema. psolve. Qed.

Lemma P_lift A (r : Exn + A) : P _ (lift r).
Proof. unfold lift. psolve. Qed.

Lemma P_env_schema_get n : P _ (env_schema_get n).
Proof.
  unfold env_schema_get. apply P_bind; [apply P_get_schema|].
  intros s. apply P_lift.
Qed.

Lemma P_set_types_getitem k : P _ (set_types_getitem k).
Proof. unfold set_types_getitem. psolve. Qed.

Ltac pauto :=
  repeat first
    [ apply P_lift | apply P_get_schema | apply P_with_schema
    | apply P_env_schema_get | apply P_set_types_getitem | pstep ];
  auto.

Lemma P_infer_type_memo n body :
  P _ body -> P _ (infer_type_memo n body).
Proof. intros Hbody. unfold infer_type_memo. pauto. Qed.

Lemma P_for_each A (xs : list A) (body : A -> M (Schema:=Schema) unit) :
  (forall x, P _ (body x)) -> P _ (for_each xs body).
Proof. intros Hbody. induction xs; simpl; pauto. Qed.

Section WithTypeRefs.
Variable rec : TypeRef -> M (Schema:=Schema) Ty.

Lemma P_map_m (ts : list TypeRef) :
  Forall (fun t => P _ (rec t)) ts -> P _ (map_m rec ts).
Proof. induction 1; simpl; pauto. Qed.

Lemma P_named_eltypes (ts : list TypeRef) acc :
  Forall (fun t => P _ (rec t)) ts -> P _ (named_eltypes rec ts acc).
Proof.
  intros Hts. revert acc. induction Hts; intros acc; simpl; pauto.
Qed.

Lemma P_indexed_eltypes (ts : list TypeRef) i acc :
  Forall (fun t => P _ (rec t)) ts ->
  P _ (indexed_eltypes rec i ts acc).
Proof.
  intros Hts. revert i acc.
  induction Hts; intros i acc; simpl; pauto.
Qed.

Lemma P___infer_typeref id coll (ts : list TypeRef) :
  Forall (fun t => P _ (rec t)) ts ->
  P _ (__infer_typeref rec id coll ts).
Proof.
  intros Hts. unfold __infer_typeref.
  pose proof P_get_schema. pose proof P_lift.
  pose proof (P_map_m _ Hts).
  pose proof (fun acc => P_named_eltypes _ acc Hts).
  pose proof (fun i acc => P_indexed_eltypes _ i acc Hts).
  pauto.
Qed.
End WithTypeRefs.

Lemma P_infer_typeref t : P _ (infer_typeref t).
Proof.
  induction t as [cls n id en coll subs IH] using TypeRef_subtypes_ind.
  simpl. apply P_infer_type_memo. destruct cls; [|pauto..].
  by apply P___infer_typeref.
Qed.

Section WithNodes.
Variable rec : Base -> M (Schema:=Schema) Ty.

Lemma P_is_untyped_empty arg : P _ (is_untyped_empty arg).
Proof.
  unfold is_untyped_empty. pose proof P_set_types_getitem.
  pauto.
Qed.

Lemma P_collect_types i irs p :
  Forall (fun ir => P _ (rec ir)) irs -> P _ (collect_types rec i irs p).
Proof.
  intros Hirs. revert i p.
  pose proof P_is_untyped_empty.
  induction Hirs as [|arg irs Harg _ IH]; intros i p; simpl; pauto.
Qed.

Lemma P_fold_common_type c it : P _ (fold_common_type c it).
Proof.
  revert c. induction it as [|t it IH]; intros c; simpl; pauto.
Qed.

Lemma P_amend_empties irs es c : P _ (amend_empties irs es c).
Proof. unfold amend_empties. apply P_for_each. intros i. pauto. Qed.

Lemma P__infer_common_type irs :
  Forall (fun ir => P _ (rec ir)) irs -> P _ (_infer_common_type rec irs).
Proof.
  intros Hirs. unfold _infer_common_type.
  destruct irs as [|first rest]; [psolve|].
  apply P_bind; [by apply P_collect_types|]. intros p.
  pose proof P_fold_common_type. pose proof P_amend_empties.
  pose proof P_get_schema.
  pauto.
Qed.

Lemma P___infer_type_introspection n tr :
  P _ (__infer_type_introspection n tr).
Proof.
  unfold __infer_type_introspection. pose proof P_env_schema_get.
  pauto.
Qed.

Lemma P___infer_from_typeref tr : P _ (__infer_from_typeref tr).
Proof.
  unfold __infer_from_typeref. pose proof P_with_schema.
  pauto.
Qed.

Lemma P__infer_binop_args l r :
  P _ (rec l) -> P _ (rec r) -> P _ (_infer_binop_args rec l r).
Proof. intros Hl Hr. unfold _infer_binop_args. pauto. Qed.

Lemma P___infer_typecheckop l r :
  P _ (rec l) -> P _ (rec r) -> P _ (__infer_typecheckop rec l r).
Proof.
  intros Hl Hr. unfold __infer_typecheckop.
  pose proof (P__infer_binop_args _ _ Hl Hr).
  pose proof P_env_schema_get. pauto.
Qed.

Lemma P___infer_insert_stmt n irs :
  Forall (fun ir => P _ (rec ir)) irs ->
  P _ (__infer_insert_stmt rec n irs).
Proof.
  intros Hirs. unfold __infer_insert_stmt.
  pose proof (P__infer_common_type _ Hirs). pauto.
Qed.

Lemma P_check_slice_index base_name int_t ix :
  from_option (fun ir => P _ (rec ir)) True ix ->
  P _ (check_slice_index rec base_name int_t ix).
Proof.
  intros Hix. unfold check_slice_index. pose proof P_get_schema.
  destruct ix; simpl in Hix; pauto.
Qed.

Lemma P___infer_slice e a b :
  P _ (rec e) ->
  from_option (fun ir => P _ (rec ir)) True a ->
  from_option (fun ir => P _ (rec ir)) True b ->
  P _ (__infer_slice rec e a b).
Proof.
  intros He Ha Hb. unfold __infer_slice.
  pose proof P_env_schema_get. pose proof P_get_schema.
  pose proof (fun n t => P_check_slice_index n t _ Ha).
  pose proof (fun n t => P_check_slice_index n t _ Hb).
  pauto.
Qed.

Lemma P___infer_index e i :
  P _ (rec e) -> P _ (rec i) -> P _ (__infer_index rec e i).
Proof.
  intros He Hi. unfold __infer_index.
  pose proof P_env_schema_get. pose proof P_get_schema.
  pauto.
Qed.

Lemma P___infer_array n tr els :
  Forall (fun ir => P _ (rec ir)) els -> P _ (__infer_array rec n tr els).
Proof.
  intros Hels. unfold __infer_array.
  pose proof (P__infer_common_type _ Hels).
  pose proof P___infer_from_typeref. pose proof P_get_schema.
  destruct tr; [auto|]. destruct els; pauto.
Qed.

Lemma P_tuple_element_types (els : list (string * Base)) acc :
  Forall (fun el => P _ (rec el.2)) els ->
  P _ (tuple_element_types rec els acc).
Proof.
  intros Hels. revert acc.
  induction Hels; intros acc; simpl; pauto.
Qed.

Lemma P___infer_tuple named (els : list (string * Base)) :
  Forall (fun el => P _ (rec el.2)) els ->
  P _ (__infer_tuple rec named els).
Proof.
  intros Hels. unfold __infer_tuple.
  pose proof (fun acc => P_tuple_element_types _ acc Hels).
  pose proof P_get_schema. pauto.
Qed.

Lemma P___infer_typecast n tr : P _ (__infer_typecast n tr).
Proof.
  unfold __infer_typecast. pose proof (P_infer_typeref tr).
  pose proof P_get_schema. pauto.
Qed.

Lemma P___infer_child ir : P _ (rec ir) -> P _ (__infer_child rec ir).
Proof. intros Hir. unfold __infer_child. pauto. Qed.
End WithNodes.

Theorem P_infer_type ir : P _ (infer_type ir).
Proof.
  induction ir as [ir IH] using Base_children_ind.
  destruct ir; simpl in *;
    try (apply P_infer_type_memo);
    repeat match goal with
      | H : Forall _ (_ :: _) |- _ =>
          apply Forall_cons in H; destruct H
      end;
    first
      [ apply P_raise
      | by apply P___infer_child
      | apply P_set_types_getitem
      | apply P___infer_type_introspection
      | apply P___infer_from_typeref
      | by apply P___infer_typecheckop
      | apply P_infer_typeref
      | apply P___infer_typecast
      | by apply P___infer_index
      | by apply P___infer_array
      | apply P_ret
      | idtac ].
  - (* InsertStmt *)
    destruct on_conflict as [[e|]|]; simpl in IH;
      repeat match goal with
        | H : Forall _ (_ :: _) |- _ =>
            apply Forall_cons in H; destruct H
        end;
      apply P___infer_insert_stmt; repeat constructor; assumption.
  - (* SliceIndirection *)
    destruct start, stop; simpl in *;
      repeat match goal with
        | H : Forall _ (_ :: _) |- _ =>
            apply Forall_cons in H; destruct H
        end;
      apply P___infer_slice; simpl; auto.
  - (* Tuple *)
    apply P___infer_tuple. apply Forall_forall. intros el Hel.
    eapply Forall_forall in IH; [exact IH|].
    apply list_elem_of_fmap. by exists el.
Qed.
End Parametric.

(** ** Running a computation *)

Section Runs.
Context {Schema : Type} `{SchemaOps Schema}.
Implicit Types st : State (Schema:=Schema).

Lemma bind_Ok {A B} (m : M A) (k : A -> M B) st a st' :
  m st = Ok a st' -> bind m k st = k a st'.
Proof. unfold bind. by intros ->. Qed.

Lemma bind_Raise {A B} (m : M A) (k : A -> M B) st e :
  m st = Raise e -> bind m k st = Raise e.
Proof. unfold bind. by intros ->. Qed.

Lemma bind_inv {A B} (m : M A) (k : A -> M B) st b st'' :
  bind m k st = Ok b st'' ->
  exists a st', m st = Ok a st' /\ k a st' = Ok b st''.
Proof. unfold bind. destruct (m st) as [a st'|e]; [eauto|done]. Qed.

Lemma later_refl st : later st st.
Proof. repeat split; eauto. Qed.

Lemma later_trans st1 st2 st3 :
  later st1 st2 -> later st2 st3 -> later st1 st3.
Proof.
  intros (Ht1 & Hp1 & Hb1) (Ht2 & Hp2 & Hb2). repeat split.
  - intros k t Hk. destruct (Ht1 _ _ Hk) as [t' Hk']. eauto.
  - intros k p Hk. destruct (Hp1 _ _ Hk) as (p' & Hk' & Hn & Hns).
    destruct (Hp2 _ _ Hk') as (p'' & Hk'' & Hn' & Hns').
    exists p''. split; [done|]. split; congruence.
  - eauto.
Qed.

(** A change of the environment that leaves ``set_types`` alone. *)
Lemma later_env st e :
  set_types e = set_types (env st) -> later st (mkState e (path_id st)).
Proof. intros He. repeat split; simpl; [rewrite He|..]; eauto. Qed.

Lemma amend_Ok (es : Node) t st p :
  path_id st !! key es = Some p ->
  exists st',
    amend_empty_set_type es t st = Ok tt st'
    /\ set_types (env st') = <[key es := Some t]> (set_types (env st))
    /\ inferred_types (env st') = inferred_types (env st)
    /\ schema (env st') = schema (env st)
    /\ path_id st'
       = <[key es :=
             PathId_from_type t
               (mkQualName "__derived__" (name (target_name_hint p)))
               (namespace p)]> (path_id st).
Proof.
  intros Hp. unfold amend_empty_set_type. rewrite Hp. eauto 10.
Qed.

Lemma amend_inv (es : Node) t st st' :
  amend_empty_set_type es t st = Ok tt st' ->
  exists p,
    path_id st !! key es = Some p
    /\ set_types (env st') = <[key es := Some t]> (set_types (env st))
    /\ path_id st'
       = <[key es :=
             PathId_from_type t
               (mkQualName "__derived__" (name (target_name_hint p)))
               (namespace p)]> (path_id st).
Proof.
  unfold amend_empty_set_type.
  destruct (path_id st !! key es) as [p|] eqn:Hp; [|done].
  intros [= <-]. eauto.
Qed.

Lemma amend_later (es : Node) t st st' :
  amend_empty_set_type es t st = Ok tt st' -> later st st'.
Proof.
  intros (p & Hp & Hst & Hpid)%amend_inv. repeat split.
  - intros k t0 Hk. rewrite Hst.
    destruct (decide (key es = k)) as [<-|Hne].
    + rewrite lookup_insert_eq. eauto.
    + rewrite lookup_insert_ne by done. eauto.
  - intros k p0 Hk. rewrite Hpid.
    destruct (decide (key es = k)) as [<-|Hne].
    + rewrite lookup_insert_eq. eexists. split; [done|].
      assert (p0 = p) as -> by congruence. done.
    + rewrite lookup_insert_ne by done. eauto.
  - intros k. rewrite Hpid.
    destruct (decide (key es = k)) as [<-|Hne].
    + by rewrite Hp.
    + by rewrite lookup_insert_ne.
Qed.

(** Every successful run of [infer_type] ends in a later state. *)
Lemma infer_type_later ir st t st' :
  infer_type ir st = Ok t st' -> later st st'.
Proof.
  revert st t st'.
  apply (P_infer_type
           (fun A (m : M A) => forall st a st', m st = Ok a st' -> later st st')).
  - intros A a st a' st' [= _ <-]. apply later_refl.
  - done.
  - intros A B m k Hm Hk st b st''
      (a & st' & Hrun & Hrest)%bind_inv.
    eapply later_trans; eauto.
  - intros st a st' [= _ <-]. apply later_refl.
  - intros s st [] st' [= <-]. by apply later_env.
  - intros k t st [] st' [= <-]. by apply later_env.
  - intros es t st [] st'. apply amend_later.
Qed.

Lemma same_env_refl st : same_env st st.
Proof. done. Qed.

Lemma same_env_lookup st1 st2 k :
  same_env st1 st2 ->
  is_Some (path_id st1 !! k) <-> is_Some (path_id st2 !! k).
Proof. intros [_ Hdom]. by rewrite <-!elem_of_dom, Hdom. Qed.

(** Two runs of [infer_type] from states with the same environment have
    the same outcome, whatever path ids the nodes carry. *)
Lemma infer_type_same_outcome ir st1 st2 :
  same_env st1 st2 -> same_outcome (infer_type ir st1) (infer_type ir st2).
Proof.
  revert st1 st2.
  apply (P_infer_type
           (fun A (m : M A) =>
              forall st1 st2, same_env st1 st2 -> same_outcome (m st1) (m st2))).
  - by intros A a st1 st2 Hst.
  - by intros A e st1 st2 Hst.
  - intros A B m k Hm Hk st1 st2 Hst. specialize (Hm _ _ Hst).
    unfold bind, same_outcome in *.
    destruct (m st1) as [a1 st1'|e1], (m st2) as [a2 st2'|e2]; try done.
    destruct Hm as [-> Hst']. by apply Hk.
  - intros st1 st2 Hst. split; [apply Hst|done].
  - intros s st1 st2 [He Hd]. unfold set_schema. simpl.
    split; [done|]. split; simpl; [by rewrite He|done].
  - intros k t st1 st2 [He Hd]. unfold set_inferred_type. simpl.
    split; [done|]. split; simpl; [by rewrite He|done].
  - intros es t st1 st2 Hst. unfold amend_empty_set_type.
    pose proof (same_env_lookup _ _ (key es) Hst) as Hk.
    destruct Hst as [He Hd].
    destruct (path_id st1 !! key es) as [p1|] eqn:H1,
             (path_id st2 !! key es) as [p2|] eqn:H2; simpl.
    + split; [done|]. split; simpl; [by rewrite He|].
      by rewrite !dom_insert_L, Hd.
    + destruct Hk as [Hk _]. destruct Hk; eauto; done.
    + destruct Hk as [_ Hk]. destruct Hk; eauto; done.
    + done.
Qed.

(** What a successful run of [infer_type] leaves in the memo table. *)
Lemma infer_type_memo_recorded (n : Node) body st t st' :
  infer_type_memo n body st = Ok t st' ->
  inferred_types (env st') !! key n = Some t.
Proof.
  unfold infer_type_memo, bind, get_env.
  destruct (inferred_types (env st) !! key n) as [r|] eqn:Hm.
  - by intros [= <- <-].
  - destruct (body st) as [[r|] st1|e]; try done.
    unfold set_inferred_type, ret. intros [= <- <-]. simpl.
    apply lookup_insert_eq.
Qed.

Lemma infer_type_memo_hit (n : Node) body st t :
  inferred_types (env st) !! key n = Some t ->
  infer_type_memo n body st = Ok t st.
Proof. intros Hm. unfold infer_type_memo, bind, get_env. by rewrite Hm. Qed.

Lemma infer_type_recorded ir st t st' :
  infer_type ir st = Ok t st' ->
  exists n, node_of ir = Some n /\ inferred_types (env st') !! key n = Some t.
Proof.
  destruct ir; simpl; try done;
    try (intros Hrun%infer_type_memo_recorded; eauto).
  destruct t0 as [cls n id en coll subs]. simpl.
  intros Hrun%infer_type_memo_recorded; eauto.
Qed.

Lemma infer_type_hit ir n st t :
  node_of ir = Some n ->
  inferred_types (env st) !! key n = Some t ->
  infer_type ir st = Ok t st.
Proof.
  destruct ir; simpl; try done;
    try (intros [= <-] Hm; by apply infer_type_memo_hit).
  destruct t0 as [cls n' id en coll subs]. simpl.
  intros [= <-] Hm. by apply infer_type_memo_hit.
Qed.
Lemma infer_type_memo_miss (n : Node) body st t st1 :
  inferred_types (env st) !! key n = None ->
  body st = Ok (Some t) st1 ->
  exists st', infer_type_memo n body st = Ok t st'
              /\ set_types (env st') = set_types (env st1)
              /\ path_id st' = path_id st1.
Proof.
  intros Hm Hb. unfold infer_type_memo, bind, get_env.
  rewrite Hm, Hb. unfold set_inferred_type, ret. eauto.
Qed.

Lemma infer_type_memo_raise (n : Node) body st e :
  inferred_types (env st) !! key n = None ->
  body st = Raise e ->
  infer_type_memo n body st = Raise e.
Proof.
  intros Hm Hb. unfold infer_type_memo, bind, get_env. by rewrite Hm, Hb.
Qed.

Lemma get_schema_Ok st : get_schema st = Ok (schema (env st)) st.
Proof. done. Qed.

Lemma env_schema_get_Ok n st t :
  schema_get (schema (env st)) n = inr t -> env_schema_get n st = Ok t st.
Proof.
  intros Hg. unfold env_schema_get. rewrite (bind_Ok _ _ _ _ _ (get_schema_Ok st)).
  by rewrite Hg.
Qed.

(** *** The partition loop of [_infer_common_type] *)

Lemma is_untyped_empty_inv arg st b st' :
  is_untyped_empty arg st = Ok b st' ->
  st' = st
  /\ (b = true <->
      exists n, arg = EmptySet n
                /\ set_types (env st) !! key n = Some None).
Proof.
  unfold is_untyped_empty.
  destruct arg;
    try (intros [= <- <-]; split; [done|];
         split; [done|intros (? & ? & _); done]).
  unfold set_types_getitem, bind, get_env.
  destruct (set_types (env st) !! key n) as [[t|]|] eqn:Hk; [| |done].
  - intros [= <- <-]. split; [done|]. split; [done|].
    intros (n' & [= <-] & Hn). congruence.
  - intros [= <- <-]. split; [done|]. split; [eauto|done].
Qed.

Lemma types_add_type t p : types (add_type t p) = types p ++ [t].
Proof. unfold add_type. by repeat case_match. Qed.

Lemma empties_add_type t p : empties (add_type t p) = empties p.
Proof. unfold add_type. by repeat case_match. Qed.

Lemma examined_untyped_cons arg irs st st' j :
  examined_untyped irs st st' j ->
  examined_untyped (arg :: irs) st st' (S j).
Proof. intros (n & st_j & ?). by exists n, st_j. Qed.

Lemma examined_untyped_earlier irs st0 st st' j :
  later st0 st -> examined_untyped irs st st' j ->
  examined_untyped irs st0 st' j.
Proof.
  intros H0 (n & st_j & Hj & H1 & H2 & Hn). exists n, st_j.
  split; [done|]. split; [by eapply later_trans|]. by split.
Qed.

(** What the loop of lines 73-85 computes from index [i] on: the indices
    it adds to ``empties`` are positions where it found an [EmptySet]
    with no type recorded, every other argument contributes the type
    [infer_type] returns for it. *)
Lemma collect_types_spec irs i p st p' st' :
  collect_types infer_type i irs p st = Ok p' st' ->
  later st st'
  /\ exists new more,
      empties p' = empties p ++ new
      /\ types p' = types p ++ more
      /\ length more + length new = length irs
      /\ (forall j, j ∈ new ->
            i <= j /\ examined_untyped irs st st' (j - i))
      /\ (forall j n,
            irs !! j = Some (EmptySet n) -> i + j ∉ new ->
            exists t st_a st_b,
              later st st_a
              /\ infer_type (EmptySet n) st_a = Ok t st_b
              /\ t ∈ more).
Proof.
  revert i p st.
  induction irs as [|arg irs IH]; intros i p st; simpl.
  - intros [= <- <-]. split; [apply later_refl|].
    exists [], []. rewrite !app_nil_r. split_and!; try done.
    intros j Hj. by apply elem_of_nil in Hj.
  - intros (b & st0 & Hb & Hrest)%bind_inv.
    apply is_untyped_empty_inv in Hb as [-> Hb].
    destruct b.
    + destruct Hb as [(n & -> & Hn) _]; [done|].
      apply IH in Hrest
        as (Hlater & new & more & He & Ht & Hlen & Hnew & Htyped).
      split; [done|]. exists (i :: new), more. simpl in He.
      rewrite <-app_assoc in He. split_and!; try done.
      * simpl. lia.
      * intros j [->|Hj]%elem_of_cons.
        -- split; [lia|]. replace (i - i) with 0 by lia.
           exists n, st. split_and!; auto using later_refl.
        -- destruct (Hnew _ Hj) as [Hle Hex]. split; [lia|].
           replace (j - i) with (S (j - S i)) by lia.
           by apply examined_untyped_cons.
      * intros [|j] n0 Hj Hnotin.
        -- exfalso. apply Hnotin. rewrite Nat.add_0_r. left.
        -- simpl in Hj. apply (Htyped j n0 Hj). intros Hin.
           apply Hnotin. right.
           by replace (i + S j) with (S i + j) by lia.
    + apply bind_inv in Hrest as (t & st1 & Hrun & Hrest).
      pose proof (infer_type_later _ _ _ _ Hrun) as Hl1.
      apply IH in Hrest
        as (Hlater & new & more & He & Ht & Hlen & Hnew & Htyped).
      split; [by eapply later_trans|]. exists new, (t :: more).
      rewrite empties_add_type in He. rewrite types_add_type in Ht.
      rewrite <-app_assoc in Ht. split_and!; try done.
      * simpl. lia.
      * intros j Hj. destruct (Hnew _ Hj) as [Hle Hex]. split; [lia|].
        replace (j - i) with (S (j - S i)) by lia.
        apply examined_untyped_cons.
        by eapply examined_untyped_earlier.
      * intros [|j] n0 Hj Hnotin.
        -- simpl in Hj. injection Hj as ->.
           exists t, st, st1. split_and!; auto using later_refl. left.
        -- simpl in Hj.
           destruct (Htyped j n0 Hj) as (t' & st_a & st_b & Ha & Hr & Hin).
           { by replace (S i + j) with (i + S j) by lia. }
           exists t', st_a, st_b.
           split_and!; eauto using later_trans. by right.
Qed.

(** *** The rest of [_infer_common_type] *)

Lemma with_schema_inv {A} (f : Schema -> Schema * A) st a st' :
  with_schema f st = Ok a st' ->
  set_types (env st') = set_types (env st)
  /\ inferred_types (env st') = inferred_types (env st)
  /\ path_id st' = path_id st.
Proof.
  unfold with_schema, bind, get_schema, bind, get_env, ret, set_schema.
  destruct (f (schema (env st))) as [s' a']. by intros [= _ <-].
Qed.

Lemma fold_common_type_frame c it st r st' :
  fold_common_type c it st = Ok r st' ->
  set_types (env st') = set_types (env st) /\ path_id st' = path_id st.
Proof.
  revert c st. induction it as [|t it IH]; intros c st; simpl.
  - by intros [= _ <-].
  - intros ([c'|] & st1 & (Hs & _ & Hp)%with_schema_inv & Hrest)%bind_inv.
    + apply IH in Hrest as [Hs' Hp']. split; congruence.
    + injection Hrest as _ <-. done.
Qed.

Lemma amend_empties_cons_inv irs j es c st st' :
  amend_empties irs (j :: es) c st = Ok tt st' ->
  exists ir n st1,
    irs !! j = Some ir /\ node_of ir = Some n
    /\ amend_empty_set_type n c st = Ok tt st1
    /\ amend_empties irs es c st1 = Ok tt st'.
Proof.
  unfold amend_empties. simpl.
  intros ([] & st1 & Hfirst & Hrest)%bind_inv.
  destruct (irs !! j) as [ir|]; [|done].
  destruct (node_of ir) as [n|] eqn:Hn; [|done]. by exists ir, n, st1.
Qed.

Lemma amend_empties_frame irs es c st st' k :
  amend_empties irs es c st = Ok tt st' ->
  (forall j ir n,
      j ∈ es -> irs !! j = Some ir -> node_of ir = Some n -> key n <> k) ->
  set_types (env st') !! k = set_types (env st) !! k
  /\ path_id st' !! k = path_id st !! k.
Proof.
  revert st. induction es as [|j es IH]; intros st.
  - by intros [= <-].
  - intros (ir & n & st1 & Hj & Hn & Ham & Hrest)%amend_empties_cons_inv
      Hne.
    apply amend_inv in Ham as (p0 & Hp0 & Hs & Hp).
    apply IH in Hrest as [-> ->].
    + rewrite Hs, Hp.
      assert (key n <> k) by (eapply Hne; [left|done..]).
      by rewrite !lookup_insert_ne.
    + intros j' ir' n' Hj'. apply Hne. by right.
Qed.

Lemma rederived_rebase t p p0 st k :
  name (target_name_hint p) = name (target_name_hint p0) ->
  namespace p = namespace p0 ->
  rederived t p st k -> rederived t p0 st k.
Proof.
  intros Hn Hns (p' & Hk & Ht & Hm & Hn' & Hns'). exists p'.
  split_and!; congruence.
Qed.

Lemma amend_keeps_rederived (n : Node) c st st1 k p :
  amend_empty_set_type n c st = Ok tt st1 ->
  set_types (env st) !! k = Some (Some c) -> rederived c p st k ->
  set_types (env st1) !! k = Some (Some c) /\ rederived c p st1 k.
Proof.
  intros (p0 & Hp0 & Hs & Hp)%amend_inv Hk (p' & Hk' & Ht & Hm & Hn & Hns).
  rewrite Hs. unfold rederived. rewrite Hp.
  destruct (decide (key n = k)) as [<-|Hne].
  - rewrite !lookup_insert_eq. split; [done|]. eexists. split; [done|].
    assert (p' = p0) as -> by congruence. simpl. by split_and!.
  - rewrite !lookup_insert_ne by done. split; [done|]. exists p'.
    by split_and!.
Qed.

Lemma amend_empties_keeps_rederived irs es c st st' k p :
  amend_empties irs es c st = Ok tt st' ->
  set_types (env st) !! k = Some (Some c) -> rederived c p st k ->
  set_types (env st') !! k = Some (Some c) /\ rederived c p st' k.
Proof.
  revert st. induction es as [|j es IH]; intros st.
  - by intros [= <-].
  - intros (ir & n & st1 & _ & _ & Ham & Hrest)%amend_empties_cons_inv
      Hk Hr.
    destruct (amend_keeps_rederived _ _ _ _ _ _ Ham Hk Hr). eauto.
Qed.

(** After the loop of lines 124-126 every [EmptySet] at an index of
    ``empties`` has the common type in ``set_types`` and a path id
    re-derived from the one it had before the loop. *)
Lemma amend_empties_spec irs es c st st' :
  amend_empties irs es c st = Ok tt st' ->
  forall j n,
    j ∈ es -> irs !! j = Some (EmptySet n) ->
    set_types (env st') !! key n = Some (Some c)
    /\ exists p, path_id st !! key n = Some p
                 /\ rederived c p st' (key n).
Proof.
  revert st. induction es as [|j0 es IH]; intros st.
  - intros _ j n Hj. by apply elem_of_nil in Hj.
  - intros (ir & n0 & st1 & Hj0 & Hn0 & Ham & Hrest)%amend_empties_cons_inv
      j n [->|Hj]%elem_of_cons Hn.
    + rewrite Hj0 in Hn. injection Hn as ->. injection Hn0 as ->.
      pose proof Ham as (p0 & Hp0 & Hs & Hp)%amend_inv.
      assert (set_types (env st1) !! key n0 = Some (Some c)) as Hk.
      { rewrite Hs. apply lookup_insert_eq. }
      assert (rederived c p0 st1 (key n0)) as Hr.
      { eexists. rewrite Hp, lookup_insert_eq. by split_and!. }
      destruct (amend_empties_keeps_rederived _ _ _ _ _ _ _ Hrest Hk Hr).
      eauto.
    + destruct (IH _ Hrest j n Hj Hn) as (Hk & p1 & Hp1 & Hr).
      split; [done|].
      apply amend_inv in Ham as (p0 & Hp0 & Hs & Hp).
      rewrite Hp in Hp1.
      destruct (decide (key n0 = key n)) as [Heq|Hne].
      * rewrite Heq, lookup_insert_eq in Hp1. injection Hp1 as <-.
        exists p0. split; [congruence|].
        by eapply rederived_rebase; [..|exact Hr].
      * rewrite lookup_insert_ne in Hp1 by done. eauto.
Qed.

(** The two phases of a run of [_infer_common_type] that returns: the
    partition loop, then (after a fold that leaves ``set_types`` and the
    path ids alone) the amendment of the arguments found empty. *)
Lemma _infer_common_type_inv irs st r st' :
  _infer_common_type infer_type irs st = Ok r st' ->
  exists p st1 st2,
    collect_types infer_type 0 irs (mkPartition [] [] false false false) st
    = Ok p st1
    /\ set_types (env st2) = set_types (env st1)
    /\ path_id st2 = path_id st1
    /\ match r with
       | Some c => amend_empties irs (empties p) c st2 = Ok tt st'
       | None => st' = st2
       end.
Proof.
  unfold _infer_common_type. destruct irs as [|first rest]; [done|].
  intros (p & st1 & Hcollect & Hrest)%bind_inv.
  exists p, st1. destruct (decide (1 < seen_count p)); [done|].
  destruct (types p) as [|t0 it]; [done|].
  apply bind_inv in Hrest as (common & st2 & Hfold & Hrest).
  exists st2. split; [done|].
  assert (set_types (env st2) = set_types (env st1)
          /\ path_id st2 = path_id st1) as [Hs Hp].
  { destruct (seen_scalar p || seen_coll p).
    - by eapply fold_common_type_frame.
    - by injection Hfold as _ <-. }
  split_and!; try done. destruct common as [c|].
  - apply bind_inv in Hrest as ([] & st3 & Ham & Hret).
    by injection Hret as <- <-.
  - by injection Hrest as <- <-.
Qed.

End Runs.

Ltac run_with H := rewrite (bind_Ok _ _ _ _ _ H); cbv beta.

(** ** What inference can amend

    [infer_type] writes ``set_types`` only through [amend_empty_set_type],
    and only for [EmptySet] nodes below the node it is called on. *)

Section Frame.
Context {Schema : Type} `{SchemaOps Schema}.
Implicit Types st : State (Schema:=Schema).
#[local] Abbreviation keeps_set_type := (keeps_set_type (Schema:=Schema)).

Lemma keeps_ret k A (a : A) : keeps_set_type k A (ret a).
Proof. by intros st a' st' [= _ <-]. Qed.

Lemma keeps_raise k A e : keeps_set_type k A (raise e).
Proof. done. Qed.

Lemma keeps_bind k A B (m : M A) (f : A -> M B) :
  keeps_set_type k A m -> (forall a, keeps_set_type k B (f a)) ->
  keeps_set_type k B (bind m f).
Proof.
  intros Hm Hf st b st'' (a & st' & Hrun & Hrest)%bind_inv.
  rewrite (Hf _ _ _ _ Hrest). by eapply Hm.
Qed.

Lemma keeps_get_env k : keeps_set_type k _ get_env.
Proof. by intros st a st' [= _ <-]. Qed.

Lemma keeps_set_schema k s : keeps_set_type k _ (set_schema s).
Proof. by intros st [] st' [= <-]. Qed.

Lemma keeps_set_inferred_type k k' t :
  keeps_set_type k _ (set_inferred_type k' t).
Proof. by intros st [] st' [= <-]. Qed.

Lemma keeps_amend k (es : Node) t :
  key es <> k -> keeps_set_type k _ (amend_empty_set_type es t).
Proof.
  intros Hne st [] st' (p & _ & -> & _)%amend_inv.
  by rewrite lookup_insert_ne.
Qed.

Create HintDb keeps.
#[local] Hint Resolve keeps_ret keeps_raise keeps_bind keeps_get_env keeps_set_schema
  keeps_set_inferred_type : keeps.

Lemma keeps__infer_binop_args k l r :
  keeps_set_type k _ (infer_type l) -> keeps_set_type k _ (infer_type r) ->
  (forall n, l = EmptySet n \/ r = EmptySet n -> key n <> k) ->
  keeps_set_type k _ (_infer_binop_args infer_type l r).
Proof.
  intros Hl Hr Hne. unfold _infer_binop_args.
  repeat first
    [ apply keeps_bind; [|intros ?]
    | apply keeps_ret | apply keeps_raise | assumption
    | apply keeps_amend; apply Hne; auto
    | match goal with
      | |- keeps_set_type _ _ (match ?x with _ => _ end) =>
          destruct x eqn:?
      | |- keeps_set_type _ _ (if ?x then _ else _) => destruct x eqn:?
      end ].
Qed.

Lemma keeps__infer_common_type k irs :
  Forall (fun ir => keeps_set_type k _ (infer_type ir)) irs ->
  (forall n, EmptySet n ∈ irs -> key n <> k) ->
  keeps_set_type k _ (_infer_common_type infer_type irs).
Proof.
  intros Hirs Hne st r st' Hrun.
  apply _infer_common_type_inv in Hrun
    as (p & st1 & st2 & Hcollect & Hs & _ & Ham).
  assert (set_types (env st1) !! k = set_types (env st) !! k) as <-.
  { eapply (P_collect_types (keeps_set_type k)); eauto with keeps. }
  rewrite <-Hs. destruct r as [c|]; [|by subst].
  eapply amend_empties_frame; [exact Ham|].
  intros j ir n Hj Hir Hn.
  destruct (collect_types_spec _ _ _ _ _ _ Hcollect)
    as (_ & new & more & He & _ & _ & Hnew & _).
  simpl in He. subst new. destruct (Hnew _ Hj) as [_ Hex].
  rewrite Nat.sub_0_r in Hex.
  destruct Hex as (n' & _ & Hj' & _). rewrite Hir in Hj'.
  injection Hj' as ->. injection Hn as ->. apply Hne.
  by eapply list_elem_of_lookup_2.
Qed.

Lemma elem_of_empty_sets_in_child k c ir :
  c ∈ children ir -> k ∈ empty_sets_in c -> k ∈ empty_sets_in ir.
Proof.
  intros Hc Hk.
  destruct ir as [| | | | | | | | | | | | | | |n r oc| | | |n e a b| |n tr els|n nm els];
    simpl in *;
    try destruct oc as [[e2|]|]; try destruct a as [a2|]; try destruct b as [b2|];
    simpl in *;
    repeat match goal with
      | H : _ ∈ _ :: _ |- _ => apply elem_of_cons in H as [->|H]
      | H : _ ∈ [] |- _ => by apply elem_of_nil in H
      end;
    rewrite ?app_nil_r, ?elem_of_app; auto.
  - apply list_elem_of_join. exists (empty_sets_in c).
    split; [done|]. apply list_elem_of_fmap. by exists c.
  - apply list_elem_of_fmap in Hc as ([nm' c'] & -> & Hc).
    apply list_elem_of_join. exists (empty_sets_in c'). split; [done|].
    apply list_elem_of_fmap. by exists (nm', c').
Qed.

(** [infer_type] leaves ``set_types[k]`` alone unless [k] is an
    [EmptySet] below the node. *)
Lemma infer_type_keeps_set_type ir k :
  (is_EmptySet ir = false -> k ∉ empty_sets_in ir) ->
  keeps_set_type k _ (infer_type ir).
Proof.
  revert k. induction ir as [ir IH] using Base_children_ind. intros k Hk.
  assert (is_EmptySet ir = false ->
          Forall (fun c => keeps_set_type k _ (infer_type c)) (children ir))
    as Hchildren.
  { intros Hne. apply Forall_forall. intros c Hc.
    eapply Forall_forall in IH; [|exact Hc]. apply IH. intros _ Hin.
    apply (Hk Hne). by eapply elem_of_empty_sets_in_child. }
  assert (forall c n, is_EmptySet ir = false ->
            c ∈ children ir -> c = EmptySet n -> key n <> k) as Hempty.
  { intros c n Hne Hc -> <-. apply (Hk Hne).
    eapply elem_of_empty_sets_in_child; [exact Hc|]. simpl. left. }
  destruct ir; simpl in *;
    try specialize (Hchildren eq_refl);
    try specialize (fun c n => Hempty c n eq_refl);
    repeat match goal with
      | H : Forall _ (_ :: _) |- _ =>
          apply Forall_cons in H; destruct H
      end;
    try (apply (P_infer_type_memo (keeps_set_type k));
         eauto with keeps);
    first
      [ apply keeps_raise
      | apply (P___infer_child (keeps_set_type k)); by eauto with keeps
      | apply (P_set_types_getitem (keeps_set_type k)); by eauto with keeps
      | apply (P___infer_type_introspection (keeps_set_type k));
        by eauto with keeps
      | apply (P___infer_from_typeref (keeps_set_type k));
        by eauto with keeps
      | apply (P_infer_typeref (keeps_set_type k)); by eauto with keeps
      | apply (P___infer_typecast (keeps_set_type k)); by eauto with keeps
      | apply (P___infer_index (keeps_set_type k)); by eauto with keeps
      | apply keeps_ret
      | idtac ].
  - (* TypeCheckOp *)
    unfold __infer_typecheckop.
    apply keeps_bind; [|intros ?].
    + apply keeps__infer_binop_args; [done..|].
      intros n' [-> | ->]; eapply Hempty; eauto;
        rewrite !elem_of_cons; auto.
    + apply keeps_bind; [|intros ?; apply keeps_ret].
      apply (P_env_schema_get (keeps_set_type k)); eauto with keeps.
  - (* InsertStmt *)
    assert (forall irs,
      irs = children (InsertStmt n ir on_conflict) ->
      keeps_set_type k _ (__infer_insert_stmt infer_type n irs)) as Hins.
    { intros irs ->. unfold __infer_insert_stmt.
      apply keeps_bind.
      - apply keeps__infer_common_type; [done|].
        intros n' Hn'. by eapply Hempty.
      - intros [t|]; [apply keeps_ret|apply keeps_raise]. }
    destruct on_conflict as [[e|]|]; by apply Hins.
  - (* SliceIndirection *)
    apply (P___infer_slice (keeps_set_type k)); eauto with keeps.
    + destruct start; simpl in *; [|done].
      apply Forall_cons in H1. by destruct H1.
    + destruct start, stop; simpl in *; try done;
        repeat match goal with
          | H : Forall _ (_ :: _) |- _ =>
              apply Forall_cons in H; destruct H
          end; done.
  - (* Array *)
    unfold __infer_array. destruct typeref as [tr|].
    + apply (P___infer_from_typeref (keeps_set_type k)); eauto with keeps.
    + apply keeps_bind.
      * destruct elements as [|el els]; [apply keeps_ret|].
        apply keeps_bind.
        -- apply keeps__infer_common_type; [done|].
           intros n' Hn'. by eapply Hempty.
        -- intros [t|]; [apply keeps_ret|apply keeps_raise].
      * intros t. apply keeps_bind; [|intros s].
        -- apply (P_get_schema (keeps_set_type k)); eauto with keeps.
        -- apply keeps_bind; [apply keeps_set_schema|].
           intros _. apply keeps_ret.
  - (* Tuple *)
    apply (P___infer_tuple (keeps_set_type k)); eauto with keeps.
    apply Forall_forall. intros el Hel.
    eapply Forall_forall in Hchildren; [exact Hchildren|].
    apply list_elem_of_fmap. by exists el.
Qed.
End Frame.

Section CommonTypeRuns.
Context {Schema : Type} `{SchemaOps Schema}.
Implicit Types st : State (Schema:=Schema).

(** The loop of lines 101-112 computes the left fold of
    [find_common_implicitly_castable_type] and changes ``env.schema``
    only. *)
Lemma fold_common_type_run c it st :
  let r := left_fold_common_type (schema (env st)) c it in
  fold_common_type c it st
  = Ok r.2
      (mkState
         (mkEnvironment r.1 (inferred_types (env st)) (set_types (env st)))
         (path_id st)).
Proof.
  revert c st. induction it as [|t it IH]; intros c st; simpl.
  - by destruct st as [[s i ty] p].
  - unfold with_schema, bind, get_schema, bind, get_env, ret, set_schema.
    simpl.
    destruct (find_common_implicitly_castable_type c t (schema (env st)))
      as [s' [c'|]]; simpl; [|done].
    by rewrite IH.
Qed.

(** What a run of [_infer_common_type] returns is the common type of the
    types the partition loop collected. *)
Lemma _infer_common_type_result irs st r st' p st1 :
  _infer_common_type infer_type irs st = Ok r st' ->
  collect_types infer_type 0 irs (mkPartition [] [] false false false) st
  = Ok p st1 ->
  r = common_type_of (schema (env st1)) p.
Proof.
  unfold _infer_common_type. destruct irs as [|first rest]; [done|].
  intros Hrun Hcollect. rewrite (bind_Ok _ _ _ _ _ Hcollect) in Hrun.
  destruct (decide (1 < seen_count p)); [done|].
  unfold common_type_of. destruct (types p) as [|t0 it]; [done|].
  apply bind_inv in Hrun as (common & st2 & Hfold & Hrest).
  assert (r = common) as ->.
  { destruct common as [c|].
    - apply bind_inv in Hrest as ([] & st3 & _ & Hret).
      by injection Hret as <- _.
    - by injection Hrest as <- _. }
  destruct (seen_scalar p || seen_coll p).
  - rewrite fold_common_type_run in Hfold. by injection Hfold as <- _.
  - by injection Hfold as <- _.
Qed.

(** The partition loop, argument by argument: an argument found empty
    contributes its index to ``empties``, any other the type [infer_type]
    returns for it to ``types``. *)
Lemma collect_types_types irs i p st p' st' :
  collect_types infer_type i irs p st = Ok p' st' ->
  exists tys : list (option Ty),
    length tys = length irs
    /\ types p' = types p ++ omap id tys
    /\ (forall j, j ∈ empties p' <->
          j ∈ empties p \/ i <= j /\ tys !! (j - i) = Some None)
    /\ (forall j ir t,
          irs !! j = Some ir -> tys !! j = Some (Some t) ->
          exists st_a st_b,
            later st st_a /\ infer_type ir st_a = Ok t st_b).
Proof.
  revert i p st.
  induction irs as [|arg irs IH]; intros i p st; simpl.
  - intros [= <- <-]. exists []. rewrite app_nil_r. split_and!; try done.
    intros j. split; [by left|]. intros [?|[_ ?]]; done.
  - intros (b & st0 & Hb & Hrest)%bind_inv.
    apply is_untyped_empty_inv in Hb as [-> Hb].
    destruct b.
    + apply IH in Hrest as (tys & Hlen & Hty & Hem & Hruns).
      exists (None :: tys). split_and!.
      * simpl. by rewrite Hlen.
      * done.
      * intros j. rewrite Hem. simpl. rewrite elem_of_app.
        rewrite list_elem_of_singleton. split.
        -- intros [[?| ->]|[Hle Hj]]; [by left| |].
           ++ right. split; [lia|]. by rewrite Nat.sub_diag.
           ++ right. split; [lia|].
              by replace (j - i) with (S (j - S i)) by lia.
        -- intros [?|[Hle Hj]]; [by left; left|].
           destruct (decide (j = i)) as [->|Hne]; [by left; right|].
           right. split; [lia|].
           by replace (j - i) with (S (j - S i)) in Hj by lia.
      * intros [|j] ir t Hir Hj; [done|]. simpl in Hir, Hj. eauto.
    + apply bind_inv in Hrest as (t & st1 & Hrun & Hrest).
      pose proof (infer_type_later _ _ _ _ Hrun) as Hl1.
      apply IH in Hrest as (tys & Hlen & Hty & Hem & Hruns).
      exists (Some t :: tys). split_and!.
      * simpl. by rewrite Hlen.
      * rewrite Hty, types_add_type. simpl. by rewrite <-app_assoc.
      * intros j. rewrite Hem, empties_add_type. split.
        -- intros [?|[Hle Hj]]; [by left|]. right. split; [lia|].
           by replace (j - i) with (S (j - S i)) by lia.
        -- intros [?|[Hle Hj]]; [by left|].
           destruct (decide (j = i)) as [->|Hne].
           { by rewrite Nat.sub_diag in Hj. }
           right. split; [lia|].
           by replace (j - i) with (S (j - S i)) in Hj by lia.
      * intros [|j] ir t' Hir Hj.
        -- simpl in Hir, Hj. injection Hir as ->. injection Hj as ->.
           exists st, st1. split; [apply later_refl|done].
        -- simpl in Hir, Hj.
           destruct (Hruns j ir t' Hir Hj) as (st_a & st_b & Hla & Hr).
           exists st_a, st_b. split; [by eapply later_trans|done].
Qed.

(** An [EmptySet] with no type recorded that no earlier argument
    contains is still without a type when the partition loop reaches it. *)
Lemma collect_types_reaches_untyped irs i p st p' st' j n :
  collect_types infer_type i irs p st = Ok p' st' ->
  irs !! j = Some (EmptySet n) ->
  set_types (env st) !! key n = Some None ->
  (forall j' ir,
      j' < j -> irs !! j' = Some ir -> is_EmptySet ir = false ->
      key n ∉ empty_sets_in ir) ->
  i + j ∈ empties p'.
Proof.
  revert i p st j.
  induction irs as [|arg irs IH]; intros i p st j; simpl; [done|].
  intros (b & st0 & Hb & Hrest)%bind_inv Hj Hn Hbefore.
  apply is_untyped_empty_inv in Hb as [-> Hb].
  destruct j as [|j]; simpl in Hj.
  - injection Hj as ->. destruct b.
    + destruct (collect_types_spec _ _ _ _ _ _ Hrest)
        as (_ & new & _ & -> & _). simpl. rewrite Nat.add_0_r.
      rewrite !elem_of_app, list_elem_of_singleton. auto.
    + destruct Hb as [_ Hb]. by discriminate Hb; eauto.
  - replace (i + S j) with (S i + j) by lia.
    assert (forall st1,
      set_types (env st1) !! key n = Some None ->
      forall p1, collect_types infer_type (S i) irs p1 st1 = Ok p' st' ->
      S i + j ∈ empties p') as Hnext.
    { intros st1 Hn1 p1 Hrun. eapply IH; [exact Hrun|exact Hj|exact Hn1|].
      intros j' ir Hlt. apply (Hbefore (S j') ir). lia. }
    destruct b; [by eapply Hnext|].
    apply bind_inv in Hrest as (t & st1 & Hrun & Hrest).
    eapply Hnext; [|exact Hrest].
    rewrite <-Hn. eapply infer_type_keeps_set_type; [|exact Hrun].
    apply (Hbefore 0 arg); [lia|done].
Qed.

(** An [EmptySet] that has a type recorded is not among the arguments
    the partition loop finds empty. *)
Lemma typed_not_examined_untyped irs st st1 i n t0 :
  irs !! i = Some (EmptySet n) ->
  set_types (env st) !! key n = Some (Some t0) ->
  ~ examined_untyped irs st st1 i.
Proof.
  intros Hi Ht (n' & st_j & Hi' & (Htyped & _) & _ & Hnone).
  assert (n' = n) as -> by congruence.
  destruct (Htyped _ _ Ht) as [t' Ht']. congruence.
Qed.

(** An [EmptySet] that has a type recorded when the call starts is not
    among the arguments found empty, and the amendments after the
    partition loop leave its ``set_types`` entry and its path id alone. *)
Lemma typed_empty_set_not_amended irs i n t0 st r st' p st1 :
  irs !! i = Some (EmptySet n) ->
  set_types (env st) !! key n = Some (Some t0) ->
  _infer_common_type infer_type irs st = Ok r st' ->
  collect_types infer_type 0 irs (mkPartition [] [] false false false) st
  = Ok p st1 ->
  (i ∉ empties p)
  /\ set_types (env st') !! key n = set_types (env st1) !! key n
  /\ path_id st' !! key n = path_id st1 !! key n.
Proof.
  intros Hi Ht Hrun Hcollect.
  apply _infer_common_type_inv in Hrun
    as (p0 & st10 & st2 & Hcollect' & Hs & Hp & Hrest).
  rewrite Hcollect in Hcollect'. injection Hcollect' as <- <-.
  destruct (collect_types_spec _ _ _ _ _ _ Hcollect)
    as (Hlater & new & more & He & Hty & _ & Hnew & Htyped).
  simpl in He, Hty. subst new more.
  assert (i ∉ empties p) as Hnotin.
  { intros Hin. destruct (Hnew _ Hin) as [_ Hex].
    rewrite Nat.sub_0_r in Hex.
    by eapply typed_not_examined_untyped. }
  split; [done|].
  destruct r as [c|]; [|subst; by rewrite ?Hs, ?Hp].
  rewrite <-Hs, <-Hp.
  eapply amend_empties_frame; [done|].
  intros j ir n' Hj Hir Hn' Hkey; destruct (Hnew _ Hj) as [_ Hex].
  rewrite Nat.sub_0_r in Hex.
  destruct Hex as (n'' & st_j & Hj' & (Htyped' & _) & _ & Hnone).
  rewrite Hir in Hj'; injection Hj' as ->; injection Hn' as ->.
  destruct (Htyped' _ _ Ht) as [t' Ht']; congruence.
Qed.

(** *** An [EmptySet] with a type, taken as a [Set] *)

Lemma collect_types_as_set irs k p st p' st' i n :
  collect_types infer_type k irs p st = Ok p' st' ->
  irs !! i = Some (EmptySet n) ->
  (exists t, set_types (env st) !! key n = Some (Some t)) ->
  collect_types infer_type k (<[i := Set_ n]> irs) p st = Ok p' st'.
Proof.
  revert k p st i.
  induction irs as [|arg irs IH]; intros k p st i; simpl; [done|].
  intros Hrun Hi [t0 Ht]. destruct i as [|i]; simpl in Hi.
  - injection Hi as ->.
    assert (is_untyped_empty (EmptySet n) st = Ok false st) as Hb.
    { unfold is_untyped_empty, set_types_getitem, bind, get_env.
      by rewrite Ht. }
    rewrite (bind_Ok _ _ _ _ _ Hb) in Hrun. exact Hrun.
  - simpl.
    apply bind_inv in Hrun as (b & st0 & Hb & Hrest).
    rewrite (bind_Ok _ _ _ _ _ Hb).
    apply is_untyped_empty_inv in Hb as [-> Hb].
    destruct b; [by apply IH; eauto|].
    apply bind_inv in Hrest as (t & st1 & Hrun & Hrest).
    rewrite (bind_Ok _ _ _ _ _ Hrun). apply IH; [done..|].
    destruct (infer_type_later _ _ _ _ Hrun) as (Htyped & _).
    by apply (Htyped _ _ Ht).
Qed.

Lemma amend_empties_ext irs irs' es c st :
  (forall j, j ∈ es -> irs' !! j = irs !! j) ->
  amend_empties irs' es c st = amend_empties irs es c st.
Proof.
  unfold amend_empties. revert st.
  induction es as [|j es IH]; intros st Hsame; simpl; [done|].
  rewrite (Hsame j) by left. unfold bind.
  destruct (irs !! j) as [ir|]; [|done].
  destruct (node_of ir) as [es0|]; [|done].
  destruct (amend_empty_set_type es0 c st) as [[] st1|e]; [|done].
  apply IH. intros j' Hj'. apply Hsame. by right.
Qed.

(** An [EmptySet] that has a type recorded is to [_infer_common_type]
    what a [Set] is. *)
Lemma _infer_common_type_as_set irs i n t0 st r st' :
  irs !! i = Some (EmptySet n) ->
  set_types (env st) !! key n = Some (Some t0) ->
  _infer_common_type infer_type irs st = Ok r st' ->
  _infer_common_type infer_type (<[i := Set_ n]> irs) st = Ok r st'.
Proof.
  intros Hi Ht Hrun.
  destruct (collect_types infer_type 0 irs
              (mkPartition [] [] false false false) st)
    as [p st1|e] eqn:Hcollect.
  2: { apply _infer_common_type_inv in Hrun as (? & ? & ? & ? & _).
       congruence. }
  destruct (typed_empty_set_not_amended _ _ _ _ _ _ _ _ _ Hi Ht Hrun
              Hcollect) as (Hnotin & _).
  assert (collect_types infer_type 0 (<[i := Set_ n]> irs)
            (mkPartition [] [] false false false) st = Ok p st1) as Hset.
  { eapply collect_types_as_set; eauto. }
  assert (forall c st2,
    amend_empties (<[i := Set_ n]> irs) (empties p) c st2
    = amend_empties irs (empties p) c st2) as Hamend.
  { intros c st2. apply amend_empties_ext.
    intros j Hj. apply list_lookup_insert_ne. by intros ->. }
  assert (exists first rest first' rest',
    irs = first :: rest /\ <[i := Set_ n]> irs = first' :: rest')
    as (first & rest & first' & rest' & Heq & Heq').
  { destruct irs as [|first rest]; [done|].
    destruct i; simpl; by eexists _, _, _, _. }
  rewrite Heq' in *. rewrite Heq in *.
  revert Hrun. unfold _infer_common_type.
  rewrite (bind_Ok _ _ _ _ _ Hcollect), (bind_Ok _ _ _ _ _ Hset).
  destruct (decide (1 < seen_count p)); [done|].
  destruct (types p) as [|t1 it]; [done|].
  intros (common & st2 & Hfold & Hrest)%bind_inv.
  rewrite (bind_Ok _ _ _ _ _ Hfold).
  destruct common as [c|]; [|done].
  apply bind_inv in Hrest as ([] & st3 & Ham & Hret).
  rewrite <-Hamend in Ham. by rewrite (bind_Ok _ _ _ _ _ Ham).
Qed.
End CommonTypeRuns.


(** ** The claims about inference *)

Section Claims.
Context {Schema : Type} `{SchemaOps Schema}.
Implicit Types st : State (Schema:=Schema).

(** C4.  [_infer_common_type] on the empty argument list: building the
    [QueryError] evaluates ``irs[0].context``, so what escapes is the
    [IndexError] of that subscript and not a [QueryError]. *)
Theorem C4_common_type_of_no_arguments
    (rec : Base -> M (Schema:=Schema) Ty) st :
  _infer_common_type rec [] st = Raise IndexError.
Proof. reflexivity. Qed.

(** C6.  Inference is deterministic: two runs of [infer_type] on a node
    from equal environments have the same outcome (the same type and equal
    environments afterwards, or the same exception), whatever path ids the
    nodes carry by then; and a repeated call on the environment a
    successful run left returns the memoized type and changes nothing. *)
Theorem C6_infer_type_deterministic ir st1 st2 :
  same_env st1 st2 ->
  same_outcome (infer_type ir st1) (infer_type ir st2)
  /\ (forall t st1',
         infer_type ir st1 = Ok t st1' -> infer_type ir st1' = Ok t st1').
Proof.
  intros Hst. split; [by apply infer_type_same_outcome|].
  intros t st1' Hrun.
  destruct (infer_type_recorded _ _ _ _ Hrun) as (n & Hn & Hrec).
  by eapply infer_type_hit.
Qed.

(** C3.  [_infer_binop_args]: when exactly one operand is an [EmptySet]
    (and the other operand's type is inferred), the empty operand's type
    is amended to the type of the other operand and both returned types
    are that type; when both operands are [EmptySet] it raises
    [QueryError] with 'cannot determine the type of an empty set'. *)
Theorem C3_binop_args_harmonize (left right : Base) st :
  (forall n t st1 p,
      left = EmptySet n -> is_EmptySet right = false ->
      infer_type right st = Ok t st1 ->
      path_id st !! key n = Some p ->
      exists st',
        _infer_binop_args infer_type left right st = Ok (t, t) st'
        /\ set_types (env st') !! key n = Some (Some t))
  /\ (forall n t st1 p,
         right = EmptySet n -> is_EmptySet left = false ->
         infer_type left st = Ok t st1 ->
         path_id st !! key n = Some p ->
         exists st',
           _infer_binop_args infer_type left right st = Ok (t, t) st'
           /\ set_types (env st') !! key n = Some (Some t))
  /\ (forall nl nr,
         left = EmptySet nl -> right = EmptySet nr ->
         _infer_binop_args infer_type left right st
         = Raise (QueryError "cannot determine the type of an empty set"
                    (context nl))).
Proof.
  split; [|split].
  - intros n t st1 p -> Hr Hrun Hp.
    destruct (infer_type_later _ _ _ _ Hrun) as (_ & Hpath & _).
    destruct (Hpath _ _ Hp) as (p1 & Hp1 & _).
    destruct (amend_Ok n t st1 p1 Hp1) as (st' & Ham & Hset & _).
    exists st'. unfold _infer_binop_args. simpl. rewrite Hr.
    unfold bind at 1. simpl. unfold bind at 1. unfold bind at 1.
    rewrite Hrun. simpl. unfold bind at 1. rewrite Ham. simpl.
    split; [done|]. rewrite Hset. apply lookup_insert_eq.
  - intros n t st1 p -> Hl Hrun Hp.
    destruct (infer_type_later _ _ _ _ Hrun) as (_ & Hpath & _).
    destruct (Hpath _ _ Hp) as (p1 & Hp1 & _).
    destruct (amend_Ok n t st1 p1 Hp1) as (st' & Ham & Hset & _).
    exists st'. unfold _infer_binop_args. simpl. rewrite Hl.
    unfold bind at 1. unfold bind at 1. rewrite Hrun. simpl.
    unfold bind at 1. simpl. unfold bind at 1. rewrite Ham. simpl.
    split; [done|]. rewrite Hset. apply lookup_insert_eq.
  - by intros nl nr -> ->.
Qed.

(** C5.  Index inference on an [IndexIndirection] whose type is not yet
    memoized, once the types of ``expr`` and ``index`` are inferred: an
    operand of type json (a subclass of ``std::json`` and of neither
    ``std::str`` nor ``std::bytes``) with an index implicitly castable to
    ``int64`` or ``str`` yields json; an ``Array<T>`` operand with an
    index implicitly castable to ``int64`` yields [T]; a bytes operand with
    an index that is not implicitly castable to ``int64`` (a ``str``
    index) raises [QueryError]. *)
Theorem C5_index_rules n expr index st node_type st1 index_type st2
    str_t bytes_t int_t json_t :
  inferred_types (env st) !! key n = None ->
  infer_type expr st = Ok node_type st1 ->
  infer_type index st1 = Ok index_type st2 ->
  schema_get (schema (env st2)) "std::str" = inr str_t ->
  schema_get (schema (env st2)) "std::bytes" = inr bytes_t ->
  schema_get (schema (env st2)) "std::int64" = inr int_t ->
  schema_get (schema (env st2)) "std::json" = inr json_t ->
  issubclass node_type (schema (env st2)) str_t = false ->
  (issubclass node_type (schema (env st2)) bytes_t = false ->
   issubclass node_type (schema (env st2)) json_t = true ->
   implicitly_castable_to index_type int_t (schema (env st2))
   || implicitly_castable_to index_type str_t (schema (env st2)) = true ->
   exists st',
     infer_type (IndexIndirection n expr index) st = Ok json_t st')
  /\ (forall T,
         node_type = s_types.Array T ->
         issubclass node_type (schema (env st2)) bytes_t = false ->
         issubclass node_type (schema (env st2)) json_t = false ->
         implicitly_castable_to index_type int_t (schema (env st2)) = true ->
         exists st',
           infer_type (IndexIndirection n expr index) st = Ok T st')
  /\ (issubclass node_type (schema (env st2)) bytes_t = true ->
      implicitly_castable_to index_type int_t (schema (env st2)) = false ->
      infer_type (IndexIndirection n expr index) st
      = Raise (QueryError
                 (cannot_index "bytes" index_type [int_t]
                    (schema (env st2)))
                 (context_of index))).
Proof.
  intros Hmemo Hexpr Hindex Hstr Hbytes Hint Hjson Hnstr.
  assert (Hbody :
    __infer_index infer_type expr index st
    = (let s := schema (env st2) in
       if issubclass node_type s bytes_t then
         if negb (implicitly_castable_to index_type int_t s) then
           raise (QueryError (cannot_index "bytes" index_type [int_t] s)
                    (context_of index))
         else ret (Some bytes_t)
       else if issubclass node_type s json_t then
         if negb (implicitly_castable_to index_type int_t s
                  || implicitly_castable_to index_type str_t s) then
           raise (QueryError
                    (cannot_index "json" index_type [int_t; str_t] s)
                    (context_of index))
         else ret (Some json_t)
       else
         match node_type with
         | s_types.Array element_type =>
             if negb (implicitly_castable_to index_type int_t s) then
               raise (QueryError
                        (cannot_index "array" index_type [int_t] s)
                        (context_of index))
             else ret (Some element_type)
         | _ =>
             if s_types.is_any node_type
                || (s_types.is_scalar node_type
                    && s_types.is_anyscalar node_type)
                   && (implicitly_castable_to index_type int_t s
                       || implicitly_castable_to index_type str_t s)
             then ret (Some (PseudoType_get "anytype"))
             else
               raise (QueryError
                        ("index indirection cannot be applied to "
                         +:+ get_verbosename node_type s)
                        (context_of expr))
         end) st2).
  { unfold __infer_index. run_with Hexpr. run_with Hindex.
    run_with (env_schema_get_Ok _ _ _ Hstr).
    run_with (env_schema_get_Ok _ _ _ Hbytes).
    run_with (env_schema_get_Ok _ _ _ Hint).
    run_with (env_schema_get_Ok _ _ _ Hjson).
    run_with (get_schema_Ok st2). by rewrite Hnstr. }
  simpl in Hbody. split; [|split].
  - intros Hnbytes Hj Hcast. rewrite Hnbytes, Hj, Hcast in Hbody.
    destruct (infer_type_memo_miss n _ _ _ _ Hmemo Hbody) as (st' & Hrun & _).
    eauto.
  - intros T -> Hnbytes Hnj Hcast. rewrite Hnbytes, Hnj, Hcast in Hbody.
    destruct (infer_type_memo_miss n _ _ _ _ Hmemo Hbody) as (st' & Hrun & _).
    eauto.
  - intros Hb Hcast. rewrite Hb, Hcast in Hbody.
    by apply infer_type_memo_raise.
Qed.
(** C9.  An [EmptySet] argument of [_infer_common_type] that has a type
    recorded when the call starts is an ordinary typed argument.  The
    partition loop does not record it in ``empties``: it infers its type
    like that of any other argument and puts it into ``types`` at its place
    among the types of the arguments not found empty.  The call returns the
    common type of these types (for scalars and collections their left
    fold).  What the call does after the loop leaves the ``set_types`` entry
    and the path id of the argument as the loop left them.  And the whole
    call does what it does with a [Set] in the place of the [EmptySet]. *)
Theorem C9_typed_empty_set_is_an_ordinary_argument irs i n t0 st r st' :
  irs !! i = Some (EmptySet n) ->
  set_types (env st) !! key n = Some (Some t0) ->
  _infer_common_type infer_type irs st = Ok r st' ->
  (exists p st1,
      collect_types infer_type 0 irs (mkPartition [] [] false false false) st
      = Ok p st1
      /\ (i ∉ empties p)
      /\ (exists tys : list (option Ty),
             length tys = length irs
             /\ (forall j, j ∈ empties p <-> tys !! j = Some None)
             /\ types p = omap id tys
             /\ exists t st_a st_b,
                  tys !! i = Some (Some t)
                  /\ later st st_a
                  /\ infer_type (EmptySet n) st_a = Ok t st_b)
      /\ r = common_type_of (schema (env st1)) p
      /\ set_types (env st') !! key n = set_types (env st1) !! key n
      /\ path_id st' !! key n = path_id st1 !! key n)
  /\ _infer_common_type infer_type (<[i := Set_ n]> irs) st = Ok r st'.
Proof.
  intros Hi Ht Hrun. split; [|by eapply _infer_common_type_as_set].
  destruct (collect_types infer_type 0 irs
              (mkPartition [] [] false false false) st)
    as [p st1|e] eqn:Hcollect.
  2: { apply _infer_common_type_inv in Hrun as (? & ? & ? & ? & _).
       congruence. }
  exists p, st1. split; [done|].
  destruct (typed_empty_set_not_amended _ _ _ _ _ _ _ _ _ Hi Ht Hrun
              Hcollect) as (Hnotin & Hs & Hp).
  destruct (collect_types_types _ _ _ _ _ _ Hcollect)
    as (tys & Hlen & Hty & Hem & Hruns).
  assert (forall j, j ∈ empties p <-> tys !! j = Some None) as Hem'.
  { intros j. rewrite Hem. simpl. rewrite elem_of_nil, Nat.sub_0_r.
    split; [by intros [[]|[_ ?]]|]. intros ?. right. split; [lia|done]. }
  split_and!; [done| |by eapply _infer_common_type_result|done..].
  exists tys. split_and!; [done..|].
  destruct (tys !! i) as [[t|]|] eqn:Hti.
  - destruct (Hruns i _ t Hi Hti) as (st_a & st_b & Hla & Hr).
    by exists t, st_a, st_b.
  - by apply Hem' in Hti.
  - apply lookup_ge_None in Hti. apply lookup_lt_Some in Hi. lia.
Qed.

(** C2, as amended.  When [_infer_common_type] returns a common type [T],
    every argument at an index the partition loop recorded in
    ``empties`` (an [EmptySet] whose ``set_types`` entry was ``None`` when
    the loop reached it) has ``set_types[arg]`` equal to [T] afterwards,
    and its path id is re-derived for [T] under a name in module
    ``__derived__``, with the name of the original name hint and the
    original namespace.  Among these arguments is every [EmptySet]
    argument that has no type recorded when the call starts and is not
    inside an earlier argument of the list.  An [EmptySet] argument that
    has a type recorded when the call starts is not among them, and the
    amendments leave its ``set_types`` entry as the partition loop left
    it. *)
Theorem C2_untyped_empty_sets_get_the_common_type irs st T st' :
  _infer_common_type infer_type irs st = Ok (Some T) st' ->
  exists p st1,
    collect_types infer_type 0 irs (mkPartition [] [] false false false) st
    = Ok p st1
    /\ (forall i, i ∈ empties p ->
          examined_untyped irs st st1 i
          /\ exists n p0,
              irs !! i = Some (EmptySet n)
              /\ set_types (env st') !! key n = Some (Some T)
              /\ path_id st !! key n = Some p0
              /\ rederived T p0 st' (key n))
    /\ (forall i n,
          irs !! i = Some (EmptySet n) ->
          set_types (env st) !! key n = Some None ->
          (forall j ir,
              j < i -> irs !! j = Some ir -> is_EmptySet ir = false ->
              key n ∉ empty_sets_in ir) ->
          i ∈ empties p)
    /\ (forall i n t0,
          irs !! i = Some (EmptySet n) ->
          set_types (env st) !! key n = Some (Some t0) ->
          (i ∉ empties p)
          /\ set_types (env st') !! key n = set_types (env st1) !! key n).
Proof.
  intros Hrun. pose proof Hrun as Hrun0.
  apply _infer_common_type_inv in Hrun
    as (p & st1 & st2 & Hcollect & Hs & Hp & Ham).
  exists p, st1. split; [done|].
  destruct (collect_types_spec _ _ _ _ _ _ Hcollect)
    as (Hlater & new & more & He & _ & _ & Hnew & _).
  simpl in He. subst new. split_and!.
  - intros i Hi. destruct (Hnew _ Hi) as [_ Hex].
    rewrite Nat.sub_0_r in Hex. split; [done|].
    destruct Hex as (n & st_j & Hn & _).
    destruct (amend_empties_spec _ _ _ _ _ Ham i n Hi Hn)
      as (Hk & p2 & Hp2 & Hr).
    rewrite Hp in Hp2.
    destruct Hlater as (_ & Hfwd & Hbwd).
    destruct (Hbwd (key n)) as [p0 Hp0]; [by eexists|].
    destruct (Hfwd _ _ Hp0) as (p' & Hp' & Hname & Hns).
    assert (p' = p2) as -> by congruence.
    exists n, p0. split_and!; try done.
    by eapply rederived_rebase; [..|exact Hr].
  - intros i n Hi Hn Hbefore.
    by apply (collect_types_reaches_untyped _ _ _ _ _ _ _ _ Hcollect Hi Hn).
  - intros i n t0 Hi Ht.
    destruct (typed_empty_set_not_amended _ _ _ _ _ _ _ _ _ Hi Ht Hrun0
                Hcollect) as (Hnotin & Hs' & _).
    done.
Qed.
End Claims.

(** ** The claims at the example schema *)

(** C2, as stated, fails: with an [EmptySet] that already has type
    ``int32`` recorded and an ``int64`` constant, [_infer_common_type]
    returns ``int64`` and the [EmptySet] keeps ``int32``. *)
Lemma C2_counterexample :
  ~ (forall (irs : list Base) (st st' : State (Schema:=unit)) T,
        _infer_common_type infer_type irs st = Ok (Some T) st' ->
        forall i n,
          irs !! i = Some (EmptySet n) ->
          set_types (env st') !! key n = Some (Some T)).
Proof.
  intros Hclaim.
  pose (irs := [EmptySet (example_node 2); example_int64]).
  destruct (_infer_common_type infer_type irs example_state)
    as [r st'|e] eqn:Hrun; [|by vm_compute in Hrun].
  assert (r = Some int64_t
          /\ set_types (env st') !! 2 = Some (Some int32_t)) as [-> Hkept].
  { vm_compute in Hrun. by injection Hrun as <- <-. }
  specialize (Hclaim irs _ _ _ Hrun 0 (example_node 2) eq_refl).
  pose proof (eq_trans (eq_sym Hclaim) Hkept) as Hbad.
  discriminate Hbad.
Qed.

Lemma C2_witness :
  exists st',
    _infer_common_type infer_type
      [example_int64; EmptySet (example_node 1)] example_state
    = Ok (Some int64_t) st'
    /\ set_types (env st') !! 1 = Some (Some int64_t)
    /\ rederived int64_t example_path_id st' 1.
Proof.
  pose (irs := [example_int64; EmptySet (example_node 1)]).
  destruct (_infer_common_type infer_type irs example_state)
    as [r st'|e] eqn:Hrun; [|by vm_compute in Hrun].
  assert (r = Some int64_t) as ->.
  { vm_compute in Hrun. by injection Hrun as <- _. }
  exists st'. split; [done|].
  destruct (C2_untyped_empty_sets_get_the_common_type _ _ _ _ Hrun)
    as (p & st1 & Hcollect & Hall & Huntyped & _).
  assert (1 ∈ empties p) as H1.
  { apply (Huntyped 1 (example_node 1)); [done..|].
    intros [|j] ir Hj Hir _; [|lia]. injection Hir as <-.
    apply not_elem_of_nil. }
  destruct (Hall 1 H1) as (_ & n & p0 & Hn & Hset & Hp0 & Hr).
  injection Hn as <-. injection Hp0 as <-. by split.
Defined.

Lemma C3_witness :
  exists st',
    _infer_binop_args infer_type (EmptySet (example_node 1)) example_int64
      example_state
    = Ok (int64_t, int64_t) st'
    /\ set_types (env st') !! 1 = Some (Some int64_t).
Proof.
  destruct (infer_type example_int64 example_state)
    as [t st1|e] eqn:Hrun; [|by vm_compute in Hrun].
  assert (t = int64_t) as ->.
  { vm_compute in Hrun. by injection Hrun as <- _. }
  destruct (C3_binop_args_harmonize (EmptySet (example_node 1)) example_int64
              example_state) as [Hleft _].
  exact (Hleft (example_node 1) int64_t st1 example_path_id
           eq_refl eq_refl Hrun eq_refl).
Defined.

Lemma C5_witness :
  exists st',
    infer_type
      (IndexIndirection (example_node 6) (Set_ (example_node 3)) example_str)
      example_state
    = Ok json_t st'.
Proof.
  destruct (infer_type (Set_ (example_node 3)) example_state)
    as [node_type st1|e] eqn:Hexpr; [|by vm_compute in Hexpr].
  destruct (infer_type example_str st1)
    as [index_type st2|e] eqn:Hindex;
    [|vm_compute in Hexpr; injection Hexpr as <- <-;
      by vm_compute in Hindex].
  assert (node_type = json_t /\ index_type = s_types.ScalarType "std::str")
    as [-> ->].
  { vm_compute in Hexpr. injection Hexpr as <- <-.
    vm_compute in Hindex. by injection Hindex as <- _. }
  destruct (C5_index_rules (example_node 6) _ _ example_state _ _ _ _
              (s_types.ScalarType "std::str")
              (s_types.ScalarType "std::bytes") int64_t json_t
              eq_refl Hexpr Hindex eq_refl eq_refl eq_refl eq_refl eq_refl)
    as [Hjson _].
  exact (Hjson eq_refl eq_refl eq_refl).
Defined.

Lemma C6_witness :
  same_env example_state example_state_rederived
  /\ same_outcome
       (infer_type (Set_ (example_node 3)) example_state)
       (infer_type (Set_ (example_node 3)) example_state_rederived)
  /\ exists st1',
      infer_type (Set_ (example_node 3)) example_state = Ok json_t st1'
      /\ infer_type (Set_ (example_node 3)) st1' = Ok json_t st1'.
Proof.
  assert (same_env example_state example_state_rederived) as Hsame.
  { split; [done|]. apply set_eq. intros k.
    unfold example_state_rederived, example_state. simpl.
    rewrite !dom_insert. set_solver. }
  destruct (C6_infer_type_deterministic (Set_ (example_node 3)) _ _ Hsame)
    as [Houtcome Hagain].
  split_and!; [done..|].
  destruct (infer_type (Set_ (example_node 3)) example_state)
    as [t st1'|e] eqn:Hrun; [|by vm_compute in Hrun].
  assert (t = json_t) as ->.
  { vm_compute in Hrun. by injection Hrun as <- _. }
  exists st1'. split; [done|]. by apply Hagain.
Defined.

Lemma C9_witness :
  exists st',
    _infer_common_type infer_type
      [EmptySet (example_node 2); Set_ (example_node 3)] example_state
    = Ok None st'
    /\ set_types (env st') !! 2 = Some (Some int32_t)
    /\ _infer_common_type infer_type
         [Set_ (example_node 2); Set_ (example_node 3)] example_state
       = Ok None st'.
Proof.
  pose (irs := [EmptySet (example_node 2); Set_ (example_node 3)]).
  destruct (_infer_common_type infer_type irs example_state)
    as [r st'|e] eqn:Hrun; [|by vm_compute in Hrun].
  destruct (C9_typed_empty_set_is_an_ordinary_argument irs 0
              (example_node 2) int32_t example_state r st'
              eq_refl eq_refl Hrun)
    as ((p & st1 & Hcollect & Hnotin & _ & Hr & Hkept & _) & Hset).
  assert (r = None /\ set_types (env st1) !! 2 = Some (Some int32_t))
    as [-> Hst1].
  { vm_compute in Hcollect. injection Hcollect as <- <-.
    by vm_compute in Hr. }
  exists st'. split; [done|]. split; [|done].
  rewrite <-Hst1. exact Hkept.
Defined.

End InferenceFacts.

Module ErrorMechFacts.
Import Py ErrorMech.

Section TranslatorFacts.
Context `{Library}.

Lemma generic_exception_none d :
  errcls d = None -> get_generic_exception_from_err_details d = inr None.
Proof. unfold get_generic_exception_from_err_details. by intros ->. Qed.

Lemma static_of_details fields d :
  get_error_details fields = inr d -> errcls d = None ->
  static_interpret_backend_error fields = static_interpret_details d.
Proof.
  intros Hd Hcls. unfold static_interpret_backend_error.
  by rewrite Hd, generic_exception_none.
Qed.

(** C7, as amended.  For a not-null violation (SQLSTATE 23502) that is not
    a generic error: the schema-free pass returns [SchemaRequired] exactly
    when the error has a non-empty ``table_name`` or ``column_name``, and
    [InternalServerError] with the backend message otherwise; the
    schema-aware pass returns [MissingRequiredError] with the message
    'missing value for required <pointer verbose name>' when the error has a
    non-empty ``column_name`` (which it resolves to a pointer), and
    [InternalServerError] with the backend message when it has none. *)
Theorem C7_not_null_violation_two_phase fields d :
  get_error_details fields = inr d ->
  errcls d = None ->
  code d = Some ERROR_NOT_NULL_VIOLATION ->
  static_interpret_backend_error fields
  = inr (if str_truthy (table_name d) || str_truthy (column_name d)
         then SchemaRequired
         else Error (new_error InternalServerError (message d)))
  /\ (forall c pname,
         column_name d = Some c -> c <> "" ->
         pointer_verbosename (pointer_id_of_column c) = inr pname ->
         exists details hint,
           interpret_backend_error fields
           = inr (Error (mkError MissingRequiredError
                           (Some ("missing value for required " +:+ pname))
                           details hint None)))
  /\ (str_truthy (column_name d) = false ->
      interpret_backend_error fields
      = inr (Error (new_error InternalServerError (message d)))).
Proof.
  intros Hd Hcls Hcode. split_and!.
  - rewrite (static_of_details _ _ Hd Hcls).
    unfold static_interpret_details. rewrite Hcode.
    rewrite bool_decide_eq_true_2 by done.
    by destruct (str_truthy (table_name d) || str_truthy (column_name d)).
  - intros c pname Hc Hne Hptr. unfold interpret_backend_error.
    rewrite Hd, Hcode. rewrite bool_decide_eq_true_2 by done.
    unfold interpret_not_null. rewrite Hc.
    rewrite bool_decide_eq_false_2 by done. rewrite Hptr. eauto.
  - intros Hcol. unfold interpret_backend_error.
    rewrite Hd, Hcode. rewrite bool_decide_eq_true_2 by done.
    unfold interpret_not_null.
    destruct (column_name d) as [c|]; [|done]. simpl in Hcol.
    apply negb_false_iff in Hcol. by rewrite Hcol.
Qed.

(** *** Totality of the schema-free pass *)

Lemma get_error_details_total fields :
  well_formed fields ->
  exists d,
    get_error_details fields = inr d
    /\ message d = fields !! "M"
    /\ (errcls d = None -> code d = fields !! "C")
    /\ (is_Some (errcls d) -> is_Some (detail_json d))
    /\ (forall j v,
           detail_json d = Some j ->
           j !! "source" = Some v \/ j !! "pointer" = Some v ->
           exists q, QualName_from_string v = inr q).
Proof.
  intros ([code Hc] & _ & Hjson). unfold get_error_details. rewrite Hc.
  destruct (fields !! "D") as [dt|] eqn:Hdt.
  - destruct (String.prefix "{" dt) eqn:Hprefix.
    + destruct (Hjson dt eq_refl Hprefix) as (j & -> & Hnames).
      match goal with
      | |- context [match ?found with Some _ => _ | None => _ end] =>
          destruct found as [cls|] eqn:Hfound
      end.
      all: eexists; split; [done|]; simpl; split_and!; try done.
      all: intros j' v [= ->]; apply Hnames.
    + simpl. eexists. split; [done|]. simpl. by split_and!.
  - simpl. eexists. split; [done|]. simpl. by split_and!.
Qed.

Lemma link_target_message_total d :
  (forall j v,
      detail_json d = Some j ->
      j !! "source" = Some v \/ j !! "pointer" = Some v ->
      exists q, QualName_from_string v = inr q) ->
  exists m, link_target_message d = inr m.
Proof.
  intros Hnames. unfold link_target_message.
  destruct (dict_truthy (detail_json d)); [|by eexists].
  destruct (detail_json d) as [j|] eqn:Hj; [|by eexists].
  cbn [mbind option_bind].
  destruct (json_truthy (j !! "source") && json_truthy (j !! "pointer"))
    eqn:Htruthy; [|by eexists].
  apply andb_true_iff in Htruthy as [Hsrc Hptr].
  destruct (j !! "source") as [src|] eqn:Hs; [|done].
  destruct (j !! "pointer") as [ptr|] eqn:Hp; [|done].
  cbn [default from_option]. unfold Datatypes.id.
  destruct (Hnames j src eq_refl (or_introl Hs)) as [[s1 s2] ->].
  destruct (Hnames j ptr eq_refl (or_intror Hp)) as [[p1 p2] ->].
  by eexists.
Qed.

Lemma static_interpret_details_total d msg :
  message d = Some msg ->
  (forall j v,
      detail_json d = Some j ->
      j !! "source" = Some v \/ j !! "pointer" = Some v ->
      exists q, QualName_from_string v = inr q) ->
  exists r, static_interpret_details d = inr r.
Proof.
  intros Hmsg Hnames. unfold static_interpret_details.
  destruct (link_target_message_total d Hnames) as [m Hm].
  rewrite Hmsg, Hm. unfold first_match, message_startswith.
  repeat case_match; simplify_eq; eauto.
Qed.

Lemma static_interpret_details_unrecognized d c :
  code d = Some c -> c ∉ recognized_codes ->
  static_interpret_details d
  = inr (Error (new_error InternalServerError (message d))).
Proof.
  intros Hcode Hnot. unfold static_interpret_details. rewrite Hcode.
  assert (forall c', c' ∈ recognized_codes ->
            bool_decide (Some c = Some c') = false) as Hne.
  { intros c' Hc'. apply bool_decide_eq_false. intros [= ->]. done. }
  assert (forall l, l ⊆ recognized_codes -> bool_decide (c ∈ l) = false)
    as Hnotin.
  { intros l Hl. apply bool_decide_eq_false. intros Hin. by apply Hnot, Hl. }
  rewrite !Hnotin, !Hne; try done;
    first [ apply (bool_decide_unpack _); by vm_compute
          | unfold recognized_codes; set_solver ].
Qed.

Lemma static_interpret_details_unmatched d c msg :
  code d = Some c -> c ∈ constraint_errors ->
  c <> ERROR_NOT_NULL_VIOLATION ->
  message d = Some msg -> (forall k, re_match k msg = None) ->
  static_interpret_details d
  = inr (Error (new_error InternalServerError (Some msg))).
Proof.
  intros Hcode Hin Hne Hmsg Hnone. unfold static_interpret_details.
  rewrite Hcode, Hmsg.
  rewrite bool_decide_eq_false_2 by (by intros [= ->]).
  rewrite bool_decide_eq_true_2 by done.
  unfold first_match, constraint_res. simpl. by rewrite !Hnone.
Qed.

(** C10, as amended.  On a field map that has a code and a message, whose
    detail parses as JSON if it starts with a brace, and whose parsed
    ``source`` and ``pointer`` entries are qualified names,
    [static_interpret_backend_error] returns, and what it returns is the
    [SchemaRequired] sentinel or an error object; for a code it has no
    branch for, and for a constraint violation whose message no pattern
    matches, the error object is [InternalServerError] with the backend
    message. *)
Theorem C10_static_interpret_returns fields :
  well_formed fields ->
  exists r,
    static_interpret_backend_error fields = inr r
    /\ (forall d c,
           get_error_details fields = inr d -> errcls d = None ->
           fields !! "C" = Some c -> c ∉ recognized_codes ->
           r = Error (new_error InternalServerError (fields !! "M")))
    /\ (forall d c msg,
           get_error_details fields = inr d -> errcls d = None ->
           fields !! "C" = Some c -> c ∈ constraint_errors ->
           c <> ERROR_NOT_NULL_VIOLATION ->
           fields !! "M" = Some msg -> (forall k, re_match k msg = None) ->
           r = Error (new_error InternalServerError (Some msg))).
Proof.
  intros Hwf.
  destruct (get_error_details_total fields Hwf)
    as (d & Hd & Hmsg & Hcode & Hjson & Hnames).
  destruct Hwf as (_ & [msg HM] & _).
  unfold static_interpret_backend_error. rewrite Hd.
  unfold get_generic_exception_from_err_details.
  destruct (errcls d) as [cls|] eqn:Hcls.
  - destruct Hjson as [j Hj]; [by eexists|]. rewrite Hj.
    destruct (decide (cls <> InternalServerError));
      (eexists; split; [done|]; split; intros; congruence).
  - destruct (static_interpret_details_total d msg) as [r Hr];
      [congruence|done|].
    exists r. split; [done|]. split.
    + intros d' c _ _ Hc Hnot.
      rewrite (static_interpret_details_unrecognized d c) in Hr;
        [|by rewrite Hcode|done].
      injection Hr as <-. by rewrite Hmsg.
    + intros d' c msg' _ _ Hc Hin Hne HM' Hnone.
      rewrite (static_interpret_details_unmatched d c msg') in Hr;
        try done; [by injection Hr|by rewrite Hcode|congruence].
Qed.
End TranslatorFacts.

(** C7, as stated, fails: for a not-null violation that names the table
    and no column the schema-free pass returns [SchemaRequired], and the
    schema-aware pass then returns [InternalServerError], not
    [MissingRequiredError]. *)
Lemma C7_counterexample :
  ~ (forall fields d,
        get_error_details fields = inr d ->
        errcls d = None ->
        code d = Some ERROR_NOT_NULL_VIOLATION ->
        static_interpret_backend_error fields = inr SchemaRequired ->
        exists e,
          interpret_backend_error fields = inr (Error e)
          /\ errclass e = MissingRequiredError).
Proof.
  intros Hclaim.
  destruct (get_error_details example_not_null_table) as [e|d] eqn:Hd;
    [by vm_compute in Hd|].
  assert (errcls d = None /\ code d = Some ERROR_NOT_NULL_VIOLATION)
    as [Hcls Hcode].
  { vm_compute in Hd. by injection Hd as <-. }
  destruct (Hclaim _ _ Hd Hcls Hcode) as (e & Hrun & Hclass).
  { by vm_compute. }
  vm_compute in Hrun. injection Hrun as <-. discriminate Hclass.
Qed.

Lemma C7_witness :
  static_interpret_backend_error example_not_null_column = inr SchemaRequired
  /\ exists details hint,
      interpret_backend_error example_not_null_column
      = inr (Error (mkError MissingRequiredError
                      (Some "missing value for required property 'col'")
                      details hint None)).
Proof.
  destruct (get_error_details example_not_null_column) as [e|d] eqn:Hd;
    [by vm_compute in Hd|].
  assert (errcls d = None /\ code d = Some ERROR_NOT_NULL_VIOLATION
          /\ table_name d = None /\ column_name d = Some "col")
    as (Hcls & Hcode & Htab & Hcol).
  { vm_compute in Hd. by injection Hd as <-. }
  destruct (C7_not_null_violation_two_phase _ _ Hd Hcls Hcode)
    as (Hstatic & Hinterpret & _).
  rewrite Htab, Hcol in Hstatic. split; [exact Hstatic|].
  exact (Hinterpret "col" "property 'col'" Hcol ltac:(done) eq_refl).
Defined.

(** C10, as stated, fails: on a field map with the code of a unique
    violation and no message the first pattern match raises [TypeError]. *)
Lemma C10_counterexample :
  ~ (forall fields,
        is_Some (fields !! "C") ->
        exists r, static_interpret_backend_error fields = inr r).
Proof.
  intros Hclaim. destruct (Hclaim example_no_message) as [r Hr].
  - by eexists.
  - by vm_compute in Hr.
Qed.

Lemma C10_witness :
  well_formed example_unknown_code
  /\ static_interpret_backend_error example_unknown_code
     = inr (Error (new_error InternalServerError (Some "internal error"))).
Proof.
  assert (well_formed example_unknown_code) as Hwf.
  { split_and!; [by eexists..|]. intros d Hd. by vm_compute in Hd. }
  split; [exact Hwf|].
  destruct (C10_static_interpret_returns example_unknown_code Hwf)
    as (r & Hr & Hunknown & _).
  rewrite Hr. f_equal.
  destruct (get_error_details example_unknown_code) as [e|d] eqn:Hd;
    [by vm_compute in Hd|].
  apply (Hunknown d "XX000"); [done| |done|].
  - vm_compute in Hd. by injection Hd as <-.
  - apply (bool_decide_unpack _). by vm_compute.
Defined.

End ErrorMechFacts.

Module DeltaFacts.
Import Py Delta.

(** ** Enum values *)

(** When the old values are a prefix of the new ones, the loop of
    [_alter_begin] appends the new values and never uses ``BEFORE``. *)
Lemma add_enum_values_appends type_name old_enum_values old_idx added :
  old_idx <= length old_enum_values ->
  add_enum_values type_name old_idx old_enum_values
    (drop old_idx old_enum_values ++ added)
  = (fun v => AlterEnumAddValue type_name v None) <$> added.
Proof.
  intros Hle.
  remember (length old_enum_values - old_idx) as k eqn:Hk.
  revert old_idx Hle Hk. induction k as [|k IH]; intros old_idx Hle Hk.
  - rewrite drop_ge by lia. simpl.
    assert (old_enum_values !! old_idx = None) as Hnone.
    { apply lookup_ge_None. lia. }
    clear Hk Hle. induction added as [|v added IHa]; simpl; [done|].
    by rewrite Hnone, IHa.
  - destruct (old_enum_values !! old_idx) as [o|] eqn:Ho.
    + rewrite (drop_S _ _ _ Ho). simpl. rewrite Ho.
      destruct (decide (o <> o)) as [Hne|_]; [done|].
      apply IH; [|lia]. apply lookup_lt_Some in Ho. lia.
    + apply lookup_ge_None in Ho. lia.
Qed.

(** The in-place branch of [_alter_begin] is only reached with the old
    values a prefix of the new ones, so every operation it adds is an
    ``ADD VALUE`` without ``BEFORE``. *)
Lemma in_place_branch_never_adds_before type_name old_enum_values
    new_enum_values :
  needs_recreate old_enum_values new_enum_values = false ->
  old_enum_values <> new_enum_values ->
  add_enum_values type_name 0 old_enum_values new_enum_values
  = (fun v => AlterEnumAddValue type_name v None)
      <$> drop (length old_enum_values) new_enum_values.
Proof.
  unfold needs_recreate. intros Hno Hne.
  rewrite bool_decide_eq_true_2 in Hno by done. simpl in Hno.
  apply bool_decide_eq_false in Hno. apply dec_stable in Hno.
  rewrite <-(take_drop (length old_enum_values) new_enum_values) at 1.
  rewrite <-Hno.
  by rewrite <-(add_enum_values_appends type_name old_enum_values 0) by lia.
Qed.

Lemma in_place_branch_witness :
  needs_recreate ["A"] ["A"; "B"] = false
  /\ add_enum_values ("edgedb", "color") 0 ["A"] ["A"; "B"]
     = [AlterEnumAddValue ("edgedb", "color") "B" None].
Proof.
  split; [done|].
  by apply (in_place_branch_never_adds_before ("edgedb", "color")
              ["A"] ["A"; "B"]).
Defined.

(** C1.  Altering the enum ``{A, C}`` to ``{A, B, C}``: the old value list
    is not a prefix of the new one, so [_alter_begin] takes the recreate
    branch and adds [DropEnum] and [CreateEnum] (after the operations that
    rewrite the problematic references), and no ``ADD VALUE 'B' BEFORE
    'C'``. *)
Theorem C1_insert_before_existing_value_recreates_enum {Refs : Type}
    (_get_problematic_refs : bool -> option Refs)
    (_undo_everything : Refs -> list PgOp)
    (has_create_constraint : bool) (type_name : BackendName) :
  let cmd :=
    mkAlterScalar (Some ["A"; "C"]) (Some ["A"; "B"; "C"])
      has_create_constraint true type_name None in
  needs_recreate ["A"; "C"] ["A"; "B"; "C"] = true
  /\ _alter_begin _get_problematic_refs _undo_everything cmd
     = match _get_problematic_refs false with
       | Some refs => _undo_everything refs
       | None => []
       end
       ++ [DropEnum type_name; CreateEnum type_name ["A"; "B"; "C"]].
Proof.
  split; [done|]. unfold _alter_begin. by simpl.
Qed.

(** ** Inheritance views *)

Section Batch.
Variable resolve : ObjId -> SchemaObject.
Variable get_ancestors : ObjId -> list ObjId.

Lemma for_each_pgops {A} (xs : list A) (body : A -> Cmd unit)
    (ops : A -> list PgOp) :
  (forall x pgops, x ∈ xs -> body x pgops = Ok tt (pgops ++ ops x)) ->
  forall pgops, for_each xs body pgops = Ok tt (pgops ++ (xs ≫= ops)).
Proof.
  induction xs as [|x xs IH]; intros Hbody pgops; simpl.
  - by rewrite app_nil_r.
  - unfold bind. rewrite Hbody by left.
    rewrite IH by (intros; apply Hbody; by right).
    by rewrite <-app_assoc.
Qed.

Lemma recreate_inhview_run obj pgops :
  has_table (resolve obj) = true ->
  recreate_inhview resolve get_ancestors obj [] false pgops
  = Ok tt (pgops ++ recreate_ops obj).
Proof.
  intros Ht.
  unfold recreate_inhview, drop_inhview, create_inhview, assert_has_table,
    pgops_add, bind, modify, ret.
  rewrite Ht. simpl. by rewrite <-!app_assoc.
Qed.

Lemma alter_inhview_run obj pgops :
  (if has_table (resolve obj)
   then alter_inhview resolve get_ancestors obj [] false
   else ret tt) pgops
  = Ok tt (pgops ++ alter_ops resolve obj).
Proof.
  unfold alter_ops, alter_inhview, alter_inhview_only, assert_has_table,
    pgops_add, bind, modify, ret.
  destruct (has_table (resolve obj)) eqn:Ht; simpl.
  - by rewrite <-!app_assoc.
  - by rewrite app_nil_r.
Qed.

(** A batch whose recorded sources all have a table adds [batch_ops]. *)
Lemma apply_scheduled_inhview_updates_run (inhview_updates : gset ObjId)
    pgops :
  (forall s, s ∈ inhview_updates -> has_table (resolve s) = true) ->
  apply_scheduled_inhview_updates resolve get_ancestors inhview_updates pgops
  = Ok tt (pgops ++ batch_ops resolve get_ancestors inhview_updates).
Proof.
  intros Htables. unfold apply_scheduled_inhview_updates, batch_ops.
  destruct (decide (inhview_updates = ∅)) as [->|Hne].
  - unfold to_alter. rewrite elements_empty. simpl.
    rewrite difference_empty_L. simpl.
    replace (elements (∅ : gset ObjId)) with (@nil ObjId)
      by (symmetry; apply elements_empty).
    simpl. by rewrite app_nil_r.
  - unfold bind.
    rewrite (for_each_pgops _ _ recreate_ops).
    + rewrite (for_each_pgops _ _ (alter_ops resolve)).
      * by rewrite <-app_assoc.
      * intros x pg _. apply alter_inhview_run.
    + intros x pg Hx. apply recreate_inhview_run, Htables.
      by apply elem_of_elements.
Qed.

Lemma elem_of_to_alter (inhview_updates : gset ObjId) a :
  a ∈ to_alter get_ancestors inhview_updates <->
  (exists s, s ∈ inhview_updates /\ a ∈ get_ancestors s)
  /\ a ∉ inhview_updates.
Proof.
  unfold to_alter. rewrite elem_of_difference, elem_of_list_to_set.
  rewrite list_elem_of_bind. setoid_rewrite elem_of_elements.
  naive_solver.
Qed.

Lemma elem_of_batch_ops (inhview_updates : gset ObjId) op :
  op ∈ batch_ops resolve get_ancestors inhview_updates <->
  (exists s, s ∈ inhview_updates /\ op ∈ recreate_ops s)
  \/ (exists a, a ∈ to_alter get_ancestors inhview_updates
                /\ op ∈ alter_ops resolve a).
Proof.
  unfold batch_ops. rewrite elem_of_app, !list_elem_of_bind.
  setoid_rewrite elem_of_elements. naive_solver.
Qed.

Lemma views_created_app obj ops1 ops2 :
  views_created obj (ops1 ++ ops2)
  = views_created obj ops1 + views_created obj ops2.
Proof. unfold views_created. by rewrite filter_app, length_app. Qed.

Lemma views_created_bind (ops : ObjId -> list PgOp) (l : list ObjId) obj :
  NoDup l ->
  (forall x, x <> obj -> views_created obj (ops x) = 0) ->
  views_created obj (ops obj) <= 1 ->
  views_created obj (l ≫= ops) <= 1
  /\ (obj ∉ l -> views_created obj (l ≫= ops) = 0).
Proof.
  intros Hnd Hother Hself.
  induction Hnd as [|x l Hx Hnd IH].
  { unfold views_created. simpl. split; [lia|done]. }
  rewrite bind_cons, views_created_app. destruct IH as [IH1 IH0].
  destruct (decide (x = obj)) as [->|Hne].
  - rewrite (IH0 Hx). split; [lia|]. intros Hnot. exfalso. apply Hnot. left.
  - rewrite (Hother _ Hne). split; [done|].
    intros Hnot. apply IH0. intros Hin. apply Hnot. by right.
Qed.

Lemma views_created_recreate obj x :
  views_created obj (recreate_ops x) = if decide (x = obj) then 1 else 0.
Proof.
  unfold views_created, recreate_ops, get_inhview. simpl.
  rewrite !filter_cons, filter_nil. simpl.
  repeat case_decide; try done; simpl in *;
    repeat match goal with
      | H : bool_decide _ = true |- _ => apply bool_decide_eq_true in H
      | H : ~ (bool_decide _ = true) |- _ =>
          rewrite bool_decide_eq_true in H
      end; done.
Qed.

Lemma views_created_alter obj x :
  views_created obj (alter_ops resolve x)
  <= if decide (x = obj) then 1 else 0.
Proof.
  unfold views_created, alter_ops, get_inhview.
  destruct (has_table (resolve x)); simpl; [|case_decide; lia].
  rewrite !filter_cons, filter_nil. simpl.
  repeat case_decide; try done; simpl in *;
    repeat match goal with
      | H : bool_decide _ = true |- _ => apply bool_decide_eq_true in H
      | H : ~ (bool_decide _ = true) |- _ =>
          rewrite bool_decide_eq_true in H
      end; try done; lia.
Qed.

(** C8, as amended.  When the scheduled inheritance-view updates are
    applied and every recorded source has a backing table: every recorded
    source gets ``DROP VIEW`` (if it exists) directly followed by
    ``CREATE VIEW``; every ancestor of a recorded source that is not
    itself recorded and has a backing table gets ``CREATE OR REPLACE VIEW``
    and no drop; an object that is not recorded and has no backing table
    gets no view; and no view is created more than once in the batch. *)
Theorem C8_scheduled_inhview_updates (inhview_updates : gset ObjId) pgops :
  (forall s, s ∈ inhview_updates -> has_table (resolve s) = true) ->
  exists ops,
    apply_scheduled_inhview_updates resolve get_ancestors inhview_updates
      pgops
    = Ok tt (pgops ++ ops)
    /\ (forall s, s ∈ inhview_updates ->
          exists before after,
            ops = before
                  ++ [DropView s true;
                      CreateView (get_inhview s [] []) false]
                  ++ after)
    /\ (forall s a,
          s ∈ inhview_updates -> a ∈ get_ancestors s ->
          a ∉ inhview_updates -> has_table (resolve a) = true ->
          CreateView (get_inhview a [] []) true ∈ ops
          /\ forall conditional, DropView a conditional ∉ ops)
    /\ (forall a,
          a ∉ inhview_updates -> has_table (resolve a) = false ->
          views_created a ops = 0)
    /\ (forall obj, views_created obj ops <= 1).
Proof.
  intros Htables. exists (batch_ops resolve get_ancestors inhview_updates).
  split; [by apply apply_scheduled_inhview_updates_run|]. split_and!.
  - intros s Hs. apply elem_of_elements in Hs.
    apply list_elem_of_split in Hs as (l1 & l2 & Hl).
    unfold batch_ops. rewrite Hl, bind_app, bind_cons.
    exists (l1 ≫= recreate_ops),
      (Comment (get_inhview s [] []) :: (l2 ≫= recreate_ops)
       ++ (elements (to_alter get_ancestors inhview_updates)
             ≫= alter_ops resolve)).
    unfold recreate_ops at 2. simpl. by rewrite <-!app_assoc.
  - intros s a Hs Ha Hnot Ht. split.
    + apply elem_of_batch_ops. right. exists a. split.
      * apply elem_of_to_alter. eauto.
      * unfold alter_ops. rewrite Ht. left.
    + intros c [(s' & Hs' & Hop)|(a' & _ & Hop)]%elem_of_batch_ops.
      * unfold recreate_ops in Hop.
        apply elem_of_cons in Hop as [[= -> _]|Hop]; [done|].
        apply elem_of_cons in Hop as [?|Hop]; [done|].
        apply elem_of_cons in Hop as [?|Hop]; [done|].
        by apply elem_of_nil in Hop.
      * unfold alter_ops in Hop. destruct (has_table (resolve a')).
        -- apply elem_of_cons in Hop as [?|Hop]; [done|].
           apply elem_of_cons in Hop as [?|Hop]; [done|].
           by apply elem_of_nil in Hop.
        -- by apply elem_of_nil in Hop.
  - intros a Hnot Ht. unfold batch_ops. rewrite views_created_app.
    destruct (views_created_bind recreate_ops (elements inhview_updates) a)
      as [_ H0].
    { apply NoDup_elements. }
    { intros x Hx. rewrite views_created_recreate. by case_decide. }
    { rewrite views_created_recreate. by case_decide. }
    rewrite H0 by (by rewrite elem_of_elements).
    assert (forall l : list ObjId,
      views_created a (l ≫= alter_ops resolve) = 0) as ->; [|done].
    induction l as [|x l IH]; [done|].
    rewrite bind_cons, views_created_app, IH.
    pose proof (views_created_alter a x) as Hx.
    destruct (decide (x = a)) as [->|]; [|lia].
    unfold alter_ops. by rewrite Ht.
  - intros obj. unfold batch_ops. rewrite views_created_app.
    destruct (views_created_bind recreate_ops (elements inhview_updates) obj)
      as [Hr1 Hr0].
    { apply NoDup_elements. }
    { intros x Hx. rewrite views_created_recreate. by case_decide. }
    { rewrite views_created_recreate. by case_decide. }
    destruct (views_created_bind (alter_ops resolve)
                (elements (to_alter get_ancestors inhview_updates)) obj)
      as [Ha1 Ha0].
    { apply NoDup_elements. }
    { intros x Hx. pose proof (views_created_alter obj x).
      case_decide; [done|lia]. }
    { pose proof (views_created_alter obj obj). by case_decide. }
    destruct (decide (obj ∈ inhview_updates)) as [Hin|Hnot].
    + rewrite Ha0; [lia|]. rewrite elem_of_elements, elem_of_to_alter.
      naive_solver.
    + rewrite Hr0; [lia|]. by rewrite elem_of_elements.
Qed.
End Batch.

(** C8, as stated, fails: the link ``friends`` (object 1) is recorded, its
    ancestor ``std::link`` (object 2) is not and has no table, and the batch
    adds no ``CREATE OR REPLACE VIEW`` for it. *)
Lemma C8_counterexample :
  ~ (forall (inhview_updates : gset ObjId) pgops pgops',
        apply_scheduled_inhview_updates example_resolve example_ancestors
          inhview_updates pgops
        = Ok tt pgops' ->
        forall s a,
          s ∈ inhview_updates -> a ∈ example_ancestors s ->
          a ∉ inhview_updates ->
          CreateView (get_inhview a [] []) true ∈ pgops').
Proof.
  intros Hclaim.
  assert (apply_scheduled_inhview_updates example_resolve example_ancestors
            {[1]} []
          = Ok tt (recreate_ops 1)) as Hrun by (by vm_compute).
  specialize (Hclaim _ _ _ Hrun 1 2).
  assert (CreateView (get_inhview 2 [] []) true ∈ recreate_ops 1) as Hin.
  { apply Hclaim; [set_solver|left|set_solver]. }
  unfold recreate_ops in Hin.
  repeat (apply elem_of_cons in Hin as [Hin|Hin]; [done|]).
  by apply elem_of_nil in Hin.
Qed.

Lemma C8_witness :
  exists ops,
    apply_scheduled_inhview_updates example_resolve example_ancestors
      {[1]} []
    = Ok tt ops
    /\ views_created 1 ops <= 1 /\ views_created 2 ops = 0.
Proof.
  destruct (C8_scheduled_inhview_updates example_resolve example_ancestors
              {[1]} [])
    as (ops & Hrun & _ & _ & Hnone & Honce).
  { intros s ->%elem_of_singleton. done. }
  exists ops. split_and!; [done|apply Honce|].
  apply Hnone; [set_solver|done].
Defined.

End DeltaFacts.

(** ** The two passes of the error translator *)

Module TranslatorProtocol.
Import Py ErrorMech.

Section Protocol.
Context `{Library}.

(** What [get_error_details] returns. *)
Lemma get_error_details_inv fields d :
  get_error_details fields = inr d ->
  message d = fields !! "M"
  /\ (detail d = None \/ detail_json d = None)
  /\ (forall s, detail d = Some s ->
        fields !! "D" = Some s /\ String.prefix "{" s = false)
  /\ (forall j, detail_json d = Some j ->
        exists s, fields !! "D" = Some s /\ String.prefix "{" s = true
                  /\ json_loads s = Some j)
  /\ match errcls d with
     | Some cls =>
         exists j c,
           detail_json d = Some j /\ j <> ∅ /\ j !! "code" = Some c
           /\ json_truthy (Some c) = true
           /\ get_error_class_from_code c = Some cls
           /\ code d = None
     | None =>
         code d = fields !! "C" /\ is_Some (fields !! "C")
         /\ schema_name d = fields !! "s" /\ table_name d = fields !! "t"
         /\ column_name d = fields !! "c"
         /\ constraint_name d = fields !! "n"
     end.
Proof.
  unfold get_error_details.
  destruct (fields !! "D") as [s|] eqn:HD.
  - destruct (String.prefix "{" s) eqn:Hp.
    + destruct (json_loads s) as [j|] eqn:Hj; [|done].
      destruct (dict_truthy (Some j)) eqn:Hdt.
      * cbn [mbind option_bind].
        destruct (json_truthy (j !! "code")) eqn:Hjt.
        -- destruct (j !! "code") as [c|] eqn:Hc; [|done].
           cbn [mbind option_bind].
           destruct (get_error_class_from_code c) as [cls|] eqn:Hcls.
           ++ intros [= <-]. simpl. split_and!; eauto; try done.
              ** intros ? [= <-]. eauto.
              ** exists j, c. split_and!; try done.
                 simpl in Hdt. apply negb_true_iff in Hdt.
                 by apply bool_decide_eq_false in Hdt.
           ++ destruct (fields !! "C") as [c0|] eqn:HC; [|done].
              intros [= <-]. simpl. split_and!; eauto; try done.
              intros ? [= <-]. eauto.
        -- destruct (fields !! "C") as [c0|] eqn:HC; [|done].
           intros [= <-]. simpl. split_and!; eauto; try done.
           intros ? [= <-]. eauto.
      * destruct (fields !! "C") as [c0|] eqn:HC; [|done].
        intros [= <-]. simpl. split_and!; eauto; try done.
        intros ? [= <-]. eauto.
    + simpl. destruct (fields !! "C") as [c0|] eqn:HC; [|done].
      intros [= <-]. simpl. split_and!; eauto; try done.
      intros ? [= <-]. eauto.
  - simpl. destruct (fields !! "C") as [c0|] eqn:HC; [|done].
    intros [= <-]. simpl. split_and!; eauto; try done.
Qed.


(** The details record carries the detail either as text or as parsed JSON,
    never both, and an error class only along with the parsed detail: the
    generic-exception builder, which reads ``detail_json``, cannot fail on
    it. *)
Theorem error_details_feed_generic_exception fields d :
  get_error_details fields = inr d ->
  (detail d = None \/ detail_json d = None)
  /\ (is_Some (errcls d) -> is_Some (detail_json d) /\ code d = None)
  /\ exists r, get_generic_exception_from_err_details d = inr r.
Proof.
  intros (_ & Hboth & _ & _ & Hcls)%get_error_details_inv.
  split; [done|]. unfold get_generic_exception_from_err_details.
  destruct (errcls d) as [cls|].
  - destruct Hcls as (j & c & Hj & _ & _ & _ & _ & Hcode). rewrite Hj.
    split; [eauto|]. case_decide; eauto.
  - split; [by intros [? ?]|eauto].
Qed.

(** An error raised by EdgeDB's own SQL code (its detail is a JSON object
    with a ``code`` the error registry knows) is rebuilt by the schema-free
    pass as an instance of that class with the backend message, whatever the
    SQLSTATE is and even when there is none; unless the class is
    [InternalServerError], it carries the line and column of the detail,
    -1 where the detail has none. *)
Theorem generic_error_short_circuit fields s j c cls :
  fields !! "D" = Some s -> String.prefix "{" s = true ->
  json_loads s = Some j -> j !! "code" = Some c ->
  json_truthy (Some c) = true ->
  get_error_class_from_code c = Some cls ->
  static_interpret_backend_error fields
  = inr (Error
           (if decide (cls = InternalServerError)
            then new_error cls (fields !! "M")
            else mkError cls (fields !! "M") None None
                   (Some (default (JInt (-1)) (j !! "line"),
                          default (JInt (-1)) (j !! "column"))))).
Proof.
  intros HD Hp Hj Hc Ht Hcls.
  unfold static_interpret_backend_error, get_error_details.
  rewrite HD, Hp, Hj.
  assert (dict_truthy (Some j) = true) as ->.
  { simpl. apply negb_true_iff, bool_decide_eq_false. intros ->.
    by rewrite lookup_empty in Hc. }
  cbn [mbind option_bind]. rewrite Hc, Ht. cbn [mbind option_bind].
  rewrite Hcls. unfold get_generic_exception_from_err_details. simpl.
  destruct (decide (cls = InternalServerError)) as [->|Hne].
  - by rewrite decide_False by (by intros []).
  - by rewrite decide_True.
Qed.

(** Without a parsed detail, both passes need the SQLSTATE: a field map
    that has no ``C`` and whose detail, if any, is not JSON makes both raise
    [KeyError]. *)
Theorem missing_code_raises_KeyError fields :
  fields !! "C" = None ->
  (forall s, fields !! "D" = Some s -> String.prefix "{" s = false) ->
  static_interpret_backend_error fields = inl KeyError
  /\ interpret_backend_error fields = inl KeyError.
Proof.
  intros HC HD.
  assert (get_error_details fields = inl KeyError) as Hd.
  { unfold get_error_details. rewrite HC.
    destruct (fields !! "D") as [s|]; [|done]. by rewrite (HD s). }
  unfold static_interpret_backend_error, interpret_backend_error.
  by rewrite Hd.
Qed.

(** The schema-aware pass never answers with the [SchemaRequired]
    sentinel. *)
Theorem interpret_backend_error_is_final fields :
  interpret_backend_error fields <> inr SchemaRequired.
Proof.
  unfold interpret_backend_error, interpret_not_null, interpret_constraint.
  repeat case_match; simplify_eq; done.
Qed.

Lemma not_in_schema_dependent_codes c :
  c ∉ schema_dependent_codes ->
  bool_decide (Some c = Some ERROR_NOT_NULL_VIOLATION) = false
  /\ bool_decide (c ∈ constraint_errors) = false
  /\ bool_decide (c ∈ SCHEMA_CODES) = false
  /\ bool_decide (Some c = Some ERROR_INVALID_TEXT_REPRESENTATION) = false
  /\ bool_decide (Some c = Some ERROR_NUMERIC_VALUE_OUT_OF_RANGE) = false
  /\ bool_decide (Some c = Some ERROR_INVALID_DATETIME_FORMAT) = false
  /\ bool_decide (Some c = Some ERROR_DATETIME_FIELD_OVERFLOW) = false
  /\ bool_decide (Some c = Some ERROR_WRONG_OBJECT_TYPE) = false.
Proof.
  intros Hnot.
  assert (forall c', c' ∈ schema_dependent_codes ->
            bool_decide (Some c = Some c') = false) as Hne.
  { intros c' Hc'. apply bool_decide_eq_false. intros [= ->]. done. }
  assert (forall l, l ⊆ schema_dependent_codes ->
            bool_decide (c ∈ l) = false) as Hnotin.
  { intros l Hl. apply bool_decide_eq_false. intros Hin. by apply Hnot, Hl. }
  split_and!; first [apply Hne | apply Hnotin];
    first [ apply (bool_decide_unpack _); by vm_compute
          | unfold schema_dependent_codes; set_solver ].
Qed.

(** The schema-aware pass translates only the codes whose translation can
    depend on the schema; for any other error (a division by zero, a
    deadlock, a generic error) it answers [InternalServerError] with the
    backend message, so it is no substitute for the schema-free pass. *)
Theorem second_pass_default_is_internal_error fields d :
  get_error_details fields = inr d ->
  (forall c, code d = Some c -> c ∉ schema_dependent_codes) ->
  interpret_backend_error fields
  = inr (Error (new_error InternalServerError (message d))).
Proof.
  intros Hd Hcode. unfold interpret_backend_error. rewrite Hd.
  destruct (code d) as [c|] eqn:Hc; [|done].
  destruct (not_in_schema_dependent_codes c (Hcode c eq_refl))
    as (-> & -> & _ & -> & -> & -> & -> & ->).
  done.
Qed.

(** The schema-free pass asks for the schema only for the codes whose
    translation can depend on it. *)
Theorem schema_required_only_for_schema_codes fields :
  static_interpret_backend_error fields = inr SchemaRequired ->
  exists c, fields !! "C" = Some c /\ c ∈ schema_dependent_codes.
Proof.
  unfold static_interpret_backend_error.
  destruct (get_error_details fields) as [e|d] eqn:Hd; [done|].
  apply get_error_details_inv in Hd as (_ & _ & _ & _ & Hcls).
  unfold get_generic_exception_from_err_details.
  destruct (errcls d) as [cls|]; [by repeat case_match|].
  destruct Hcls as (Hcode & [c HC] & _). rewrite HC in Hcode.
  intros Hrun. exists c. split; [done|].
  destruct (decide (c ∈ schema_dependent_codes)) as [|Hnot]; [done|].
  exfalso. revert Hrun. unfold static_interpret_details. rewrite Hcode.
  destruct (not_in_schema_dependent_codes c Hnot)
    as (-> & -> & -> & _ & _ & _ & _ & ->).
  by repeat case_match.
Qed.


(** *** [translate_pgtype] *)

Lemma enum_re_sub_returns pieces :
  (forall r, inr r ∈ pieces -> is_Some (UUID (group_id r))) ->
  exists m, enum_re_sub pieces = inr m.
Proof.
  induction pieces as [|[text|r] pieces IH]; intros Hids; simpl.
  - eauto.
  - destruct IH as [m ->]; [|eauto]. intros r Hr. apply Hids. by right.
  - destruct (Hids r) as [type_id Hid]; [left|].
    unfold replace. rewrite Hid.
    destruct IH as [m ->]; [|by destruct (type_displayname type_id); eauto].
    intros r' Hr'. apply Hids. by right.
Qed.

Lemma enum_re_sub_raises pieces r :
  inr r ∈ pieces -> UUID (group_id r) = None ->
  enum_re_sub pieces = inl (ValueError "badly formed hexadecimal UUID string").
Proof.
  intros Hin Hid.
  induction pieces as [|[text|r'] pieces IH]; simpl.
  - by apply elem_of_nil in Hin.
  - apply elem_of_cons in Hin as [[=]|Hin]. by rewrite IH.
  - unfold replace. destruct (UUID (group_id r')) as [type_id|] eqn:Hid';
      [|done].
    apply elem_of_cons in Hin as [[= ->]|Hin]; [congruence|].
    rewrite IH by done. by destruct (type_displayname type_id).
Qed.

Lemma translate_pgtype_returns msg :
  (forall r, inr r ∈ enum_re_split msg -> is_Some (UUID (group_id r))) ->
  exists m, translate_pgtype msg = inr m.
Proof.
  intros Hids. unfold translate_pgtype.
  destruct (negb _); [eauto|]. by apply enum_re_sub_returns.
Qed.

Lemma translate_pgtype_raises msg r :
  pgtype_re_sub msg = msg ->
  inr r ∈ enum_re_split msg -> UUID (group_id r) = None ->
  translate_pgtype msg
  = inl (ValueError "badly formed hexadecimal UUID string").
Proof.
  intros Hsame Hin Hid. unfold translate_pgtype.
  rewrite bool_decide_eq_true_2 by done. simpl.
  by eapply enum_re_sub_raises.
Qed.


(** The data errors of [SCHEMA_CODES] take both passes.  For an error with
    one of these codes and a message, that is not a generic error: the
    schema-free pass asks for the schema, except for an invalid datetime
    format whose message starts with 'missing required time zone' or
    'unexpected time zone', which it turns into an [InvalidValueError]
    with the message as it is and the hint of the detail.  The schema-aware
    pass hands the message to [translate_pgtype]: what that returns is the
    message of a [NumericOutOfRangeError] for a numeric value out of range
    and of an [InvalidValueError] otherwise, with the hint only for the two
    datetime codes; what it raises escapes.  [translate_pgtype] returns
    when a backend type name was replaced or every enum domain the message
    names carries a well-formed id, and raises [ValueError] when no type
    name was replaced and the id of some enum domain is malformed. *)
Theorem schema_codes_take_both_passes fields d c msg :
  get_error_details fields = inr d ->
  errcls d = None ->
  code d = Some c -> c ∈ SCHEMA_CODES ->
  message d = Some msg ->
  let hint :=
    if dict_truthy (detail_json d)
    then j ← detail_json d; j !! "hint" else None in
  let time_zone :=
    bool_decide (c = ERROR_INVALID_DATETIME_FORMAT)
    && (String.prefix "missing required time zone" msg
        || String.prefix "unexpected time zone" msg) in
  let datetime :=
    bool_decide (c = ERROR_INVALID_DATETIME_FORMAT)
    || bool_decide (c = ERROR_DATETIME_FIELD_OVERFLOW) in
  static_interpret_backend_error fields
  = inr (if time_zone
         then Error (mkError InvalidValueError (Some msg) None hint None)
         else SchemaRequired)
  /\ interpret_backend_error fields
     = match translate_pgtype msg with
       | inl e => inl e
       | inr translated =>
           inr (Error
                  (mkError
                     (if bool_decide (c = ERROR_NUMERIC_VALUE_OUT_OF_RANGE)
                      then NumericOutOfRangeError else InvalidValueError)
                     (Some translated) None
                     (if datetime then hint else None) None))
       end
  /\ (pgtype_re_sub msg <> msg
      \/ (forall r, inr r ∈ enum_re_split msg ->
            is_Some (UUID (group_id r))) ->
      exists translated, translate_pgtype msg = inr translated)
  /\ (pgtype_re_sub msg = msg ->
      (exists r, inr r ∈ enum_re_split msg /\ UUID (group_id r) = None) ->
      interpret_backend_error fields
      = inl (ValueError "badly formed hexadecimal UUID string")).
Proof.
  intros Hd Hcls Hcode Hin Hmsg hint time_zone datetime.
  subst hint time_zone datetime.
  assert (interpret_backend_error fields
          = match translate_pgtype msg with
            | inl e => inl e
            | inr translated =>
                inr (Error
                       (mkError
                          (if bool_decide
                                (c = ERROR_NUMERIC_VALUE_OUT_OF_RANGE)
                           then NumericOutOfRangeError
                           else InvalidValueError)
                          (Some translated) None
                          (if bool_decide (c = ERROR_INVALID_DATETIME_FORMAT)
                              || bool_decide
                                   (c = ERROR_DATETIME_FIELD_OVERFLOW)
                           then if dict_truthy (detail_json d)
                                then j ← detail_json d; j !! "hint"
                                else None
                           else None) None))
            end) as Hsecond.
  { unfold interpret_backend_error. rewrite Hd, Hcode, Hmsg.
    unfold translate_message. unfold SCHEMA_CODES in Hin.
    repeat (apply elem_of_cons in Hin as [->|Hin];
            [vm_compute bool_decide; simpl;
             by destruct (translate_pgtype msg)|]).
    by apply elem_of_nil in Hin. }
  split_and!.
  - rewrite (ErrorMechFacts.static_of_details _ _ Hd Hcls).
    unfold static_interpret_details. rewrite Hcode, Hmsg.
    unfold SCHEMA_CODES in Hin.
    repeat (apply elem_of_cons in Hin as [->|Hin];
            [vm_compute bool_decide; simpl;
             repeat case_match; simplify_eq; done|]).
    by apply elem_of_nil in Hin.
  - exact Hsecond.
  - intros [Hne|Hids]; [|by apply translate_pgtype_returns].
    unfold translate_pgtype. rewrite bool_decide_eq_false_2 by done.
    simpl. eauto.
  - intros Hsame (r & Hr & Hid). rewrite Hsecond.
    by rewrite (translate_pgtype_raises msg r).
Qed.

End Protocol.

(** ** The properties at the example libraries *)

Lemma error_details_feed_generic_exception_witness :
  exists d r,
    get_error_details example_unknown_code = inr d
    /\ get_generic_exception_from_err_details d = inr r.
Proof.
  destruct (get_error_details example_unknown_code) as [e|d] eqn:Hd;
    [by vm_compute in Hd|].
  destruct (error_details_feed_generic_exception _ _ Hd) as (_ & _ & r & Hr).
  by exists d, r.
Defined.

Lemma generic_error_short_circuit_witness :
  static_interpret_backend_error (H:=example_resolving_library)
    example_generic_error
  = inr (Error (mkError InvalidValueError (Some "invalid input") None None
                  (Some (JInt (-1), JInt (-1))))).
Proof.
  rewrite (generic_error_short_circuit (H:=example_resolving_library)
             example_generic_error example_detail
             {["code" := JInt 83951616]} (JInt 83951616) InvalidValueError);
    by vm_compute.
Defined.

Lemma missing_code_raises_KeyError_witness :
  static_interpret_backend_error example_no_code = inl KeyError
  /\ interpret_backend_error example_no_code = inl KeyError.
Proof.
  apply missing_code_raises_KeyError; [done|].
  intros s Hs. by vm_compute in Hs.
Defined.

Lemma second_pass_default_is_internal_error_witness :
  interpret_backend_error example_division_by_zero
  = inr (Error (new_error InternalServerError (Some "division by zero"))).
Proof.
  destruct (get_error_details example_division_by_zero) as [e|d] eqn:Hd;
    [by vm_compute in Hd|].
  assert (code d = Some "22012" /\ message d = Some "division by zero")
    as [Hcode Hmsg].
  { vm_compute in Hd. by injection Hd as <-. }
  rewrite <-Hmsg.
  apply second_pass_default_is_internal_error; [done|].
  intros c. rewrite Hcode. intros [= <-].
  apply (bool_decide_unpack _). by vm_compute.
Defined.

Lemma schema_required_only_for_schema_codes_witness :
  exists c,
    example_not_null_column !! "C" = Some c /\ c ∈ schema_dependent_codes.
Proof.
  apply schema_required_only_for_schema_codes. by vm_compute.
Defined.


Lemma schema_codes_take_both_passes_witness :
  (static_interpret_backend_error example_overflow = inr SchemaRequired
   /\ interpret_backend_error example_overflow
      = inr (Error (new_error NumericOutOfRangeError
                      (Some "value out of range: overflow"))))
  /\ interpret_backend_error (H:=example_resolving_library)
       example_invalid_enum_value
     = inr (Error (new_error InvalidValueError
                     (Some ("invalid input value for enum 'default::Color': "
                            +:+ quoted "x"))))
  /\ interpret_backend_error (H:=example_resolving_library)
       example_invalid_enum_domain
     = inl (ValueError "badly formed hexadecimal UUID string").
Proof.
  split; [|split].
  - destruct (get_error_details example_overflow) as [e|d] eqn:Hd;
      [by vm_compute in Hd|].
    assert (errcls d = None /\ code d = Some "22003"
            /\ message d = Some "value out of range: overflow"
            /\ detail_json d = None) as (Hcls & Hcode & Hmsg & Hjson).
    { vm_compute in Hd. by injection Hd as <-. }
    destruct (schema_codes_take_both_passes example_overflow d "22003" _
                Hd Hcls Hcode ltac:(right; left) Hmsg)
      as (Hstatic & Hsecond & _).
    rewrite Hstatic, Hsecond. split; [done|]. by rewrite Hjson.
  - destruct (get_error_details (H:=example_resolving_library)
                example_invalid_enum_value) as [e|d] eqn:Hd;
      [by vm_compute in Hd|].
    assert (errcls d = None /\ code d = Some "22P02"
            /\ message d = Some example_enum_message
            /\ detail_json d = None) as (Hcls & Hcode & Hmsg & Hjson).
    { vm_compute in Hd. by injection Hd as <-. }
    destruct (schema_codes_take_both_passes (H:=example_resolving_library)
                example_invalid_enum_value d "22P02" _
                Hd Hcls Hcode ltac:(left) Hmsg)
      as (_ & Hsecond & _).
    rewrite Hsecond. by vm_compute.
  - destruct (get_error_details (H:=example_resolving_library)
                example_invalid_enum_domain) as [e|d] eqn:Hd;
      [by vm_compute in Hd|].
    assert (errcls d = None /\ code d = Some "22P02"
            /\ message d = Some example_bad_enum_message)
      as (Hcls & Hcode & Hmsg).
    { vm_compute in Hd. by injection Hd as <-. }
    destruct (schema_codes_take_both_passes (H:=example_resolving_library)
                example_invalid_enum_domain d "22P02" _
                Hd Hcls Hcode ltac:(left) Hmsg)
      as (_ & _ & _ & Hraises).
    apply Hraises; [done|].
    exists (mkEnumMatch "enum" ("edgedbpub." +:+ quoted "zz_domain") "zz").
    split; [|done]. vm_compute. right. left.
Defined.

End TranslatorProtocol.

(** ** Inheritance views outside of a batch *)

Module InheritanceViews.
Import Py Delta DeltaFacts.

Section Views.
Variable resolve : ObjId -> SchemaObject.
Variable get_ancestors : ObjId -> list ObjId.

Lemma alter_inhview_only_run obj excl pgops :
  has_table (resolve obj) = true ->
  alter_inhview_only resolve obj excl pgops
  = Ok tt (pgops ++ replace_ops resolve excl obj).
Proof.
  intros Ht.
  unfold alter_inhview_only, replace_ops, assert_has_table, pgops_add, bind,
    modify, ret.
  rewrite Ht. simpl. by rewrite <-!app_assoc.
Qed.

Lemma alter_ancestor_inhviews_run obj excl pgops :
  alter_ancestor_inhviews resolve get_ancestors obj excl pgops
  = Ok tt (pgops ++ ancestors_ops resolve get_ancestors excl obj).
Proof.
  unfold alter_ancestor_inhviews, ancestors_ops.
  apply for_each_pgops. intros a pg _.
  destruct (has_table (resolve a)) eqn:Ht.
  - by apply alter_inhview_only_run.
  - unfold replace_ops. rewrite Ht. unfold ret. by rewrite app_nil_r.
Qed.

Lemma alter_inhview_with_ancestors_run obj excl pgops :
  (if has_table (resolve obj)
   then alter_inhview resolve get_ancestors obj excl true
   else ret tt) pgops
  = Ok tt (pgops
           ++ if has_table (resolve obj)
              then replace_ops resolve excl obj
                   ++ ancestors_ops resolve get_ancestors excl obj
              else []).
Proof.
  destruct (has_table (resolve obj)) eqn:Ht.
  - unfold alter_inhview, bind.
    rewrite alter_inhview_only_run by done.
    rewrite alter_ancestor_inhviews_run. by rewrite <-app_assoc.
  - unfold ret. by rewrite app_nil_r.
Qed.

Lemma elem_of_replace_ops excl a op :
  op ∈ replace_ops resolve excl a <->
  has_table (resolve a) = true
  /\ (op = CreateView (get_inhview a excl []) true
      \/ op = Comment (get_inhview a excl [])).
Proof.
  unfold replace_ops. destruct (has_table (resolve a)).
  - rewrite !elem_of_cons, elem_of_nil. naive_solver.
  - rewrite elem_of_nil. naive_solver.
Qed.

Lemma elem_of_ancestors_ops excl obj op :
  op ∈ ancestors_ops resolve get_ancestors excl obj <->
  exists a, a ∈ get_ancestors obj /\ op ∈ replace_ops resolve excl a.
Proof.
  unfold ancestors_ops. rewrite list_elem_of_bind. naive_solver.
Qed.

(** [recreate_inhview] with ``alter_ancestors`` set, on an object that has a
    table: only the view of the object itself is dropped and created anew;
    after that, the view of every ancestor that has a table is replaced in
    place, and nothing else is added.  On an object without a table the
    call fails on the assertion of [create_inhview]. *)
Theorem recreate_inhview_replaces_ancestors obj exclude_ptrs pgops :
  (has_table (resolve obj) = true ->
   exists ops,
     recreate_inhview resolve get_ancestors obj exclude_ptrs true pgops
     = Ok tt (pgops
              ++ [DropView obj true;
                  CreateView (get_inhview obj [] exclude_ptrs) false;
                  Comment (get_inhview obj [] exclude_ptrs)]
              ++ ops)
     /\ (forall a,
           a ∈ get_ancestors obj -> has_table (resolve a) = true ->
           CreateView (get_inhview a [] []) true ∈ ops)
     /\ (forall op,
           op ∈ ops ->
           exists a,
             a ∈ get_ancestors obj /\ has_table (resolve a) = true
             /\ (op = CreateView (get_inhview a [] []) true
                 \/ op = Comment (get_inhview a [] []))))
  /\ (has_table (resolve obj) = false ->
      forall alter_ancestors,
        recreate_inhview resolve get_ancestors obj exclude_ptrs
          alter_ancestors pgops
        = Raise (AssertionError "has_table(obj, schema)")).
Proof.
  split.
  - intros Ht. exists (ancestors_ops resolve get_ancestors [] obj). split_and!.
    + unfold recreate_inhview, drop_inhview, create_inhview, assert_has_table,
        pgops_add, bind, modify, ret.
      rewrite Ht. simpl. rewrite alter_ancestor_inhviews_run.
      by rewrite <-!app_assoc.
    + intros a Ha Hta. apply elem_of_ancestors_ops. exists a. split; [done|].
      apply elem_of_replace_ops. auto.
    + intros op (a & Ha & Hop)%elem_of_ancestors_ops.
      apply elem_of_replace_ops in Hop as [Hta Hop]. eauto.
  - intros Ht aa.
    unfold recreate_inhview, drop_inhview, create_inhview, assert_has_table,
      pgops_add, bind, modify, ret.
    by rewrite Ht.
Qed.

Lemma elem_of_rebase_ops_of excl (objs : gset ObjId) op :
  op ∈ elements objs ≫= rebase_ops_of resolve get_ancestors excl ->
  exists a,
    touches resolve get_ancestors objs a
    /\ has_table (resolve a) = true
    /\ (op = CreateView (get_inhview a excl []) true
        \/ op = Comment (get_inhview a excl [])).
Proof.
  intros (b & Hop & Hb%elem_of_elements)%list_elem_of_bind.
  unfold rebase_ops_of in Hop.
  destruct (has_table (resolve b)) eqn:Htb; [|by apply elem_of_nil in Hop].
  apply elem_of_app in Hop as [Hop|Hop].
  - apply elem_of_replace_ops in Hop as [_ Hop]. exists b.
    split_and!; [by left|done..].
  - apply elem_of_ancestors_ops in Hop as (a & Ha & Hop).
    apply elem_of_replace_ops in Hop as [Hta Hop]. exists a.
    split_and!; [right; eauto|done..].
Qed.

Lemma rebase_ops_of_own excl (objs : gset ObjId) b :
  b ∈ objs -> has_table (resolve b) = true ->
  CreateView (get_inhview b excl []) true
  ∈ elements objs ≫= rebase_ops_of resolve get_ancestors excl.
Proof.
  intros Hb Ht. apply list_elem_of_bind. exists b.
  split; [|by apply elem_of_elements].
  unfold rebase_ops_of. rewrite Ht. apply elem_of_app. left.
  apply elem_of_replace_ops. auto.
Qed.

(** [update_base_inhviews_on_rebase] never fails and never drops a view:
    all it adds are ``CREATE OR REPLACE VIEW`` operations and their
    comments, on objects that have a table.  The view of every added base
    that has a table is replaced with no child excluded, that of every
    removed base with the rebased object excluded; the other views touched
    are those of the ancestors of these bases, and a view replaced on
    account of a removed base always excludes the rebased object. *)
Theorem rebase_replaces_base_inhviews (bases orig_bases : gset ObjId) obj
    pgops :
  exists ops,
    update_base_inhviews_on_rebase resolve get_ancestors bases orig_bases
      obj pgops
    = Ok tt (pgops ++ ops)
    /\ (forall b,
          b ∈ bases ∖ orig_bases -> has_table (resolve b) = true ->
          CreateView (get_inhview b [] []) true ∈ ops)
    /\ (forall b,
          b ∈ orig_bases ∖ bases -> has_table (resolve b) = true ->
          CreateView (get_inhview b [obj] []) true ∈ ops)
    /\ (forall op,
          op ∈ ops ->
          exists a excl,
            has_table (resolve a) = true
            /\ (op = CreateView (get_inhview a excl []) true
                \/ op = Comment (get_inhview a excl []))
            /\ (excl = []
                /\ touches resolve get_ancestors (bases ∖ orig_bases) a
                \/ excl = [obj]
                   /\ touches resolve get_ancestors (orig_bases ∖ bases) a)).
Proof.
  exists ((elements (bases ∖ orig_bases) ≫= rebase_ops_of resolve get_ancestors [])
          ++ (elements (orig_bases ∖ bases) ≫= rebase_ops_of resolve get_ancestors [obj])).
  split_and!.
  - unfold update_base_inhviews_on_rebase, bind.
    rewrite (for_each_pgops _ _ (rebase_ops_of resolve get_ancestors [])).
    + rewrite (for_each_pgops _ _ (rebase_ops_of resolve get_ancestors [obj])).
      * by rewrite <-app_assoc.
      * intros b pg _. apply alter_inhview_with_ancestors_run.
    + intros b pg _. apply alter_inhview_with_ancestors_run.
  - intros b Hb Ht. apply elem_of_app. left. by apply rebase_ops_of_own.
  - intros b Hb Ht. apply elem_of_app. right. by apply rebase_ops_of_own.
  - intros op [Hop|Hop]%elem_of_app;
      apply elem_of_rebase_ops_of in Hop as (a & Ha & Ht & Hop).
    + exists a, []. auto.
    + exists a, [obj]. auto.
Qed.

(** A scheduled update for a source that has no table makes the whole
    batch fail on the assertion of [create_inhview]. *)
Theorem scheduled_source_without_table_fails (inhview_updates : gset ObjId)
    s pgops :
  s ∈ inhview_updates -> has_table (resolve s) = false ->
  apply_scheduled_inhview_updates resolve get_ancestors inhview_updates pgops
  = Raise (AssertionError "has_table(obj, schema)").
Proof.
  intros Hs Ht. unfold apply_scheduled_inhview_updates.
  rewrite decide_False by set_solver.
  assert (forall l pg,
    s ∈ l ->
    for_each l (fun s => recreate_inhview resolve get_ancestors s [] false) pg
    = Raise (AssertionError "has_table(obj, schema)")) as Hloop.
  { induction l as [|x l IH]; intros pg Hin; [by apply elem_of_nil in Hin|].
    simpl. unfold bind at 1.
    destruct (has_table (resolve x)) eqn:Hx.
    - rewrite recreate_inhview_run by done.
      apply IH. apply elem_of_cons in Hin as [->|Hin]; [congruence|done].
    - unfold recreate_inhview, drop_inhview, create_inhview,
        assert_has_table, pgops_add, bind, modify, ret.
      by rewrite Hx. }
  unfold bind. by rewrite Hloop by (by apply elem_of_elements).
Qed.
End Views.

Lemma recreate_inhview_replaces_ancestors_witness :
  exists ops,
    recreate_inhview example_resolve example_type_ancestors 3 [] true []
    = Ok tt ([DropView 3 true; CreateView (get_inhview 3 [] []) false;
              Comment (get_inhview 3 [] [])] ++ ops)
    /\ CreateView (get_inhview 5 [] []) true ∈ ops.
Proof.
  destruct (recreate_inhview_replaces_ancestors example_resolve
              example_type_ancestors 3 [] []) as [Hrun _].
  destruct (Hrun eq_refl) as (ops & Hops & Hanc & _).
  exists ops. split; [exact Hops|]. apply Hanc; [left|done].
Defined.

Lemma scheduled_source_without_table_fails_witness :
  apply_scheduled_inhview_updates example_resolve example_ancestors
    {[1; 2]} []
  = Raise (AssertionError "has_table(obj, schema)").
Proof.
  apply (scheduled_source_without_table_fails _ _ _ 2); [set_solver|done].
Defined.

End InheritanceViews.

(** ** Shared commands *)

Module MulticommandFacts.
Import Py Multicommand.
Import Delta (BackendName).

Lemma odict_get_set {K V} `{EqDecision K} (k : K) (v : V) d :
  odict_get k (odict_set k v d) = Some v.
Proof.
  induction d as [|[k' v'] d IH]; simpl.
  - by rewrite decide_True.
  - destruct (decide (k = k')) as [->|Hne]; simpl.
    + by rewrite decide_True.
    + by rewrite decide_False.
Qed.

Lemma odict_get_Some {K V} `{EqDecision K} (k : K) (v : V) d :
  odict_get k d = Some v -> (k, v) ∈ d.
Proof.
  induction d as [|[k' v'] d IH]; simpl; [done|].
  destruct (decide (k = k')) as [->|Hne].
  - intros [= ->]. left.
  - intros Hd. right. auto.
Qed.

Lemma odict_get_None {K V} `{EqDecision K} (k : K) (d : list (K * V)) :
  odict_get k d = None <-> k ∉ d.*1.
Proof.
  induction d as [|[k' v'] d IH]; simpl.
  - split; [intros _ Hin; by apply elem_of_nil in Hin|done].
  - rewrite not_elem_of_cons. destruct (decide (k = k')) as [->|Hne].
    + split; [done|]. by intros [? _].
    + rewrite IH. naive_solver.
Qed.

Lemma odict_set_keys {K V} `{EqDecision K} (k : K) (v : V) d :
  (odict_set k v d).*1
  = if decide (k ∈ d.*1) then d.*1 else d.*1 ++ [k].
Proof.
  induction d as [|[k' v'] d IH]; [done|].
  cbn [odict_set]. destruct (decide (k = k')) as [->|Hne].
  - rewrite !fmap_cons. cbn [fst]. rewrite decide_True by left. done.
  - rewrite !fmap_cons, IH. cbn [fst].
    destruct (decide (k ∈ d.*1)) as [Hin|Hnot].
    + rewrite decide_True by (by right). done.
    + rewrite decide_False; [done|]. rewrite not_elem_of_cons. done.
Qed.

Lemma elem_of_odict_set {K V} `{EqDecision K} (k : K) (v : V) d entry :
  entry ∈ odict_set k v d -> entry = (k, v) \/ entry ∈ d.
Proof.
  induction d as [|[k' v'] d IH]; simpl.
  - intros ->%list_elem_of_singleton. by left.
  - destruct (decide (k = k')) as [->|Hne].
    + intros [->|Hin]%elem_of_cons; [by left|]. right. by right.
    + intros [->|Hin]%elem_of_cons; [right; left|].
      destruct (IH Hin); [by left|]. right. by right.
Qed.

(** The values of a dictionary after ``d[k] = old + [c]``: the new element
    is among them, and so are the old ones. *)
Lemma elem_of_values_odict_set {K} `{EqDecision K} (k : K) (c : Command) d x :
  x ∈ mjoin ((odict_set k (default [] (odict_get k d) ++ [c]) d).*2) <->
  x = c \/ x ∈ mjoin (d.*2).
Proof.
  induction d as [|[k' v'] d IH]; simpl.
  - rewrite list_elem_of_singleton, elem_of_nil. naive_solver.
  - destruct (decide (k = k')) as [->|Hne]; simpl.
    + rewrite !elem_of_app, list_elem_of_singleton. naive_solver.
    + rewrite !elem_of_app, IH. naive_solver.
Qed.


Ltac mc_unfold :=
  unfold _get_multicommand, get_self, set_typecommands, new_command, bind,
    modify, ret, raise; simpl.

(** *** [OrderedSet.update] *)

Lemma ordered_update_prefix {A} `{EqDecision A} (ops cs : list A) :
  exists added, ordered_update ops cs = ops ++ added.
Proof.
  unfold ordered_update. revert ops.
  induction cs as [|c cs IH]; intros ops; simpl.
  - exists []. by rewrite app_nil_r.
  - destruct (decide (c ∈ ops)); [apply IH|].
    destruct (IH (ops ++ [c])) as [added ->]. exists (c :: added).
    by rewrite <-app_assoc.
Qed.

Lemma elem_of_ordered_update {A} `{EqDecision A} (ops cs : list A) x :
  x ∈ ordered_update ops cs <-> x ∈ ops \/ x ∈ cs.
Proof.
  unfold ordered_update. revert ops.
  induction cs as [|c cs IH]; intros ops; simpl.
  - rewrite elem_of_nil. naive_solver.
  - rewrite elem_of_cons. destruct (decide (c ∈ ops)) as [Hin|Hnot].
    + rewrite IH. naive_solver.
    + rewrite IH, elem_of_app, list_elem_of_singleton. naive_solver.
Qed.

Lemma ordered_update_NoDup {A} `{EqDecision A} (ops cs : list A) :
  NoDup ops -> NoDup (ordered_update ops cs).
Proof.
  unfold ordered_update. revert ops.
  induction cs as [|c cs IH]; intros ops Hnd; simpl; [done|].
  destruct (decide (c ∈ ops)) as [Hin|Hnot]; [by apply IH|].
  apply IH. apply NoDup_app. split_and!; [done| |apply NoDup_singleton].
  intros x Hx ->%list_elem_of_singleton. done.
Qed.

Lemma ordered_update_present {A} `{EqDecision A} (ops cs : list A) :
  (forall c, c ∈ cs -> c ∈ ops) -> ordered_update ops cs = ops.
Proof.
  unfold ordered_update. revert ops.
  induction cs as [|c cs IH]; intros ops Hin; simpl; [done|].
  rewrite decide_True by (apply Hin; left).
  apply IH. intros c' Hc'. apply Hin. by right.
Qed.

(** *** [_attach_multicommand] *)

Lemma _attach_multicommand_run cmdtype s :
  _attach_multicommand cmdtype s
  = Ok tt (mkComposite (table_name s) (_multicommands s)
             (ordered_update (pgops s) (recorded s cmdtype)) (next_id s)).
Proof.
  unfold _attach_multicommand, recorded, get_self, pgops_update, bind,
    modify, ret.
  destruct s as [tn mc ops nid]. simpl.
  destruct (mc !! cmdtype) as [tc|]; simpl; [|done].
  case_bool_decide as Hnil; simpl; [|done]. by rewrite Hnil.
Qed.

(** [_attach_multicommand] adds the commands recorded for the class to
    ``pgops``, after the operations that are there and each command once: a
    second call changes nothing.  It leaves the records alone. *)
Theorem attach_multicommand_adds_recorded_once cmdtype s :
  exists s',
    _attach_multicommand cmdtype s = Ok tt s'
    /\ _multicommands s' = _multicommands s
    /\ (exists added, pgops s' = pgops s ++ added)
    /\ (forall c, c ∈ pgops s' <-> c ∈ pgops s \/ c ∈ recorded s cmdtype)
    /\ (NoDup (pgops s) -> NoDup (pgops s'))
    /\ _attach_multicommand cmdtype s' = Ok tt s'.
Proof.
  eexists. split; [apply _attach_multicommand_run|]. simpl.
  split_and!; [done|apply ordered_update_prefix|..].
  - intros c. apply elem_of_ordered_update.
  - apply ordered_update_NoDup.
  - rewrite _attach_multicommand_run. unfold recorded. simpl.
    rewrite ordered_update_present; [done|].
    intros c Hc. apply elem_of_ordered_update. by right.
Qed.

(** *** [_get_multicommand] *)

Lemma well_formed_older s s' :
  well_formed s ->
  next_id s <= next_id s' ->
  pgops s' = pgops s ->
  (forall cmdtype typecommands,
      _multicommands s' !! cmdtype = Some typecommands ->
      _multicommands s !! cmdtype = Some typecommands
      \/ NoDup (typecommands.*1)
         /\ Forall (fun entry =>
                      entry.2 <> []
                      /\ Forall (fun c => cmd_id c < next_id s') entry.2)
              typecommands) ->
  well_formed s'.
Proof.
  intros [Hmc Hops] Hle Hpg Hnew. split.
  - intros t tc Ht. destruct (Hnew _ _ Ht) as [Hold|?]; [|done].
    destruct (Hmc _ _ Hold) as [Hnd Hall]. split; [done|].
    eapply Forall_impl; [exact Hall|]. intros entry [Hne Hids].
    split; [done|]. eapply Forall_impl; [exact Hids|]. simpl. lia.
  - rewrite Hpg. eapply Forall_impl; [exact Hops|]. simpl. lia.
Qed.

(** In a well-formed state [_get_multicommand] returns a command, whatever
    the flags, and leaves a well-formed state: the list it takes the last
    element of is never empty. *)
Theorem get_multicommand_never_fails cmdtype object_name force_new manual
    cmdkwargs s :
  well_formed s ->
  exists command s',
    _get_multicommand cmdtype object_name force_new manual cmdkwargs s
    = Ok command s'
    /\ well_formed s'.
Proof.
  intros Hwf. pose proof Hwf as [Hmc Hops]. mc_unfold.
  set (kw := default ∅ cmdkwargs). set (key := (object_name, kw)).
  destruct (_multicommands s !! cmdtype) as [tc|] eqn:Ht; simpl.
  - destruct (Hmc _ _ Ht) as [Hnd Hall].
    destruct (odict_get key tc) as [l|] eqn:Hl; simpl.
    + pose proof (odict_get_Some _ _ _ Hl) as Hin.
      eapply Forall_forall in Hall as [Hne Hids]; [|exact Hin].
      simpl in Hne, Hids.
      destruct (force_new || manual) eqn:Hflags; simpl.
      * destruct manual; simpl.
        -- eexists _, _. split; [done|].
           eapply well_formed_older; [done|simpl; lia|done|]. simpl. auto.
        -- eexists _, _. split; [done|].
           eapply well_formed_older; [done|simpl; lia|done|]. simpl.
           intros t tc' Ht'.
           destruct (decide (cmdtype = t)) as [<-|Hne'].
           ++ rewrite lookup_insert_eq in Ht'. injection Ht' as <-. right.
              split.
              ** rewrite odict_set_keys. rewrite decide_True; [done|].
                 apply list_elem_of_fmap. by exists (key, l).
              ** apply Forall_forall.
                 intros entry [->|Hold]%elem_of_odict_set.
                 --- simpl. split; [by destruct l|].
                     apply Forall_app. split.
                     +++ eapply Forall_impl; [exact Hids|]. simpl. lia.
                     +++ repeat constructor.
                 --- eapply Forall_forall in Hold; [|apply (proj2 (Hmc _ _ Ht))].
                     destruct Hold as [? Hids']. split; [done|].
                     eapply Forall_impl; [exact Hids'|]. simpl. lia.
           ++ rewrite lookup_insert_ne in Ht' by done. auto.
      * destruct (last l) as [c|] eqn:Hlast.
        -- eexists _, _. split; [done|]. done.
        -- apply last_None in Hlast. done.
    + destruct manual; simpl.
      * eexists _, _. split; [done|].
        eapply well_formed_older; [done|simpl; lia|done|]. simpl. auto.
      * eexists _, _. split; [done|].
        eapply well_formed_older; [done|simpl; lia|done|]. simpl.
        intros t tc' Ht'.
        destruct (decide (cmdtype = t)) as [<-|Hne'].
        -- rewrite lookup_insert_eq in Ht'. injection Ht' as <-. right.
           split.
           ++ rewrite odict_set_keys. rewrite decide_False.
              ** apply NoDup_app. split_and!; [done| |apply NoDup_singleton].
                 intros x Hx ->%list_elem_of_singleton.
                 by apply odict_get_None in Hl.
              ** by apply odict_get_None.
           ++ apply Forall_forall.
              intros entry [->|Hold]%elem_of_odict_set.
              ** simpl. split; [done|]. repeat constructor.
              ** eapply Forall_forall in Hold; [|exact Hall].
                 destruct Hold as [? Hids']. split; [done|].
                 eapply Forall_impl; [exact Hids'|]. simpl. lia.
        -- rewrite lookup_insert_ne in Ht' by done. auto.
  - destruct manual; simpl.
    + eexists _, _. split; [done|].
      eapply well_formed_older; [done|simpl; lia|done|]. simpl.
      intros t tc' Ht'. destruct (decide (cmdtype = t)) as [<-|Hne'].
      * rewrite lookup_insert_eq in Ht'. injection Ht' as <-. right.
        split; [constructor|constructor].
      * rewrite lookup_insert_ne in Ht' by done. auto.
    + eexists _, _. split; [done|].
      eapply well_formed_older; [done|simpl; lia|done|]. simpl.
      intros t tc' Ht'. destruct (decide (cmdtype = t)) as [<-|Hne'].
      * rewrite lookup_insert_eq in Ht'. injection Ht' as <-. right.
        split; [apply NoDup_singleton|]. repeat constructor. done.
      * rewrite !lookup_insert_ne in Ht' by done. auto.
Qed.


Lemma _get_multicommand_again cmdtype object_name force_new cmdkwargs s c s1 :
  _get_multicommand cmdtype object_name force_new false cmdkwargs s
  = Ok c s1 ->
  _get_multicommand cmdtype object_name false false cmdkwargs s1 = Ok c s1
  /\ table_name s1 = table_name s
  /\ (force_new = true -> cmd_id c = next_id s).
Proof.
  mc_unfold.
  set (kw := default ∅ cmdkwargs). set (key := (object_name, kw)).
  destruct (_multicommands s !! cmdtype) as [tc|] eqn:Ht; simpl.
  - destruct (odict_get key tc) as [l|] eqn:Hl; simpl.
    + destruct force_new; simpl.
      * intros [= <- <-]. simpl. rewrite lookup_insert_eq. simpl.
        rewrite odict_get_set. simpl. rewrite last_snoc. done.
      * destruct (last l) as [c'|] eqn:Hlast; [|done].
        intros [= <- <-]. rewrite Ht. simpl. rewrite Hl. simpl.
        by rewrite Hlast.
    + intros [= <- <-]. simpl. rewrite lookup_insert_eq. simpl.
      rewrite odict_get_set. simpl. done.
  - intros [= <- <-]. simpl. rewrite lookup_insert_eq. simpl.
    rewrite decide_True by done. simpl. done.
Qed.

(** *** [get_alter_table] *)

Lemma get_alter_table_run ctx_tabname force_new contained manual
    table_name_arg s :
  get_alter_table ctx_tabname force_new contained manual table_name_arg s
  = match resolved_table_name s ctx_tabname table_name_arg with
    | None => Raise (AssertionError "ctx")
    | Some t =>
        _get_multicommand "AlterTable" t force_new manual
          (Some {["contained" := contained]})
          (match table_name_arg with
           | Some _ => s
           | None =>
               mkComposite (Some t) (_multicommands s) (pgops s) (next_id s)
           end)
    end.
Proof.
  unfold get_alter_table, resolved_table_name, get_self, bind, modify, ret,
    raise.
  destruct table_name_arg as [t|]; [done|].
  destruct s as [[t|] mc ops nid]; simpl; [done|].
  by destruct ctx_tabname.
Qed.

(** What a recording call of [_get_multicommand] returns and leaves. *)
Lemma _get_multicommand_recording cmdtype object_name force_new cmdkwargs
    s c s1 :
  well_formed s ->
  _get_multicommand cmdtype object_name force_new false cmdkwargs s
  = Ok c s1 ->
  cmd_id c < next_id s1
  /\ c ∈ recorded s1 cmdtype
  /\ is_Some (odict_get (object_name, default ∅ cmdkwargs)
                (default [] (_multicommands s1 !! cmdtype))).
Proof.
  intros [Hmc _]. mc_unfold. unfold recorded.
  set (kw := default ∅ cmdkwargs). set (key := (object_name, kw)).
  assert (forall tc,
    mkCommand (next_id s) cmdtype object_name kw
    ∈ mjoin ((odict_set key
                (default [] (odict_get key tc)
                 ++ [mkCommand (next_id s) cmdtype object_name kw]) tc).*2))
    as Hin.
  { intros tc. apply elem_of_values_odict_set. by left. }
  destruct (_multicommands s !! cmdtype) as [tc|] eqn:Ht; simpl.
  - specialize (Hin tc).
    destruct (odict_get key tc) as [l|] eqn:Hl; simpl in *.
    + destruct force_new; simpl.
      * intros [= <- <-]. simpl. rewrite !lookup_insert_eq. simpl.
        rewrite odict_get_set. split_and!; [lia|done|done].
      * destruct (last l) as [c'|] eqn:Hlast; [|done].
        intros [= <- <-]. unfold MultiKey in *. rewrite Ht. simpl.
        rewrite Hl. pose proof (odict_get_Some _ _ _ Hl) as Hin'.
        assert (c' ∈ l) as Hc'.
        { apply last_Some in Hlast as [l' ->]. apply elem_of_app.
          right. left. }
        split_and!; [| |done].
        -- destruct (Hmc _ _ Ht) as [_ Hall].
           eapply Forall_forall in Hall as [_ Hids]; [|exact Hin'].
           eapply Forall_forall in Hids; [|exact Hc']. done.
        -- apply list_elem_of_join. exists l. split; [done|].
           apply list_elem_of_fmap. by exists (key, l).
    + intros [= <- <-]. simpl. rewrite !lookup_insert_eq. simpl.
      rewrite odict_get_set. split_and!; [lia|done|done].
  - intros [= <- <-]. simpl. rewrite !lookup_insert_eq. simpl.
    rewrite decide_True by done. split_and!; [lia|left|done].
Qed.

(** A call with the default flags for a key that has a record returns the
    last command recorded for it. *)
Lemma _get_multicommand_read cmdtype object_name cmdkwargs s l :
  odict_get (object_name, default ∅ cmdkwargs)
    (default [] (_multicommands s !! cmdtype)) = Some l ->
  _get_multicommand cmdtype object_name false false cmdkwargs s
  = match last l with
    | Some c => Ok c s
    | None => Raise IndexError
    end.
Proof.
  mc_unfold.
  destruct (_multicommands s !! cmdtype) as [tc|] eqn:Ht; simpl; [|done].
  intros Hl. rewrite Hl. simpl. by destruct (last l).
Qed.

(** A call for a key that has no record builds a new object and records
    it beside the commands that are there. *)
Lemma _get_multicommand_first cmdtype object_name cmdkwargs s :
  odict_get (object_name, default ∅ cmdkwargs)
    (default [] (_multicommands s !! cmdtype)) = None ->
  exists c s1,
    _get_multicommand cmdtype object_name false false cmdkwargs s = Ok c s1
    /\ cmd_id c = next_id s
    /\ table_name s1 = table_name s
    /\ forall x, x ∈ recorded s1 cmdtype <-> x = c \/ x ∈ recorded s cmdtype.
Proof.
  mc_unfold. unfold recorded.
  set (kw := default ∅ cmdkwargs). set (key := (object_name, kw)).
  destruct (_multicommands s !! cmdtype) as [tc|] eqn:Ht; simpl.
  - intros Hl. rewrite Hl. simpl. eexists _, _. split; [done|]. simpl.
    split_and!; [done..|]. intros x. rewrite lookup_insert_eq. simpl.
    pose proof (elem_of_values_odict_set key
                  (mkCommand (next_id s) cmdtype object_name kw) tc x) as Hx.
    rewrite Hl in Hx. exact Hx.
  - intros _. eexists _, _. split; [done|]. simpl.
    split_and!; [done..|]. intros x. rewrite lookup_insert_eq. simpl.
    rewrite list_elem_of_singleton, elem_of_nil. naive_solver.
Qed.

(** [get_alter_table] shares one ``ALTER TABLE`` command per table and
    value of ``contained``.  After a call that records its command
    (``manual`` unset) for the table it resolved, a call with ``force_new``
    and ``manual`` unset and the same ``contained`` that resolves to the
    same table returns the very same object, builds and records nothing,
    and changes nothing at all when it is given the table name or finds
    it cached.  The name is cached by a call without ``table_name`` only.
    A call for a table and a ``contained`` that have no record builds a
    second object, recorded beside the first.  With ``force_new`` the
    command returned is a new object. *)
Theorem get_alter_table_is_shared ctx_tabname force_new contained
    table_name_arg s c s1 :
  well_formed s ->
  get_alter_table ctx_tabname force_new contained false table_name_arg s
  = Ok c s1 ->
  exists t,
    resolved_table_name s ctx_tabname table_name_arg = Some t
    /\ table_name s1
       = match table_name_arg with
         | Some _ => table_name s
         | None => Some t
         end
    /\ c ∈ recorded s1 "AlterTable"
    /\ (force_new = true -> cmd_id c = next_id s)
    /\ (forall ctx_tabname' table_name_arg',
          resolved_table_name s1 ctx_tabname' table_name_arg' = Some t ->
          exists s2,
            get_alter_table ctx_tabname' false contained false
              table_name_arg' s1 = Ok c s2
            /\ _multicommands s2 = _multicommands s1
            /\ pgops s2 = pgops s1 /\ next_id s2 = next_id s1
            /\ (table_name_arg' = Some t \/ table_name s1 = Some t ->
                s2 = s1))
    /\ (forall ctx_tabname' table_name_arg' contained' t',
          resolved_table_name s1 ctx_tabname' table_name_arg' = Some t' ->
          odict_get (t', {["contained" := contained']})
            (default [] (_multicommands s1 !! "AlterTable")) = None ->
          exists c' s2,
            get_alter_table ctx_tabname' false contained' false
              table_name_arg' s1 = Ok c' s2
            /\ cmd_id c' = next_id s1 /\ c' <> c
            /\ forall x,
                 x ∈ recorded s2 "AlterTable" <->
                 x = c' \/ x ∈ recorded s1 "AlterTable").
Proof.
  intros Hwf. rewrite get_alter_table_run.
  destruct (resolved_table_name s ctx_tabname table_name_arg) as [t|] eqn:Ht;
    [|done].
  set (s0 := match table_name_arg with
             | Some _ => s
             | None =>
                 mkComposite (Some t) (_multicommands s) (pgops s) (next_id s)
             end).
  assert (well_formed s0) as Hwf0.
  { subst s0. by destruct table_name_arg. }
  assert (next_id s0 = next_id s) as Hid0.
  { subst s0. by destruct table_name_arg. }
  assert (table_name s0
          = match table_name_arg with
            | Some _ => table_name s
            | None => Some t
            end) as Htn0.
  { subst s0. by destruct table_name_arg. }
  clearbody s0. intros Hrun. exists t. split; [done|].
  destruct (_get_multicommand_recording _ _ _ _ _ _ _ Hwf0 Hrun)
    as (Holder & Hrec & Hkey).
  destruct (_get_multicommand_again _ _ _ _ _ _ _ Hrun)
    as (Hagain & Htn & Hnew).
  split_and!; [congruence|done|by rewrite <-Hid0|..].
  - intros ctx' arg' Hres. rewrite get_alter_table_run, Hres.
    destruct Hkey as [l Hl].
    rewrite (_get_multicommand_read _ _ _ _ _ Hl) in Hagain.
    destruct (last l) as [c0|] eqn:Hlast; [|done].
    injection Hagain as ->.
    set (s1' := match arg' with
                | Some _ => s1
                | None =>
                    mkComposite (Some t) (_multicommands s1) (pgops s1)
                      (next_id s1)
                end).
    exists s1'. rewrite (_get_multicommand_read _ _ _ _ l).
    2: { subst s1'. by destruct arg'. }
    rewrite Hlast. subst s1'.
    split_and!; [done|by destruct arg'..|].
    destruct arg' as [t'|]; [done|]. intros [[=]|Hcached].
    destruct s1 as [tn mc ops nid]. simpl in Hcached |- *.
    by rewrite Hcached.
  - intros ctx' arg' contained' t' Hres Habsent.
    rewrite get_alter_table_run, Hres.
    set (s1' := match arg' with
                | Some _ => s1
                | None =>
                    mkComposite (Some t') (_multicommands s1) (pgops s1)
                      (next_id s1)
                end).
    assert (_multicommands s1' = _multicommands s1
            /\ next_id s1' = next_id s1) as [Hmc' Hid'].
    { subst s1'. by destruct arg'. }
    destruct (_get_multicommand_first "AlterTable" t'
                (Some {["contained" := contained']}) s1')
      as (c' & s2 & Hrun' & Hc' & _ & Hrec').
    { by rewrite Hmc'. }
    exists c', s2. split_and!; [done|congruence| |].
    + intros ->. lia.
    + intros x. rewrite Hrec'. unfold recorded. by rewrite Hmc'.
Qed.

(** A command that [_get_multicommand] returns with ``manual`` unset is
    recorded for its class, so the [_attach_multicommand] that follows puts
    it into ``pgops``. *)
Theorem recorded_command_gets_attached cmdtype object_name force_new
    cmdkwargs s c s1 :
  _get_multicommand cmdtype object_name force_new false cmdkwargs s
  = Ok c s1 ->
  c ∈ recorded s1 cmdtype
  /\ exists s2, _attach_multicommand cmdtype s1 = Ok tt s2 /\ c ∈ pgops s2.
Proof.
  intros Hrun.
  assert (c ∈ recorded s1 cmdtype) as Hrec.
  { revert Hrun. mc_unfold. unfold recorded.
    set (kw := default ∅ cmdkwargs). set (key := (object_name, kw)).
    destruct (_multicommands s !! cmdtype) as [tc|] eqn:Ht; simpl.
    - destruct (odict_get key tc) as [l|] eqn:Hl; simpl.
      + destruct force_new; simpl.
        * intros [= <- <-]. simpl. rewrite lookup_insert_eq. simpl.
          pose proof (elem_of_values_odict_set key
                        (mkCommand (next_id s) cmdtype object_name kw) tc
                        (mkCommand (next_id s) cmdtype object_name kw))
            as Hin.
          rewrite Hl in Hin. simpl in Hin. apply Hin. by left.
        * destruct (last l) as [c'|] eqn:Hlast; [|done].
          intros [= <- <-]. unfold MultiKey in *. rewrite Ht. simpl.
          apply list_elem_of_join. exists l. split.
          -- apply last_Some in Hlast as [l' ->]. apply elem_of_app.
             right. left.
          -- apply list_elem_of_fmap. exists (key, l). split; [done|].
             by apply odict_get_Some.
      + intros [= <- <-]. simpl. rewrite lookup_insert_eq. simpl.
        pose proof (elem_of_values_odict_set key
                      (mkCommand (next_id s) cmdtype object_name kw) tc
                      (mkCommand (next_id s) cmdtype object_name kw))
          as Hin.
        rewrite Hl in Hin. simpl in Hin. apply Hin. by left.
    - intros [= <- <-]. simpl. rewrite lookup_insert_eq. simpl. left. }
  split; [done|]. eexists. split; [apply _attach_multicommand_run|].
  simpl. apply elem_of_ordered_update. by right.
Qed.

(** A command got with ``manual`` set is a new object that is not recorded:
    the records, ``pgops`` and the cached table name stay as they were
    (apart from an empty dictionary for a class that had none), and no
    [_attach_multicommand] that follows adds the command to ``pgops``. *)
Theorem manual_command_is_never_attached cmdtype object_name force_new
    cmdkwargs s c s' :
  well_formed s ->
  _get_multicommand cmdtype object_name force_new true cmdkwargs s
  = Ok c s' ->
  cmd_id c = next_id s
  /\ (forall cmdtype', recorded s' cmdtype' = recorded s cmdtype')
  /\ pgops s' = pgops s
  /\ table_name s' = table_name s
  /\ forall cmdtype' s'',
       _attach_multicommand cmdtype' s' = Ok tt s'' -> c ∉ pgops s''.
Proof.
  intros [Hmc Hops]. mc_unfold.
  assert (forall s1,
    (forall t, recorded s1 t = recorded s t) -> pgops s1 = pgops s ->
    forall cmdtype' s'',
      _attach_multicommand cmdtype' s1 = Ok tt s'' ->
      mkCommand (next_id s) cmdtype object_name (default ∅ cmdkwargs)
      ∉ pgops s'') as Hattach.
  { intros s1 Hrec Hpg t' s''. rewrite _attach_multicommand_run.
    intros [= <-]. simpl. rewrite elem_of_ordered_update, Hrec, Hpg.
    intros [Hin|Hin].
    - eapply Forall_forall in Hops; [|exact Hin]. simpl in Hops. lia.
    - unfold recorded in Hin.
      destruct (_multicommands s !! t') as [tc|] eqn:Ht;
        [|by apply elem_of_nil in Hin].
      simpl in Hin. apply list_elem_of_join in Hin as (l & Hc & Hl).
      apply list_elem_of_fmap in Hl as (entry & -> & Hentry).
      destruct (Hmc _ _ Ht) as [_ Hall].
      eapply Forall_forall in Hall as [_ Hids]; [|exact Hentry].
      eapply Forall_forall in Hids; [|exact Hc]. simpl in Hids. lia. }
  destruct (_multicommands s !! cmdtype) as [tc|] eqn:Ht; simpl.
  - rewrite orb_true_r. simpl.
    intros [= <- <-]. simpl. split_and!; try done. by apply Hattach.
  - intros [= <- <-]. simpl.
    assert (forall t',
      recorded
        (mkComposite (table_name s) (<[cmdtype:=[]]> (_multicommands s))
           (pgops s) (S (next_id s))) t'
      = recorded s t') as Hrec.
    { intros t'. unfold recorded. cbn [_multicommands].
      destruct (decide (cmdtype = t')) as [<-|Hne].
      - rewrite lookup_insert_eq. unfold MultiKey in *. by rewrite Ht.
      - by rewrite lookup_insert_ne. }
    split_and!; try done. by apply Hattach.
Qed.

(** ** The properties on a fresh command *)

Lemma well_formed_init : well_formed init.
Proof.
  split; [|constructor]. intros t tc Ht. unfold init in Ht. simpl in Ht.
  by rewrite lookup_empty in Ht.
Qed.

Lemma get_multicommand_never_fails_witness :
  exists command s',
    _get_multicommand "AlterTable" ("edgedbpub", "tbl") false false None init
    = Ok command s'
    /\ well_formed s'.
Proof.
  apply get_multicommand_never_fails. apply well_formed_init.
Defined.

Lemma get_alter_table_is_shared_witness :
  exists c s1 c' s2,
    get_alter_table (Some ("edgedbpub", "tbl")) false true false None init
    = Ok c s1
    /\ get_alter_table None false true false None s1 = Ok c s1
    /\ get_alter_table None false false false None s1 = Ok c' s2
    /\ cmd_id c = 0 /\ cmd_id c' = 1.
Proof.
  destruct (get_alter_table (Some ("edgedbpub", "tbl")) false true false
              None init) as [c s1|e] eqn:Hrun; [|by vm_compute in Hrun].
  destruct (get_alter_table_is_shared _ _ _ _ _ _ _ well_formed_init Hrun)
    as (t & Ht & Htn & _ & _ & Hshared & Hother).
  injection Ht as <-.
  destruct (Hshared None None) as (s2 & Hagain & _ & _ & _ & Hsame).
  { unfold resolved_table_name. by rewrite Htn. }
  rewrite (Hsame (or_intror Htn)) in Hagain.
  destruct (Hother None None false ("edgedbpub", "tbl"))
    as (c' & s2' & Hrun' & Hid' & _).
  { unfold resolved_table_name. by rewrite Htn. }
  { vm_compute in Hrun. injection Hrun as _ <-. by vm_compute. }
  exists c, s1, c', s2'. split_and!; [done..| |].
  - vm_compute in Hrun. by injection Hrun as <- _.
  - rewrite Hid'. vm_compute in Hrun. by injection Hrun as _ <-.
Defined.

Lemma recorded_command_gets_attached_witness :
  exists c s1 s2,
    _get_multicommand "AlterTable" ("edgedbpub", "tbl") true false None init
    = Ok c s1
    /\ _attach_multicommand "AlterTable" s1 = Ok tt s2
    /\ c ∈ pgops s2.
Proof.
  destruct (_get_multicommand "AlterTable" ("edgedbpub", "tbl") true false
              None init) as [c s1|e] eqn:Hrun; [|by vm_compute in Hrun].
  destruct (recorded_command_gets_attached _ _ _ _ _ _ _ Hrun)
    as (_ & s2 & Hattach & Hin).
  by exists c, s1, s2.
Defined.

Lemma manual_command_is_never_attached_witness :
  exists c s' s'',
    _get_multicommand "AlterTable" ("edgedbpub", "tbl") false true None init
    = Ok c s'
    /\ _attach_multicommand "AlterTable" s' = Ok tt s''
    /\ c ∉ pgops s''.
Proof.
  destruct (_get_multicommand "AlterTable" ("edgedbpub", "tbl") false true
              None init) as [c s'|e] eqn:Hrun; [|by vm_compute in Hrun].
  pose proof (_attach_multicommand_run "AlterTable" s') as Hattach.
  eexists c, s', _. split_and!; [done..|].
  destruct (manual_command_is_never_attached _ _ _ _ _ _ _
              well_formed_init Hrun)
    as (_ & _ & _ & _ & Hnever).
  by eapply Hnever.
Defined.

End MulticommandFacts.

(** ** More rules of inference *)

Module InferenceRules.
Import Py irast Inference InferenceFacts.

Section Rules.
Context {Schema : Type} `{SchemaOps Schema}.
Implicit Types st : State (Schema:=Schema).

(** ** Inversion of the primitive steps *)

Lemma infer_type_memo_inv (n : Node) body st t st' :
  inferred_types (env st) !! key n = None ->
  infer_type_memo n body st = Ok t st' ->
  exists st1,
    body st = Ok (Some t) st1
    /\ st' = mkState
               (mkEnvironment (schema (env st1))
                  (<[key n := t]> (inferred_types (env st1)))
                  (set_types (env st1)))
               (path_id st1).
Proof.
  intros Hm. unfold infer_type_memo, bind, get_env. rewrite Hm.
  destruct (body st) as [[r|] st1|e]; try done.
  unfold set_inferred_type, ret. intros [= <- <-]. eauto.
Qed.

Lemma infer_type_memo_none (n : Node) body st st1 :
  inferred_types (env st) !! key n = None ->
  body st = Ok None st1 ->
  infer_type_memo n body st
  = Raise (QueryError "could not determine expression type" (context n)).
Proof.
  intros Hm Hb. unfold infer_type_memo, bind, get_env. by rewrite Hm, Hb.
Qed.

Lemma env_schema_get_inv name st t st' :
  env_schema_get name st = Ok t st' ->
  st' = st /\ schema_get (schema (env st)) name = inr t.
Proof.
  unfold env_schema_get, get_schema, bind, get_env, ret, lift.
  destruct (schema_get (schema (env st)) name); [done|].
  by intros [= <- <-].
Qed.

Lemma check_slice_index_inv base_name int_t ix st st' :
  check_slice_index infer_type base_name int_t (Some ix) st = Ok tt st' ->
  exists index_type,
    infer_type ix st = Ok index_type st'
    /\ implicitly_castable_to index_type int_t (schema (env st')) = true.
Proof.
  unfold check_slice_index.
  intros (index_type & st1 & Hrun & Hrest)%bind_inv.
  exists index_type. revert Hrest.
  unfold get_schema, bind, get_env, ret, raise.
  destruct (implicitly_castable_to index_type int_t (schema (env st1)))
    eqn:Hcast; simpl; [|done].
  by intros [= <-].
Qed.


(** ** Slices *)

(** The type of a slice is the type of the sliced operand: when
    [infer_type] returns for a [SliceIndirection] that is not memoized yet,
    it returns the type inferred for ``expr``; that type is a string, json,
    bytes, an array or ``anytype``, and the type inferred for each bound
    that is given is implicitly castable to ``int64``. *)
Theorem slice_keeps_operand_type n expr start stop st t st' :
  inferred_types (env st) !! key n = None ->
  infer_type (SliceIndirection n expr start stop) st = Ok t st' ->
  exists st1 str_t int_t json_t bytes_t,
    infer_type expr st = Ok t st1
    /\ schema_get (schema (env st1)) "std::str" = inr str_t
    /\ schema_get (schema (env st1)) "std::int64" = inr int_t
    /\ schema_get (schema (env st1)) "std::json" = inr json_t
    /\ schema_get (schema (env st1)) "std::bytes" = inr bytes_t
    /\ (issubclass t (schema (env st1)) str_t
        || issubclass t (schema (env st1)) json_t
        || issubclass t (schema (env st1)) bytes_t
        || match t with s_types.Array _ => true | _ => false end
        || s_types.is_any t) = true
    /\ (forall ix,
          start = Some ix \/ stop = Some ix ->
          exists st_a index_type st_b,
            infer_type ix st_a = Ok index_type st_b
            /\ implicitly_castable_to index_type int_t (schema (env st_b))
               = true).
Proof.
  intros Hm Hrun. simpl in Hrun.
  apply infer_type_memo_inv in Hrun as (st2 & Hbody & _); [|done].
  unfold __infer_slice in Hbody.
  apply bind_inv in Hbody as (node_type & st1 & Hexpr & Hbody).
  apply bind_inv in Hbody as (str_t & ? & [-> Hstr]%env_schema_get_inv & Hbody).
  apply bind_inv in Hbody as (int_t & ? & [-> Hint]%env_schema_get_inv & Hbody).
  apply bind_inv in Hbody
    as (json_t & ? & [-> Hjson]%env_schema_get_inv & Hbody).
  apply bind_inv in Hbody
    as (bytes_t & ? & [-> Hbytes]%env_schema_get_inv & Hbody).
  apply bind_inv in Hbody as (s & ? & [= <- <-] & Hbody).
  apply bind_inv in Hbody as (base_name & st3 & Hbase & Hbody).
  apply bind_inv in Hbody as ([] & st4 & Hstart & Hbody).
  apply bind_inv in Hbody as ([] & st5 & Hstop & Hret).
  injection Hret as <- <-.
  exists st1, str_t, int_t, json_t, bytes_t. split_and!; try done.
  - revert Hbase. unfold ret, raise.
    destruct (issubclass node_type (schema (env st1)) str_t); [done|].
    destruct (issubclass node_type (schema (env st1)) json_t); [done|].
    destruct (issubclass node_type (schema (env st1)) bytes_t); [done|].
    destruct node_type as [| | | |name]; try done; simpl.
    by case_bool_decide.
  - intros ix [-> | ->].
    + apply check_slice_index_inv in Hstart as (index_type & Hix & Hcast).
      eauto.
    + apply check_slice_index_inv in Hstop as (index_type & Hix & Hcast).
      eauto.
Qed.

(** ** Casts *)

(** A cast never yields a generic type: when [infer_type] returns for a
    [TypeCast] that is not memoized yet, it returns the type of ``to_type``,
    and that type is not polymorphic; when the type of ``to_type`` is
    polymorphic, it raises 'cannot cast into generic type' with the context
    of the cast. *)
Theorem typecast_is_never_generic n to_type st :
  inferred_types (env st) !! key n = None ->
  (forall t st',
      infer_type (TypeCast n to_type) st = Ok t st' ->
      exists st1,
        infer_typeref to_type st = Ok t st1
        /\ is_polymorphic t (schema (env st1)) = false
        /\ schema (env st') = schema (env st1))
  /\ (forall t st1,
         infer_typeref to_type st = Ok t st1 ->
         is_polymorphic t (schema (env st1)) = true ->
         infer_type (TypeCast n to_type) st
         = Raise (QueryError
                    ("cannot cast into generic type "
                     +:+ repr (get_displayname t (schema (env st1))))
                    (context n))).
Proof.
  intros Hm. split.
  - intros t st' Hrun. simpl in Hrun.
    apply infer_type_memo_inv in Hrun as (st2 & Hbody & ->); [|done].
    unfold __infer_typecast in Hbody.
    apply bind_inv in Hbody as (stype & st1 & Hto & Hbody).
    apply bind_inv in Hbody as (s & ? & [= <- <-] & Hbody).
    destruct (is_polymorphic stype (schema (env st1))) eqn:Hpoly; [done|].
    injection Hbody as <- <-. by exists st1.
  - intros t st1 Hto Hpoly. simpl. apply infer_type_memo_raise; [done|].
    unfold __infer_typecast. run_with Hto.
    run_with (get_schema_Ok st1). by rewrite Hpoly.
Qed.


(** ** Array literals *)

(** An array literal that is not memoized yet: with a type reference, its
    elements are not looked at; without one, the empty literal is an array
    of ``anytype``, and a literal with elements is an array of the common
    type of the elements, or an error when they have none. *)
Theorem array_literal_type n els st :
  inferred_types (env st) !! key n = None ->
  (forall tr,
      infer_type (Array n (Some tr) els) st
      = infer_type (Array n (Some tr) []) st)
  /\ (exists st',
         infer_type (Array n None []) st
         = Ok (s_types.Array (PseudoType_get "anytype")) st')
  /\ (forall T st1,
         els <> [] ->
         _infer_common_type infer_type els st = Ok (Some T) st1 ->
         exists st',
           infer_type (Array n None els) st = Ok (s_types.Array T) st'
           /\ schema (env st') = Array_create_schema (schema (env st1)) T)
  /\ (forall st1,
         els <> [] ->
         _infer_common_type infer_type els st = Ok None st1 ->
         infer_type (Array n None els) st
         = Raise (QueryError "could not determine array type" (context n))).
Proof.
  intros Hm. split_and!.
  - done.
  - simpl. unfold infer_type_memo, bind, get_env. rewrite Hm. simpl.
    eauto.
  - intros T st1 Hne Hcommon. destruct els as [|el els']; [done|].
    change (infer_type (Array n None (el :: els')))
      with (infer_type_memo n
              (__infer_array infer_type n None (el :: els'))).
    assert (__infer_array infer_type n None (el :: els') st
            = Ok (Some (s_types.Array T))
                (mkState
                   (mkEnvironment
                      (Array_create_schema (schema (env st1)) T)
                      (inferred_types (env st1)) (set_types (env st1)))
                   (path_id st1))) as Hbody.
    { unfold __infer_array. unfold bind at 1. run_with Hcommon. done. }
    unfold infer_type_memo, bind, get_env. rewrite Hm, Hbody. simpl.
    eauto.
  - intros st1 Hne Hcommon. destruct els as [|el els']; [done|].
    change (infer_type (Array n None (el :: els')))
      with (infer_type_memo n
              (__infer_array infer_type n None (el :: els'))).
    apply infer_type_memo_raise; [done|].
    unfold __infer_array. unfold bind at 1. by run_with Hcommon.
Qed.

(** ** Sets *)

(** The type of a [Set] or [EmptySet] node that is not memoized yet is its
    entry in ``set_types``: a node with no entry raises [KeyError], a node
    whose entry is ``None`` raises 'could not determine expression type',
    and otherwise the entry is returned and memoized, nothing else
    changing. *)
Theorem set_node_type n ir st :
  inferred_types (env st) !! key n = None ->
  ir = Set_ n \/ ir = EmptySet n ->
  match set_types (env st) !! key n with
  | Some (Some t) =>
      infer_type ir st
      = Ok t (mkState
                (mkEnvironment (schema (env st))
                   (<[key n := t]> (inferred_types (env st)))
                   (set_types (env st)))
                (path_id st))
  | Some None =>
      infer_type ir st
      = Raise (QueryError "could not determine expression type" (context n))
  | None => infer_type ir st = Raise KeyError
  end.
Proof.
  intros Hm [-> | ->]; simpl;
    unfold infer_type_memo, __infer_set, set_types_getitem, bind, get_env;
    rewrite Hm; by destruct (set_types (env st) !! key n) as [[t|]|].
Qed.

(** ** Common types *)

Lemma collect_untyped_empty_sets irs i p st :
  Forall (fun ir =>
            exists n, ir = EmptySet n
                      /\ set_types (env st) !! key n = Some None) irs ->
  exists p',
    collect_types infer_type i irs p st = Ok p' st
    /\ types p' = types p /\ seen_object p' = seen_object p
    /\ seen_scalar p' = seen_scalar p /\ seen_coll p' = seen_coll p.
Proof.
  intros Hall. revert i p.
  induction Hall as [|ir irs (n & -> & Hn) _ IH]; intros i p; simpl.
  - by exists p.
  - unfold bind at 1. unfold set_types_getitem, bind, get_env. rewrite Hn.
    simpl. destruct (IH (S i) (add_empty i p)) as (p' & -> & ?). by exists p'.
Qed.

(** A non-empty list of [EmptySet] arguments that all lack a type has no
    common type: [_infer_common_type] raises 'cannot determine common type
    of an empty set' with the context of the first argument, and amends
    nothing. *)
Theorem common_type_of_untyped_empty_sets first rest st :
  Forall (fun ir =>
            exists n, ir = EmptySet n
                      /\ set_types (env st) !! key n = Some None)
    (first :: rest) ->
  _infer_common_type infer_type (first :: rest) st
  = Raise (QueryError "cannot determine common type of an empty set"
             (context_of first)).
Proof.
  intros Hall. unfold _infer_common_type.
  destruct (collect_untyped_empty_sets _ 0
              (mkPartition [] [] false false false) _ Hall)
    as (p' & Hrun & Ht & Ho & Hs & Hc).
  run_with Hrun. unfold seen_count. rewrite Ho, Hs, Hc, Ht. simpl.
  done.
Qed.

(** *** Arguments with memoized types *)

Lemma settled_infer_type ir t st :
  settled st ir t -> infer_type ir st = Ok t st.
Proof. intros [(n & Hn & Hm) _]. by eapply infer_type_hit. Qed.

Lemma settled_is_untyped_empty ir t st :
  settled st ir t -> is_untyped_empty ir st = Ok false st.
Proof.
  intros [_ Hempty]. unfold is_untyped_empty.
  destruct ir; try done.
  destruct (Hempty n eq_refl) as [t' Ht'].
  unfold set_types_getitem, bind, get_env. by rewrite Ht'.
Qed.

Lemma collect_settled irs ts i p st :
  Forall2 (settled st) irs ts ->
  collect_types infer_type i irs p st
  = Ok (foldl (fun p t => add_type t p) p ts) st.
Proof.
  intros Hall. revert i p.
  induction Hall as [|ir t irs ts Hir _ IH]; intros i p; simpl; [done|].
  run_with (settled_is_untyped_empty _ _ _ Hir).
  run_with (settled_infer_type _ _ _ Hir). apply IH.
Qed.

Lemma foldl_add_type ts p :
  let p' := foldl (fun p t => add_type t p) p ts in
  types p' = types p ++ ts
  /\ empties p' = empties p
  /\ seen_coll p'
     = seen_coll p || existsb (fun t => bool_decide (kind_of t = KCollection)) ts
  /\ seen_scalar p'
     = seen_scalar p || existsb (fun t => bool_decide (kind_of t = KScalar)) ts
  /\ seen_object p'
     = seen_object p || existsb (fun t => bool_decide (kind_of t = KObject)) ts.
Proof.
  revert p. induction ts as [|t ts IH]; intros p; simpl.
  - rewrite app_nil_r, !orb_false_r. done.
  - destruct (IH (add_type t p)) as (-> & -> & -> & -> & ->).
    unfold add_type, kind_of.
    destruct (s_types.is_collection t), (s_types.is_scalar t); simpl;
      rewrite <-?app_assoc, ?orb_true_r, ?orb_false_r; simpl;
      split_and!; try done; by rewrite ?orb_assoc, ?orb_true_r.
Qed.

Lemma existsb_kind k ts :
  existsb (fun t => bool_decide (kind_of t = k)) ts = true <->
  exists t, t ∈ ts /\ kind_of t = k.
Proof.
  rewrite existsb_exists. setoid_rewrite bool_decide_eq_true.
  setoid_rewrite <-list_elem_of_In. done.
Qed.

Lemma existsb_kind_all k ts :
  (forall t, t ∈ ts -> kind_of t <> k) ->
  existsb (fun t => bool_decide (kind_of t = k)) ts = false.
Proof.
  intros Hall. apply not_true_iff_false.
  intros (t & Hin & Hk)%existsb_kind. by eapply Hall.
Qed.

(** [_infer_common_type] on arguments whose types are memoized (none of
    them an [EmptySet] that lacks a type) is a function of these types and
    of the schema: types of two different kinds (collection, scalar, object)
    have no common type; for object types it is the first nearest common
    ancestor, and the environment stays as it is; for scalars, and for
    collections, it is the left fold of
    [find_common_implicitly_castable_type] over the types, and of the
    environment only ``env.schema`` changes, to the schema the last step of
    the fold returned.  Nothing is amended. *)
Theorem common_type_of_settled_arguments first rest t0 ts st :
  Forall2 (settled st) (first :: rest) (t0 :: ts) ->
  ((exists t1 t2,
       t1 ∈ t0 :: ts /\ t2 ∈ t0 :: ts /\ kind_of t1 <> kind_of t2) ->
   _infer_common_type infer_type (first :: rest) st
   = Raise (QueryError "cannot determine common type" (context_of first)))
  /\ ((forall t, t ∈ t0 :: ts -> kind_of t = KObject) ->
      _infer_common_type infer_type (first :: rest) st
      = Ok (head (get_class_nearest_common_ancestors (schema (env st))
                    (t0 :: ts))) st)
  /\ ((forall t, t ∈ t0 :: ts -> kind_of t = KScalar)
      \/ (forall t, t ∈ t0 :: ts -> kind_of t = KCollection) ->
      let r := left_fold_common_type (schema (env st)) t0 ts in
      _infer_common_type infer_type (first :: rest) st
      = Ok r.2
          (mkState
             (mkEnvironment r.1 (inferred_types (env st))
                (set_types (env st)))
             (path_id st))).
Proof.
  intros Hall. unfold _infer_common_type.
  rewrite (bind_Ok _ _ _ _ _
             (collect_settled _ _ 0 (mkPartition [] [] false false false) _
                Hall)).
  cbv beta.
  pose proof (foldl_add_type (t0 :: ts)
                (mkPartition [] [] false false false)) as Hp.
  cbv zeta in Hp.
  remember (foldl (fun p t => add_type t p)
              (mkPartition [] [] false false false) (t0 :: ts)) as p eqn:Heqp.
  clear Heqp. destruct Hp as (Ht & He & Hc & Hs & Ho).
  cbn [types empties seen_coll seen_scalar seen_object app] in *.
  rewrite orb_false_l in Hc, Hs, Ho.
  unfold seen_count. rewrite Ht, He, Hc, Hs, Ho. clear p Ht He Hc Hs Ho.
  assert (forall (m : M (option Ty)),
    (x <- m;;
     match x with
     | Some c => amend_empties (first :: rest) [] c;;; ret (Some c)
     | None => ret None
     end)%py st = m st) as Hwrap.
  { intros m. unfold bind. destruct (m st) as [[c|] st1|e]; done. }
  split_and!.
  - intros (t1 & t2 & H1 & H2 & Hne).
    assert (forall k, (exists t, t ∈ t0 :: ts /\ kind_of t = k) ->
              existsb (fun t => bool_decide (kind_of t = k)) (t0 :: ts)
              = true) as Hk.
    { intros k. apply existsb_kind. }
    rewrite decide_True; [done|].
    destruct (kind_of t1) eqn:K1, (kind_of t2) eqn:K2; try done;
      repeat match goal with
        | Hin : ?t ∈ t0 :: ts, K : kind_of ?t = ?k |- _ =>
            rewrite (Hk k) by eauto; clear K
        end;
      simpl; destruct (existsb _ _); simpl; lia.
  - intros Hobj.
    rewrite (existsb_kind_all KCollection), (existsb_kind_all KScalar);
      try (intros t Ht; rewrite (Hobj t Ht); done).
    rewrite decide_False by (destruct (existsb _ (t0 :: ts)); simpl; lia).
    simpl orb. cbv iota.
    rewrite (Hwrap (s <- get_schema;;
                    ret (head (get_class_nearest_common_ancestors s
                                 (t0 :: ts))))%py).
    done.
  - intros [Hsc|Hco].
    + rewrite (existsb_kind_all KCollection), (existsb_kind_all KObject);
        try (intros t Ht; rewrite (Hsc t Ht); done).
      rewrite decide_False by (destruct (existsb _ (t0 :: ts)); simpl; lia).
      assert (existsb (fun t => bool_decide (kind_of t = KScalar)) (t0 :: ts)
              = true) as ->.
      { apply existsb_kind. exists t0. split; [left|]. apply Hsc. left. }
      simpl orb. cbv iota. rewrite Hwrap. apply fold_common_type_run.
    + rewrite (existsb_kind_all KScalar), (existsb_kind_all KObject);
        try (intros t Ht; rewrite (Hco t Ht); done).
      rewrite decide_False by (destruct (existsb _ (t0 :: ts)); simpl; lia).
      assert (existsb (fun t => bool_decide (kind_of t = KCollection))
                (t0 :: ts) = true) as ->.
      { apply existsb_kind. exists t0. split; [left|]. apply Hco. left. }
      simpl orb. cbv iota. rewrite Hwrap. apply fold_common_type_run.
Qed.

(** ** Amendments *)

(** Amendments compose: of two amendments of one [EmptySet] the later one
    wins, leaving the type and the path id that it alone would leave (the
    re-derived path id keeps the name of the original name hint and the
    namespace); and amendments of two different sets commute. *)
Theorem amendments_compose (es1 es2 : Node) t1 t2 st :
  (forall st1,
      amend_empty_set_type es1 t1 st = Ok tt st1 ->
      amend_empty_set_type es1 t2 st1 = amend_empty_set_type es1 t2 st)
  /\ (key es1 <> key es2 ->
      (amend_empty_set_type es1 t1;;; amend_empty_set_type es2 t2)%py st
      = (amend_empty_set_type es2 t2;;; amend_empty_set_type es1 t1)%py st).
Proof.
  split.
  - unfold amend_empty_set_type.
    destruct (path_id st !! key es1) as [p|] eqn:Hp; [|done].
    intros st1 [= <-]. simpl. rewrite lookup_insert_eq. simpl.
    by rewrite !insert_insert_eq.
  - intros Hne. unfold bind, amend_empty_set_type.
    destruct (path_id st !! key es1) as [p1|] eqn:Hp1,
             (path_id st !! key es2) as [p2|] eqn:Hp2; simpl;
      rewrite ?lookup_insert_ne by done; rewrite ?Hp1, ?Hp2; try done.
    f_equal. f_equal; [f_equal|]; by apply insert_insert_ne.
Qed.
End Rules.

(** ** The rules at the example schema *)

Lemma slice_keeps_operand_type_witness :
  exists st' st1,
    infer_type
      (SliceIndirection (example_node 6) (Set_ (example_node 3))
         (Some example_int64) None)
      example_state
    = Ok json_t st'
    /\ infer_type (Set_ (example_node 3)) example_state = Ok json_t st1.
Proof.
  destruct (infer_type
              (SliceIndirection (example_node 6) (Set_ (example_node 3))
                 (Some example_int64) None)
              example_state) as [t st'|e] eqn:Hrun; [|by vm_compute in Hrun].
  assert (t = json_t) as ->.
  { vm_compute in Hrun. by injection Hrun as <- _. }
  destruct (slice_keeps_operand_type (example_node 6) _ _ _ example_state
              _ _ eq_refl Hrun)
    as (st1 & _ & _ & _ & _ & Hexpr & _).
  by exists st', st1.
Defined.

Lemma typecast_is_never_generic_witness :
  (exists st' st1,
      infer_type (TypeCast (example_node 6) (example_typeref 12 2))
        example_state
      = Ok int64_t st'
      /\ infer_typeref (example_typeref 12 2) example_state = Ok int64_t st1
      /\ is_polymorphic int64_t (schema (env st1)) = false)
  /\ infer_type (TypeCast (example_node 6) example_anytype_ref) example_state
     = Raise (QueryError "cannot cast into generic type 'anytype'" None).
Proof.
  split.
  - destruct (infer_type (TypeCast (example_node 6) (example_typeref 12 2))
                example_state) as [t st'|e] eqn:Hrun; [|by vm_compute in Hrun].
    assert (t = int64_t) as ->.
    { vm_compute in Hrun. by injection Hrun as <- _. }
    destruct (typecast_is_never_generic (example_node 6)
                (example_typeref 12 2) example_state eq_refl) as [Hok _].
    destruct (Hok _ _ Hrun) as (st1 & Hto & Hpoly & _).
    by exists st', st1.
  - destruct (infer_typeref example_anytype_ref example_state)
      as [t st1|e] eqn:Hto; [|by vm_compute in Hto].
    assert (t = s_types.PseudoType "anytype") as ->.
    { vm_compute in Hto. by injection Hto as <- _. }
    destruct (typecast_is_never_generic (example_node 6) example_anytype_ref
                example_state eq_refl) as [_ Hraise].
    by rewrite (Hraise _ _ Hto eq_refl).
Defined.

Lemma array_literal_type_witness :
  exists st',
    infer_type (Array (example_node 6) None []) example_state
    = Ok (s_types.Array (s_types.PseudoType "anytype")) st'.
Proof.
  by destruct (array_literal_type (example_node 6) [] example_state eq_refl)
    as (_ & Hempty & _).
Defined.

Lemma set_node_type_witness :
  infer_type (EmptySet (example_node 1)) example_state
  = Raise (QueryError "could not determine expression type" None).
Proof.
  exact (set_node_type (example_node 1) (EmptySet (example_node 1))
           example_state eq_refl (or_intror eq_refl)).
Defined.

Lemma common_type_of_untyped_empty_sets_witness :
  _infer_common_type infer_type [EmptySet (example_node 1)] example_state
  = Raise (QueryError "cannot determine common type of an empty set" None).
Proof.
  apply (common_type_of_untyped_empty_sets (EmptySet (example_node 1)) []
           example_state).
  repeat constructor. by exists (example_node 1).
Defined.

Lemma common_type_of_settled_arguments_witness :
  _infer_common_type infer_type
    [Set_ (example_node 3); Set_ (example_node 7)] example_state_memoized
  = Raise (QueryError "cannot determine common type" None)
  /\ _infer_common_type infer_type
       [Set_ (example_node 20); Set_ (example_node 21)]
       example_state_memoized
     = Ok (Some int64_t) example_state_memoized.
Proof.
  split.
  - destruct (common_type_of_settled_arguments
                (Set_ (example_node 3)) [Set_ (example_node 7)]
                json_t [s_types.ObjectType "std::BaseObject"]
                example_state_memoized) as [Hmixed _].
    + repeat constructor; try done; eexists; by split.
    + apply Hmixed. exists json_t, (s_types.ObjectType "std::BaseObject").
      split_and!; [left|right; left|done].
  - destruct (common_type_of_settled_arguments
                (Set_ (example_node 20)) [Set_ (example_node 21)]
                int32_t [int64_t] example_state_memoized)
      as (_ & _ & Hfold).
    + repeat constructor; try done; eexists; by split.
    + rewrite Hfold; [done|]. left.
      intros t [->|[->|[]%elem_of_nil]%elem_of_cons]%elem_of_cons; done.
Defined.

Lemma amendments_compose_witness :
  exists st1,
    amend_empty_set_type (example_node 1) int32_t example_state = Ok tt st1
    /\ amend_empty_set_type (example_node 1) int64_t st1
       = amend_empty_set_type (example_node 1) int64_t example_state.
Proof.
  destruct (amend_empty_set_type (example_node 1) int32_t example_state)
    as [[] st1|e] eqn:Hrun; [|by vm_compute in Hrun].
  exists st1. split; [done|].
  by apply (amendments_compose (example_node 1) (example_node 1) int32_t
              int64_t example_state).
Defined.
End InferenceRules.

(** ** Invariants of inference *)

Module InferenceInvariants.
Import Py irast Inference InferenceFacts.

(** ** Properties that depend on what is raised and on the memo table

    A property [P] of computations that holds of the primitive accesses
    and of every ``raise`` but that of an [IndexError], and is kept by
    sequencing and by the memoization of [infer_type], holds of
    [infer_type] on every node, provided the schema helpers keep it too. *)

Section Skeleton.
Context {Schema : Type} `{SchemaOps Schema}.
Variable P : forall A, M (Schema:=Schema) A -> Prop.
Hypothesis Q_ret : forall A (a : A), P A (ret a).
Hypothesis Q_raise : forall A e, e <> IndexError -> P A (raise e).
Hypothesis Q_bind :
  forall A B (m : M A) (k : A -> M B) (post : A -> Prop),
    P A m ->
    (forall st a st', m st = Ok a st' -> post a) ->
    (forall a, post a -> P B (k a)) ->
    P B (bind m k).
Hypothesis Q_get_env : P _ get_env.
Hypothesis Q_set_schema : forall s, P _ (set_schema s).
Hypothesis Q_amend : forall es t, P _ (amend_empty_set_type es t).
Hypothesis Q_memo :
  forall n body, P _ body -> P _ (infer_type_memo n body).
Hypothesis Q_schema_get : forall s n, P _ (lift (schema_get s n)).
Hypothesis Q_schema_get_by_id :
  forall s id, P _ (lift (schema_get_by_id s id)).
Hypothesis Q_Collection_get_class :
  forall c, P _ (lift (Collection_get_class c)).
Hypothesis Q_Collection_from_subtypes :
  forall c s ts, P _ (lift (Collection_from_subtypes c s ts)).

Lemma Q_seq A B (m : M A) (k : A -> M B) :
  P A m -> (forall a, P B (k a)) -> P B (bind m k).
Proof. intros Hm Hk. by apply (Q_bind _ _ m k (fun _ => True)). Qed.

Ltac qstep :=
  first
    [ assumption
    | apply Q_ret | apply Q_raise; discriminate | apply Q_get_env
    | apply Q_set_schema | apply Q_amend
    | apply Q_schema_get | apply Q_schema_get_by_id
    | apply Q_Collection_get_class | apply Q_Collection_from_subtypes
    | apply Q_seq; [|intros ?]
    | match goal with
      | |- P _ (match ?x with _ => _ end) => destruct x
      end ].
Ltac qsolve := repeat qstep.

Lemma Q_get_schema : P _ get_schema.
Proof. unfold get_schema. qsolve. Qed.

Lemma Q_with_schema A (f : Schema -> Schema * A) : P _ (with_schema f).
Proof. unfold with_schema. pose proof Q_get_schema. qsolve. Qed.

Lemma Q_env_schema_get n : P _ (env_schema_get n).
Proof.
  unfold env_schema_get. apply Q_seq; [apply Q_get_schema|].
  intros s. apply Q_schema_get.
Qed.

Lemma Q_set_types_getitem k : P _ (set_types_getitem k).
Proof. unfold set_types_getitem. qsolve. Qed.

Ltac qauto :=
  repeat first
    [ apply Q_get_schema | apply Q_with_schema
    | apply Q_env_schema_get | apply Q_set_types_getitem | qstep ];
  auto.

Lemma Q_for_each A (xs : list A) (body : A -> M (Schema:=Schema) unit) :
  (forall x, x ∈ xs -> P _ (body x)) -> P _ (for_each xs body).
Proof.
  induction xs as [|x xs IH]; intros Hbody; simpl; [qauto|].
  apply Q_seq; [apply Hbody; left|]. intros _. apply IH.
  intros x' Hx'. apply Hbody. by right.
Qed.

Section WithTypeRefs.
Variable rec : TypeRef -> M (Schema:=Schema) Ty.

Lemma Q_map_m (ts : list TypeRef) :
  Forall (fun t => P _ (rec t)) ts -> P _ (map_m rec ts).
Proof. induction 1; simpl; qauto. Qed.

Lemma Q_named_eltypes (ts : list TypeRef) acc :
  Forall (fun t => P _ (rec t)) ts -> P _ (named_eltypes rec ts acc).
Proof.
  intros Hts. revert acc. induction Hts; intros acc; simpl; qauto.
Qed.

Lemma Q_indexed_eltypes (ts : list TypeRef) i acc :
  Forall (fun t => P _ (rec t)) ts ->
  P _ (indexed_eltypes rec i ts acc).
Proof.
  intros Hts. revert i acc.
  induction Hts; intros i acc; simpl; qauto.
Qed.

Lemma Q___infer_typeref id coll (ts : list TypeRef) :
  Forall (fun t => P _ (rec t)) ts ->
  P _ (__infer_typeref rec id coll ts).
Proof.
  intros Hts. unfold __infer_typeref.
  pose proof Q_get_schema.
  pose proof (Q_map_m _ Hts).
  pose proof (fun acc => Q_named_eltypes _ acc Hts).
  pose proof (fun i acc => Q_indexed_eltypes _ i acc Hts).
  qauto.
Qed.
End WithTypeRefs.

Lemma Q_infer_typeref t : P _ (infer_typeref t).
Proof.
  induction t as [cls n id en coll subs IH] using TypeRef_subtypes_ind.
  simpl. apply Q_memo. destruct cls; [|qauto..].
  by apply Q___infer_typeref.
Qed.

Section WithNodes.
Variable rec : Base -> M (Schema:=Schema) Ty.

Lemma Q_is_untyped_empty arg : P _ (is_untyped_empty arg).
Proof.
  unfold is_untyped_empty. pose proof Q_set_types_getitem.
  qauto.
Qed.

Lemma Q_collect_types i irs p :
  Forall (fun ir => P _ (rec ir)) irs -> P _ (collect_types rec i irs p).
Proof.
  intros Hirs. revert i p.
  pose proof Q_is_untyped_empty.
  induction Hirs as [|arg irs Harg _ IH]; intros i p; simpl; qauto.
Qed.

Lemma Q_fold_common_type c it : P _ (fold_common_type c it).
Proof.
  revert c. induction it as [|t it IH]; intros c; simpl; qauto.
Qed.

(** The indices the partition loop records are positions of the list. *)
Lemma collect_types_in_range i irs p st p' st' :
  collect_types rec i irs p st = Ok p' st' ->
  Forall (fun j => j < i) (empties p) ->
  Forall (fun j => j < i + length irs) (empties p').
Proof.
  revert i p st. induction irs as [|arg irs IH]; intros i p st; simpl.
  - intros [= <- <-]. by rewrite Nat.add_0_r.
  - intros (b & st0 & _ & Hrest)%bind_inv Hp.
    replace (i + S (length irs)) with (S i + length irs) by lia.
    destruct b.
    + apply IH in Hrest; [done|]. simpl. apply Forall_app. split.
      * eapply Forall_impl; [exact Hp|]. simpl. lia.
      * repeat constructor.
    + apply bind_inv in Hrest as (t & st1 & _ & Hrest).
      apply IH in Hrest; [done|]. rewrite empties_add_type.
      eapply Forall_impl; [exact Hp|]. simpl. lia.
Qed.

Lemma Q_amend_empties irs es c :
  Forall (fun j => j < length irs) es -> P _ (amend_empties irs es c).
Proof.
  intros Hes. unfold amend_empties. apply Q_for_each. intros i Hi.
  eapply Forall_forall in Hes; [|exact Hi].
  apply lookup_lt_is_Some in Hes as [ir ->]. qauto.
Qed.

Lemma Q__infer_common_type irs :
  irs <> [] ->
  Forall (fun ir => P _ (rec ir)) irs -> P _ (_infer_common_type rec irs).
Proof.
  intros Hne Hirs. unfold _infer_common_type.
  destruct irs as [|first rest]; [done|].
  apply (Q_bind _ _ _ _
           (fun p => Forall (fun j => j < length (first :: rest))
                       (empties p))).
  - by apply Q_collect_types.
  - intros st p st' Hrun.
    by apply (collect_types_in_range _ _ _ _ _ _ Hrun).
  - intros p Hp.
    pose proof Q_fold_common_type.
    pose proof (fun c => Q_amend_empties _ _ c Hp).
    pose proof Q_get_schema.
    qauto.
Qed.

Lemma Q___infer_type_introspection n tr :
  P _ (__infer_type_introspection n tr).
Proof.
  unfold __infer_type_introspection. pose proof Q_env_schema_get.
  qauto.
Qed.

Lemma Q___infer_from_typeref tr : P _ (__infer_from_typeref tr).
Proof.
  unfold __infer_from_typeref. pose proof Q_with_schema.
  qauto.
Qed.

Lemma Q__infer_binop_args l r :
  P _ (rec l) -> P _ (rec r) -> P _ (_infer_binop_args rec l r).
Proof. intros Hl Hr. unfold _infer_binop_args. qauto. Qed.

Lemma Q___infer_typecheckop l r :
  P _ (rec l) -> P _ (rec r) -> P _ (__infer_typecheckop rec l r).
Proof.
  intros Hl Hr. unfold __infer_typecheckop.
  pose proof (Q__infer_binop_args _ _ Hl Hr).
  pose proof Q_env_schema_get. qauto.
Qed.

Lemma Q___infer_insert_stmt n irs :
  irs <> [] ->
  Forall (fun ir => P _ (rec ir)) irs ->
  P _ (__infer_insert_stmt rec n irs).
Proof.
  intros Hne Hirs. unfold __infer_insert_stmt.
  pose proof (Q__infer_common_type _ Hne Hirs). qauto.
Qed.

Lemma Q_check_slice_index base_name int_t ix :
  from_option (fun ir => P _ (rec ir)) True ix ->
  P _ (check_slice_index rec base_name int_t ix).
Proof.
  intros Hix. unfold check_slice_index. pose proof Q_get_schema.
  destruct ix; simpl in Hix; qauto.
Qed.

Lemma Q___infer_slice e a b :
  P _ (rec e) ->
  from_option (fun ir => P _ (rec ir)) True a ->
  from_option (fun ir => P _ (rec ir)) True b ->
  P _ (__infer_slice rec e a b).
Proof.
  intros He Ha Hb. unfold __infer_slice.
  pose proof Q_env_schema_get. pose proof Q_get_schema.
  pose proof (fun n t => Q_check_slice_index n t _ Ha).
  pose proof (fun n t => Q_check_slice_index n t _ Hb).
  qauto.
Qed.

Lemma Q___infer_index e i :
  P _ (rec e) -> P _ (rec i) -> P _ (__infer_index rec e i).
Proof.
  intros He Hi. unfold __infer_index.
  pose proof Q_env_schema_get. pose proof Q_get_schema.
  qauto.
Qed.

Lemma Q___infer_array n tr els :
  Forall (fun ir => P _ (rec ir)) els -> P _ (__infer_array rec n tr els).
Proof.
  intros Hels. unfold __infer_array.
  pose proof Q___infer_from_typeref. pose proof Q_get_schema.
  destruct tr; [auto|]. destruct els as [|el els]; [qauto|].
  assert (P _ (_infer_common_type rec (el :: els)))
    by (by apply Q__infer_common_type).
  qauto.
Qed.

Lemma Q_tuple_element_types (els : list (string * Base)) acc :
  Forall (fun el => P _ (rec el.2)) els ->
  P _ (tuple_element_types rec els acc).
Proof.
  intros Hels. revert acc.
  induction Hels; intros acc; simpl; qauto.
Qed.

Lemma Q___infer_tuple named (els : list (string * Base)) :
  Forall (fun el => P _ (rec el.2)) els ->
  P _ (__infer_tuple rec named els).
Proof.
  intros Hels. unfold __infer_tuple.
  pose proof (fun acc => Q_tuple_element_types _ acc Hels).
  pose proof Q_get_schema. qauto.
Qed.

Lemma Q___infer_typecast n tr : P _ (__infer_typecast n tr).
Proof.
  unfold __infer_typecast. pose proof (Q_infer_typeref tr).
  pose proof Q_get_schema. qauto.
Qed.

Lemma Q___infer_child ir : P _ (rec ir) -> P _ (__infer_child rec ir).
Proof. intros Hir. unfold __infer_child. qauto. Qed.
End WithNodes.

Lemma Q_infer_type ir : P _ (infer_type ir).
Proof.
  induction ir as [ir IH] using Base_children_ind.
  destruct ir; simpl in *;
    try (apply Q_memo);
    repeat match goal with
      | H : Forall _ (_ :: _) |- _ =>
          apply Forall_cons in H; destruct H
      end;
    first
      [ apply Q_raise; discriminate
      | by apply Q___infer_child
      | apply Q_set_types_getitem
      | apply Q___infer_type_introspection
      | apply Q___infer_from_typeref
      | by apply Q___infer_typecheckop
      | apply Q_infer_typeref
      | apply Q___infer_typecast
      | by apply Q___infer_index
      | by apply Q___infer_array
      | apply Q_ret
      | idtac ].
  - (* InsertStmt *)
    destruct on_conflict as [[e|]|]; simpl in IH;
      repeat match goal with
        | H : Forall _ (_ :: _) |- _ =>
            apply Forall_cons in H; destruct H
        end;
      apply Q___infer_insert_stmt;
        first [done | repeat constructor; assumption].
  - (* SliceIndirection *)
    destruct start, stop; simpl in *;
      repeat match goal with
        | H : Forall _ (_ :: _) |- _ =>
            apply Forall_cons in H; destruct H
        end;
      apply Q___infer_slice; simpl; auto.
  - (* Tuple *)
    apply Q___infer_tuple. apply Forall_forall. intros el Hel.
    eapply Forall_forall in IH; [exact IH|].
    apply list_elem_of_fmap. by exists el.
Qed.
End Skeleton.


Section Invariants.
Context {Schema : Type} `{SchemaOps Schema}.
Implicit Types st : State (Schema:=Schema).

(** The [IndexError] of [_infer_common_type] on an empty argument list
    cannot escape from [infer_type]: the rules call it on lists that have
    an element, and the indices it recorded for the arguments found empty
    are positions of the list.  So unless a schema helper raises one,
    [infer_type] never raises [IndexError]. *)
Theorem infer_type_never_raises_IndexError :
  (forall s n, schema_get s n <> inl IndexError) ->
  (forall s id, schema_get_by_id s id <> inl IndexError) ->
  (forall c, Collection_get_class c <> inl IndexError) ->
  (forall c s ts, Collection_from_subtypes c s ts <> inl IndexError) ->
  forall ir st, infer_type ir st <> Raise IndexError.
Proof.
  intros Hget Hid Hclass Hsub.
  assert (forall A (r : Exn + A) st,
    r <> inl IndexError -> lift r st <> Raise IndexError) as Hlift.
  { intros A [e|a] st Hr; unfold lift, raise, ret; [|done].
    intros [= ->]. done. }
  apply (Q_infer_type (fun A (m : M A) => forall st, m st <> Raise IndexError)).
  - done.
  - intros A e He st [= ->]. done.
  - intros A B m k post Hm Hpost Hk st. unfold bind.
    destruct (m st) as [a st'|e] eqn:Hrun.
    + apply Hk. by eapply Hpost.
    + intros [= ->]. by apply (Hm st).
  - done.
  - done.
  - intros es t st. unfold amend_empty_set_type.
    by destruct (path_id st !! key es).
  - intros n body Hbody st. unfold infer_type_memo, bind, get_env.
    destruct (inferred_types (env st) !! key n); [done|].
    specialize (Hbody st).
    destruct (body st) as [[t|] st1|e]; try done.
    intros [= ->]. done.
  - intros s n st. by apply Hlift.
  - intros s id st. by apply Hlift.
  - intros c st. by apply Hlift.
  - intros c s ts st. by apply Hlift.
Qed.

(** [infer_type] never forgets or changes a memoized type: every entry of
    ``env.inferred_types`` at the call is an entry, with the same type,
    when the call returns. *)
Theorem infer_type_keeps_memo ir st t st' :
  infer_type ir st = Ok t st' ->
  inferred_types (env st) ⊆ inferred_types (env st').
Proof.
  revert st t st'.
  apply (Q_infer_type
           (fun A (m : M A) =>
              forall st a st',
                m st = Ok a st' ->
                inferred_types (env st) ⊆ inferred_types (env st'))).
  - by intros A a st a' st' [= _ <-].
  - done.
  - intros A B m k post Hm Hpost Hk st b st''
      (a & st' & Hrun & Hrest)%bind_inv.
    etrans; [by eapply Hm|]. eapply Hk; [by eapply Hpost|exact Hrest].
  - by intros st a st' [= _ <-].
  - by intros s st [] st' [= <-].
  - intros es t st [] st'. unfold amend_empty_set_type.
    destruct (path_id st !! key es); [|done]. by intros [= <-].
  - intros n body Hbody st t st'. unfold infer_type_memo, bind, get_env.
    destruct (inferred_types (env st) !! key n) as [r|] eqn:Hm.
    + by intros [= _ <-].
    + destruct (body st) as [[r|] st1|e] eqn:Hrun; try done.
      unfold set_inferred_type, ret. intros [= _ <-]. simpl.
      apply insert_subseteq_r; [done|]. by eapply Hbody.
  - intros s n st a st'. unfold lift.
    destruct (schema_get s n); [done|]. by intros [= _ <-].
  - intros s id st a st'. unfold lift.
    destruct (schema_get_by_id s id); [done|]. by intros [= _ <-].
  - intros c st a st'. unfold lift.
    destruct (Collection_get_class c); [done|]. by intros [= _ <-].
  - intros c s ts st a st'. unfold lift.
    destruct (Collection_from_subtypes c s ts); [done|]. by intros [= _ <-].
Qed.
End Invariants.


(** ** The invariants at the example schema *)

Lemma infer_type_never_raises_IndexError_witness :
  infer_type (Array (example_node 6) None []) example_state
  <> Raise IndexError.
Proof.
  apply (infer_type_never_raises_IndexError (H:=example_schema)).
  - intros s n. simpl. by case_match.
  - intros s id. simpl. unfold example_get_by_id. by repeat case_match.
  - done.
  - done.
Defined.

Lemma infer_type_keeps_memo_witness :
  exists st',
    infer_type example_int64 example_state_memoized = Ok int64_t st'
    /\ inferred_types (env st') !! 3 = Some json_t.
Proof.
  destruct (infer_type example_int64 example_state_memoized)
    as [t st'|e] eqn:Hrun; [|by vm_compute in Hrun].
  assert (t = int64_t) as ->.
  { vm_compute in Hrun. by injection Hrun as <- _. }
  exists st'. split; [done|].
  eapply lookup_weaken; [|by eapply infer_type_keeps_memo]. done.
Defined.

End InferenceInvariants.

(** ** Pointer and type references *)

Module PointerRefFacts.
Import irast PointerRefs.

Lemma BasePointerRef_children_ind (Q : BasePointerRef -> Prop) :
  (forall k cs, Forall Q cs -> Q (mkPointerRef k cs)) -> forall p, Q p.
Proof.
  intros step. fix IH 1. intros [k cs]. apply step.
  induction cs as [|c cs IHcs]; constructor; [apply IH|exact IHcs].
Qed.

Lemma elem_of_foldl_union (f : BasePointerRef -> gset Key) cs init k :
  k ∈ foldl (fun res child => res ∪ f child) init cs <->
  k ∈ init \/ exists c, c ∈ cs /\ k ∈ f c.
Proof.
  revert init. induction cs as [|c cs IH]; intros init; simpl.
  - split; [by left|]. intros [?|(c & Hc & _)]; [done|].
    by apply elem_of_nil in Hc.
  - rewrite IH, elem_of_union. split.
    + intros [[?|?]|(c' & Hc' & ?)]; [by left|right..].
      * exists c. split; [left|done].
      * exists c'. split; [by right|done].
    + intros [?|(c' & [->|Hc']%elem_of_cons & ?)].
      * left. by left.
      * left. by right.
      * right. by exists c'.
Qed.

(** [descendants] is the transitive closure of ``children``: a node is in
    the result exactly when it is a child of the pointer or a child of a
    node that is in the result. *)
Theorem descendants_is_transitive_closure p k :
  k ∈ descendants p <-> exists q, below q p /\ ptr_key q = k.
Proof.
  revert k. induction p as [key cs IH] using BasePointerRef_children_ind.
  intros k. simpl. rewrite elem_of_foldl_union, elem_of_list_to_set.
  rewrite list_elem_of_fmap. split.
  - intros [(q & -> & Hq)|(c & Hc & Hk)].
    + exists q. split; [|done]. by apply below_child.
    + eapply Forall_forall in IH; [|exact Hc].
      apply IH in Hk as (q & Hq & <-). exists q. split; [|done].
      by eapply below_step.
  - intros (q & Hq & <-). inversion Hq as [? ? Hin|? c ? Hc Hbelow]; subst.
    + left. by exists q.
    + right. exists c. split; [done|].
      eapply Forall_forall in IH; [|exact Hc]. apply IH. by exists q.
Qed.

(** Equality of type references, ``a == b``, is an equivalence relation
    that agrees with [TypeRef.__hash__]: two references are equal exactly
    when they have the same class and the same id; references of different
    classes with one id are unequal although their hashes are the same.  The
    method [TypeRef.__eq__] called directly is not symmetric (a [TypeRef] is
    equal to an [AnyTypeRef] with its id, not the other way round): ``==``
    hides it, because the method of the subclass operand is the one that
    answers. *)
Theorem TypeRef_eq_and_hash (hash : nat -> Z) :
  (forall a b,
      TypeRef_eq a b = true <->
      typeref_cls a = typeref_cls b /\ typeref_id a = typeref_id b)
  /\ (forall a, TypeRef_eq a a = true)
  /\ (forall a b, TypeRef_eq a b = TypeRef_eq b a)
  /\ (forall a b c,
         TypeRef_eq a b = true -> TypeRef_eq b c = true ->
         TypeRef_eq a c = true)
  /\ (forall a b,
         TypeRef_eq a b = true ->
         TypeRef___hash__ hash a = TypeRef___hash__ hash b)
  /\ (forall a b,
         typeref_id a = typeref_id b -> typeref_cls a <> typeref_cls b ->
         TypeRef_eq a b = false
         /\ TypeRef___hash__ hash a = TypeRef___hash__ hash b)
  /\ (forall a b,
         typeref_cls a = PlainTypeRef -> typeref_cls b <> PlainTypeRef ->
         typeref_id a = typeref_id b ->
         TypeRef___eq__ a b = true /\ TypeRef___eq__ b a = false).
Proof.
  assert (forall a b,
    TypeRef_eq a b = true <->
    typeref_cls a = typeref_cls b /\ typeref_id a = typeref_id b) as Hiff.
  { intros a b.
    unfold TypeRef_eq, TypeRef___eq__, is_proper_subclass_instance,
      isinstance_of_class.
    destruct (typeref_cls a), (typeref_cls b); simpl;
      rewrite ?bool_decide_eq_true; naive_solver. }
  split_and!.
  - exact Hiff.
  - intros a. by apply Hiff.
  - intros a b. apply eq_true_iff_eq. rewrite !Hiff. naive_solver.
  - intros a b c (? & ?)%Hiff (? & ?)%Hiff. apply Hiff. split; congruence.
  - intros a b (_ & Hid)%Hiff. unfold TypeRef___hash__. by rewrite Hid.
  - intros a b Hid Hcls. split.
    + apply not_true_iff_false. by intros (? & _)%Hiff.
    + unfold TypeRef___hash__. by rewrite Hid.
  - intros a b Ha Hb Hid. unfold TypeRef___eq__, isinstance_of_class.
    rewrite Ha. simpl. rewrite Hid.
    split; [by apply bool_decide_eq_true|]. by destruct (typeref_cls b).
Qed.

End PointerRefFacts.

(** ** The effect of an enum alteration *)

Module EnumEffect.
Import Delta.

Lemma pg_enum_run_appends name added l :
  NoDup (l ++ added) ->
  pg_enum_run name ((fun v => AlterEnumAddValue name v None) <$> added)
    (Some l)
  = Some (Some (l ++ added)).
Proof.
  revert l. induction added as [|v added IH]; intros l Hnd; simpl.
  - by rewrite app_nil_r.
  - rewrite decide_True by done.
    apply NoDup_app in Hnd as (Hl & Hdisj & Hadded).
    rewrite decide_False by (intros Hin; apply (Hdisj v Hin); left).
    rewrite IH; [by rewrite <-app_assoc|].
    rewrite <-app_assoc. simpl. apply NoDup_app. split_and!; [done| |done].
    intros x Hx. by apply Hdisj.
Qed.

(** When there are no problematic references, the operations of
    [_alter_begin] turn the enum type of the old values into that of the
    new ones: run on a backend where the type has the old values, they
    succeed and leave it with the new values, provided these are distinct.
    (When the scalar ends up with no values the type is left as it was.) *)
Theorem alter_begin_migrates_enum {Refs : Type}
    (_get_problematic_refs : bool -> option Refs)
    (_undo_everything : Refs -> list PgOp) (cmd : AlterScalar) :
  let old_enum_values := or_empty (enum_values_orig cmd) in
  let new_enum_values :=
    if has_rebase cmd && negb (bool_decide (old_enum_values = []))
    then or_empty (enum_values_rebased cmd)
    else old_enum_values in
  (forall composite_only, _get_problematic_refs composite_only = None) ->
  NoDup new_enum_values ->
  pg_enum_run (type_name cmd)
    (_alter_begin _get_problematic_refs _undo_everything cmd)
    (backend_enum old_enum_values)
  = Some (if bool_decide (new_enum_values = [])
          then backend_enum old_enum_values
          else Some new_enum_values).
Proof.
  intros old new Hrefs Hnd. unfold _alter_begin.
  fold old. fold new. rewrite Hrefs.
  assert (forall ops enum,
    pg_enum_run (type_name cmd)
      (ops ++ match default_delta cmd with
              | Some d =>
                  [AlterDomainAlterDefault (type_name cmd)
                     match d with
                     | DefaultExpression => None
                     | DefaultLiteral v => Some v
                     end]
              | None => []
              end) enum
    = pg_enum_run (type_name cmd) ops enum) as Hdefault.
  { induction ops as [|op ops IH]; intros enum; simpl.
    - by destruct (default_delta cmd).
    - destruct (pg_enum_step (type_name cmd) op enum); [apply IH|done]. }
  replace (if needs_recreate old new || has_create_constraint cmd
           then [] else []) with (@nil PgOp)
    by (by destruct (needs_recreate old new || has_create_constraint cmd)).
  rewrite app_nil_l, Hdefault.
  assert (new <> [] -> old <> []) as Hold.
  { unfold new. intros Hnew Hold. rewrite Hold in Hnew. simpl in Hnew.
    rewrite andb_false_r in Hnew. done. }
  case_bool_decide as Hnew; simpl; [done|].
  specialize (Hold Hnew). unfold backend_enum.
  rewrite (bool_decide_eq_false_2 (old = [])) by exact Hold.
  destruct (needs_recreate old new) eqn:Hrec.
  - simpl. by rewrite !decide_True by done.
  - case_bool_decide as Hne; [|simpl; congruence].
    assert (new = old ++ drop (length old) new) as Hsplit.
    { unfold needs_recreate in Hrec.
      rewrite bool_decide_eq_true_2 in Hrec by done. simpl in Hrec.
      apply bool_decide_eq_false in Hrec. apply dec_stable in Hrec.
      rewrite Hrec at 1. by rewrite take_drop. }
    pose proof (DeltaFacts.add_enum_values_appends (type_name cmd) old 0
                  (drop (length old) new) ltac:(lia)) as Happ.
    change (drop 0 old) with old in Happ.
    rewrite <-Hsplit in Happ. rewrite Happ.
    rewrite pg_enum_run_appends; by rewrite <-Hsplit.
Qed.

Lemma alter_begin_migrates_enum_witness :
  pg_enum_run ("edgedb", "color")
    (_alter_begin (fun _ => @None unit) (fun _ => [])
       (mkAlterScalar (Some ["A"; "C"]) (Some ["A"; "B"; "C"]) false true
          ("edgedb", "color") None))
    (Some ["A"; "C"])
  = Some (Some ["A"; "B"; "C"]).
Proof.
  apply (alter_begin_migrates_enum (fun _ => @None unit) (fun _ => [])
           (mkAlterScalar (Some ["A"; "C"]) (Some ["A"; "B"; "C"]) false true
              ("edgedb", "color") None)); [done|].
  simpl. apply (bool_decide_unpack _). by vm_compute.
Defined.

End EnumEffect.
